(** * middlewared.schema: attribute types, clean/validate, JSON export,
      call binding, Ref/Patch resolution

    A shallow embedding of [src/middlewared/middlewared/schema.py].

    Python values are an inductive type of JSON-like trees; exceptions are an
    explicit result type; attribute objects are a class tag plus their
    instance fields; the schema objects that [Ref] and [Patch] copy and mutate
    live in an explicit heap of cells addressed by object identity. *)

From Stdlib Require Import ZArith QArith Qcanon Ascii String DecimalString List Lia.
From stdpp Require Import base option list gmap strings.

Set Warnings "-register-all".
Local Open Scope string_scope.
Local Open Scope Z_scope.

(** ** Python values *)

(** The values that reach the schema layer: what a JSON decoder produces, plus
    opaque objects ([self], the application handle, a job) that are only
    passed around.  A [dict] is an association list in insertion order whose
    keys are strings.  A [float] is the rational it denotes (NaN and the
    infinities are left out).  Values are trees: the same container object
    does not occur twice inside one value. *)
Inductive value : Type :=
| VNone
| VBool (b : bool)
| VInt (z : Z)
| VFloat (q : Qc)
| VStr (s : string)
| VList (l : list value)
| VDict (d : list (string * value))
| VObj (id : positive).

(** *** Association lists used as dicts *)

Fixpoint dict_get {A} (k : string) (d : list (string * A)) : option A :=
  match d with
  | [] => None
  | (k', v) :: d' => if String.eqb k k' then Some v else dict_get k d'
  end.

Definition dict_in {A} (k : string) (d : list (string * A)) : bool :=
  match dict_get k d with Some _ => true | None => false end.

(** [d[k] = v]: an existing key keeps its place, a new key goes last. *)
Fixpoint dict_set {A} (k : string) (v : A) (d : list (string * A))
  : list (string * A) :=
  match d with
  | [] => [(k, v)]
  | (k', v') :: d' =>
      if String.eqb k k' then (k, v) :: d' else (k', v') :: dict_set k v d'
  end.

(** [del d[k]]: [None] stands for [KeyError]. *)
Fixpoint dict_del {A} (k : string) (d : list (string * A))
  : option (list (string * A)) :=
  match d with
  | [] => None
  | (k', v') :: d' =>
      if String.eqb k k' then Some d'
      else match dict_del k d' with
           | Some d'' => Some ((k', v') :: d'')
           | None => None
           end
  end.

(** *** Truthiness, [isinstance], [==] *)

Definition truthy (v : value) : bool :=
  match v with
  | VNone => false
  | VBool b => b
  | VInt z => negb (z =? 0)
  | VFloat q => negb (Qeq_bool q 0)
  | VStr s => negb (String.eqb s "")
  | VList l => match l with [] => false | _ => true end
  | VDict d => match d with [] => false | _ => true end
  | VObj _ => true
  end.

Definition is_None (v : value) : bool :=
  match v with VNone => true | _ => false end.

Definition isinstance_str (v : value) : bool :=
  match v with VStr _ => true | _ => false end.

Definition isinstance_bool (v : value) : bool :=
  match v with VBool _ => true | _ => false end.

(** [bool] is a subclass of [int]. *)
Definition isinstance_int (v : value) : bool :=
  match v with VBool _ | VInt _ => true | _ => false end.

Definition isinstance_list (v : value) : bool :=
  match v with VList _ => true | _ => false end.

Definition isinstance_dict (v : value) : bool :=
  match v with VDict _ => true | _ => false end.

(** The number a numeric value denotes: [True == 1 == 1.0]. *)
Definition as_number (v : value) : option Q :=
  match v with
  | VBool b => Some (inject_Z (Z.b2z b))
  | VInt z => Some (inject_Z z)
  | VFloat q => Some (this q)
  | _ => None
  end.

(** Python's [==] on these values. *)
Fixpoint py_eq (a b : value) {struct a} : bool :=
  match as_number a, as_number b with
  | Some x, Some y => Qeq_bool x y
  | Some _, None | None, Some _ => false
  | None, None =>
      match a, b with
      | VNone, VNone => true
      | VStr s, VStr t => String.eqb s t
      | VObj i, VObj j => Pos.eqb i j
      | VList l, VList m =>
          (fix go (l : list value) (m : list value) {struct l} : bool :=
             match l, m with
             | [], [] => true
             | x :: l', y :: m' => py_eq x y && go l' m'
             | _, _ => false
             end) l m
      | VDict d, VDict e =>
          Nat.eqb (length d) (length e) &&
          (fix go (d : list (string * value)) {struct d} : bool :=
             match d with
             | [] => true
             | (k, x) :: d' =>
                 match dict_get k e with
                 | Some y => py_eq x y && go d'
                 | None => false
                 end
             end) d
      | _, _ => false
      end
  end.

(** [v in container] for a list. *)
Definition py_in (v : value) (l : list value) : bool := existsb (py_eq v) l.

(** *** [str.isdigit] and [int(str)] *)

(** A [str] is the sequence of its code points; the model has the code
    points below 256, which are Rocq's [ascii].  Among them the decimal
    digits are [0] to [9], and [str.isdigit] holds in addition of the
    superscripts two, three and one (code points 178, 179 and 185), which
    are digits that are not decimal. *)
Definition is_decimal (c : ascii) : bool :=
  let n := nat_of_ascii c in (Nat.leb 48 n && Nat.leb n 57)%bool.

Definition is_digit (c : ascii) : bool :=
  let n := nat_of_ascii c in
  (is_decimal c || Nat.eqb n 178 || Nat.eqb n 179 || Nat.eqb n 185)%bool.

Fixpoint all_digits (s : string) : bool :=
  match s with
  | EmptyString => true
  | String c s' => is_digit c && all_digits s'
  end.

(** [s.isdigit()]: at least one character, all of them digits. *)
Definition isdigit (s : string) : bool :=
  match s with
  | EmptyString => false
  | _ => all_digits s
  end.

Fixpoint all_decimal (s : string) : bool :=
  match s with
  | EmptyString => true
  | String c s' => is_decimal c && all_decimal s'
  end.

Fixpoint int_of_digits (acc : Z) (s : string) : Z :=
  match s with
  | EmptyString => acc
  | String c s' => int_of_digits (10 * acc + (Z.of_nat (nat_of_ascii c) - 48)) s'
  end.

(** [int(s)] for a string that [isdigit] holds of: the number it spells when
    every character is a decimal digit; [None] stands for the [ValueError]
    that [int] raises on a digit that is not decimal. *)
Definition int_of_str (s : string) : option Z :=
  if all_decimal s then Some (int_of_digits 0 s) else None.

(** ** Errors *)

Inductive errno : Type := EINVAL | ENOENT | ENOTDIR | EISDIR.

(** [class Error(Exception)]: a violation on one field.  The text of a
    message is kept structured where the source formats a value into it. *)
Inductive Error : Type :=
| mkError (attribute : string) (errmsg : message) (code : errno)
with message : Type :=
| Text (s : string)
| InvalidChoice (v : value)              (* 'Invalid choice: {0}'.format(value) *)
| ItemNotValid (index : nat) (found : Error)
    (* 'Item#{0} is not valid per list types: {1}'.format(index, found) *)
| NotValidIP (v : value).                (* f'Not a valid IP Address: {value}' *)

Definition attribute (e : Error) : string :=
  match e with mkError a _ _ => a end.
Definition errmsg (e : Error) : message :=
  match e with mkError _ m _ => m end.
Definition Error_errno (e : Error) : errno :=
  match e with mkError _ _ c => c end.

(** [Error(attribute, errmsg)] with the default [errno=errno.EINVAL]. *)
Definition Error_ (a : string) (m : message) : Error := mkError a m EINVAL.

(** Modelled from the spec: [middlewared.service_exception.ValidationErrors]
    is not among the sources.  The spec gives it as an ordered, mergeable
    collection of violations: [add] appends one, [add_child] merges another
    collection with [<prefix>.] put before each attribute path, its truth
    value is non-emptiness; [extend] (used by the call binding) merges
    without a prefix. *)
Module ValidationErrors.
Record violation : Type :=
  { v_attribute : string; v_errmsg : message; v_errno : errno }.
Definition t : Type := list violation.
Definition empty : t := [].
Definition add (self : t) (a : string) (m : message) (c : errno) : t :=
  (self ++ [{| v_attribute := a; v_errmsg := m; v_errno := c |}])%list.
Definition add_child (self : t) (prefix : string) (child : t) : t :=
  fold_left (fun acc e => add acc (prefix ++ "." ++ v_attribute e)
                            (v_errmsg e) (v_errno e)) child self.
Definition extend (self : t) (other : t) : t :=
  fold_left (fun acc e => add acc (v_attribute e) (v_errmsg e) (v_errno e))
            other self.
Definition bool (self : t) : Datatypes.bool :=
  match self with [] => false | _ => true end.
End ValidationErrors.

(** Exceptions other than the two of the schema layer. *)
Inductive pyexc : Type :=
| TypeError | KeyError | IndexError | ValueError | AssertionError
| ResolverError (msg : string).

Inductive exn : Type :=
| ExError (e : Error)
| ExValidationErrors (es : ValidationErrors.t)
| ExOther (e : pyexc).

Inductive result (A : Type) : Type :=
| Ok (a : A)
| Raise (e : exn).
Arguments Ok {A} a.
Arguments Raise {A} e.

#[global] Instance result_ret : MRet result := fun A a => Ok a.

#[global] Instance result_bind : MBind result := fun A B k m =>
  match m with
  | Ok a => k a
  | Raise e => Raise e
  end.

(** ** Attributes *)

(** The class of an attribute object. *)
Inductive cls : Type :=
| Any | Str | Dir | File | IPAddr | Bool | Int | List | Dict.

(** Modelled from the spec: [middlewared.validators.ShouldBe] is not among
    the sources.  The spec gives a validator as a predicate object that
    raises a "should-be" violation with a human-readable expectation: called
    on the value it either returns or raises [ShouldBe(what)], and
    [Some what] stands for the raise. *)
Definition validator : Type := value -> option string.

(** The instance fields of an attribute object other than its children.
    [enum] belongs to [EnumMixin] ([Str] and its subclasses, [List]);
    [additional_attrs] and [update] belong to [Dict]. *)
Record Fields : Type := mkFields
  { cls_of : cls;
    name : string;
    verbose : string;
    required : bool;
    has_default : bool;
    default : value;
    validators : list validator;
    register : bool;
    enum : option (list value);
    additional_attrs : bool;
    update : bool }.

(** An attribute with its children: the candidates of a [List] ([items]) and
    the fields of a [Dict] ([attrs], keyed as [self.attrs] is). *)
Inductive Attr : Type :=
| Node (f : Fields) (items : list Attr) (attrs : list (string * Attr)).

Definition fields (a : Attr) : Fields := match a with Node f _ _ => f end.
Definition items (a : Attr) : list Attr := match a with Node _ i _ => i end.
Definition attrs (a : Attr) : list (string * Attr) :=
  match a with Node _ _ d => d end.

(** [Attribute.__init__(name, verbose=None, required=False, validators=None,
    register=False, **kwargs)]; [dflt] is [Some d] when [default=d] was
    passed, and [self.verbose = verbose or name]. *)
Definition Attribute_init (c : cls) (n : string) (verb : option string)
    (req : bool) (vals : list validator) (reg : bool) (dflt : option value)
  : Fields :=
  {| cls_of := c; name := n;
     verbose := match verb with
                | Some s => if String.eqb s "" then n else s
                | None => n
                end;
     required := req;
     has_default := match dflt with Some _ => true | None => false end;
     default := match dflt with Some d => d | None => VNone end;
     validators := vals; register := reg; enum := None;
     additional_attrs := false; update := false |}.

Definition with_enum (en : option (list value)) (f : Fields) : Fields :=
  {| cls_of := cls_of f; name := name f; verbose := verbose f;
     required := required f; has_default := has_default f;
     default := default f; validators := validators f;
     register := register f; enum := en;
     additional_attrs := additional_attrs f; update := update f |}.

Definition with_dict_flags (additional upd : bool) (f : Fields) : Fields :=
  {| cls_of := cls_of f; name := name f; verbose := verbose f;
     required := required f; has_default := has_default f;
     default := default f; validators := validators f;
     register := register f; enum := enum f;
     additional_attrs := additional; update := upd |}.

Definition mk_Str n req dflt vals en : Attr :=
  Node (with_enum en (Attribute_init Str n None req vals false dflt)) [] [].
Definition mk_File n req dflt vals en : Attr :=
  Node (with_enum en (Attribute_init File n None req vals false dflt)) [] [].
Definition mk_IPAddr n req dflt vals en : Attr :=
  Node (with_enum en (Attribute_init IPAddr n None req vals false dflt)) [] [].
Definition mk_Bool n req dflt vals : Attr :=
  Node (Attribute_init Bool n None req vals false dflt) [] [].
Definition mk_Int n req dflt vals : Attr :=
  Node (Attribute_init Int n None req vals false dflt) [] [].

(** [List.__init__]: without an explicit default the default is [[]], and
    [has_default] is then true as well. *)
Definition mk_List n req dflt vals en (its : list Attr) : Attr :=
  Node (with_enum en
          (Attribute_init List n None req vals false
             (Some (match dflt with Some d => d | None => VList [] end))))
       its [].

(** [Dict.__init__(name, *attrs, **kwargs)]: [self.attrs[i.name] = i] for
    each child in turn. *)
Definition mk_Dict n req dflt vals (additional upd : bool)
    (children : list Attr) : Attr :=
  Node (with_dict_flags additional upd
          (Attribute_init Dict n None req vals false dflt))
       []
       (fold_left (fun d i => dict_set (name (fields i)) i d) children []).

(** ** clean *)

Definition raise_Error {A} (a : string) (m : message) : result A :=
  Raise (ExError (Error_ a m)).

(** [Attribute.clean] *)
Definition Attribute_clean (self : Fields) (v : value) : result value := Ok v.

(** [EnumMixin.clean] *)
Definition EnumMixin_clean (self : Fields) (v : value) : result value :=
  match enum self with
  | None => Ok v
  | Some en =>
      let tmp := match v with VList l => l | _ => [v] end in
      if forallb (fun x => py_in x en) tmp then Ok v
      else raise_Error (name self) (InvalidChoice v)
  end.

(** [Str.clean] *)
Definition Str_clean (self : Fields) (v : value) : result value :=
  v ← EnumMixin_clean self v;
  if is_None v && negb (required self) then Ok (default self)
  else if negb (isinstance_str v) then
    raise_Error (name self) (Text "Not a string")
  else Ok v.

(** [Bool.clean] *)
Definition Bool_clean (self : Fields) (v : value) : result value :=
  if is_None v && negb (required self) then Ok (default self)
  else if negb (isinstance_bool v) then
    raise_Error (name self) (Text "Not a boolean")
  else Ok v.

(** [Int.clean] *)
Definition Int_clean (self : Fields) (v : value) : result value :=
  if is_None v && negb (required self) then Ok (default self)
  else if negb (isinstance_int v) then
    match v with
    | VStr s =>
        if isdigit s then
          match int_of_str s with
          | Some z => Ok (VInt z)
          | None => Raise (ExOther ValueError)
          end
        else raise_Error (name self) (Text "Not an integer")
    | _ => raise_Error (name self) (Text "Not an integer")
    end
  else Ok v.

(** A child as the container's [clean] sees it: its fields and its own
    [clean] method. *)
Definition child : Type := Fields * (value -> result value).

(** What [found] holds after the loop over the candidates. *)
Inductive found_t : Type := FoundTrue | FoundError (e : Error).

(** [List.clean] and [Dict.clean] work on the argument in place and return
    that same object, so the element [v] a later candidate is given is what
    an earlier candidate made of it. *)
Definition in_place (c : cls) (v : value) : bool :=
  match c, v with
  | List, VList _ | Dict, VDict _ => true
  | _, _ => false
  end.

(** The loop [for i in self.items] of [List.clean] for one element: [v] is
    the element, [slot] is [value[index]]. *)
Fixpoint List_clean_candidates (its : list child) (v slot : value)
    (found : found_t) : result (value * found_t) :=
  match its with
  | [] => Ok (slot, found)
  | (f, clean_i) :: rest =>
      match clean_i v with
      | Ok r =>
          List_clean_candidates rest
            (if in_place (cls_of f) v then r else v) r FoundTrue
      | Raise (ExError e) => Ok (slot, FoundError e)
      | Raise e => Raise e
      end
  end.

(** The loop [for index, v in enumerate(value)] of [List.clean]. *)
Fixpoint List_clean_elements (self : Fields) (its : list child)
    (index : nat) (vs : list value) : result (list value) :=
  match vs with
  | [] => Ok []
  | v :: vs' =>
      '(slot, found) ← List_clean_candidates its v v FoundTrue;
      match found with
      | FoundTrue =>
          rest ← List_clean_elements self its (S index) vs';
          Ok (slot :: rest)
      | FoundError e =>
          raise_Error (name self) (ItemNotValid index e)
      end
  end.

(** [List.clean] *)
Definition List_clean (self : Fields) (its : list child) (v : value)
  : result value :=
  v ← EnumMixin_clean self v;
  if is_None v && negb (required self) then Ok (default self)
  else match v with
       | VList vs =>
           match its with
           | [] => Ok (VList vs)
           | _ => vs' ← List_clean_elements self its 0 vs; Ok (VList vs')
           end
       | _ => raise_Error (name self) (Text "Not a list")
       end.

(** The loop [for key, value in list(data.items())] of [Dict.clean]. *)
Fixpoint Dict_clean_keys (self : Fields) (ats : list (string * child))
    (snapshot : list (string * value)) (data : list (string * value))
  : result (list (string * value)) :=
  match snapshot with
  | [] => Ok data
  | (key, v) :: rest =>
      if negb (additional_attrs self) && negb (dict_in key ats) then
        raise_Error key (Text "Field was not expected")
      else
        match dict_get key ats with
        | None => Dict_clean_keys self ats rest data
        | Some (_, clean_attr) =>
            r ← clean_attr v;
            Dict_clean_keys self ats rest (dict_set key r data)
        end
  end.

(** The loop [for attr in list(self.attrs.values())] of [Dict.clean]. *)
Fixpoint Dict_clean_attrs (ats : list (string * child))
    (data : list (string * value)) : result (list (string * value)) :=
  match ats with
  | [] => Ok data
  | (_, (attr, _)) :: rest =>
      if required attr && negb (dict_in (name attr) data) then
        raise_Error (name attr) (Text "This field is required")
      else if negb (dict_in (name attr) data) && has_default attr then
        Dict_clean_attrs rest (dict_set (name attr) (default attr) data)
      else Dict_clean_attrs rest data
  end.

(** [Dict.clean] *)
Definition Dict_clean (self : Fields) (ats : list (string * child))
    (data : value) : result value :=
  let data := if is_None data && negb (required self) then VDict [] else data in
  match data with
  | VDict d =>
      d ← Dict_clean_keys self ats d d;
      if negb (update self) then
        d ← Dict_clean_attrs ats d; Ok (VDict d)
      else Ok (VDict d)
  | _ => raise_Error (name self) (Text "A dict was expected")
  end.

(** [attr.clean(value)], dispatched on the class of [attr]. *)
Fixpoint clean (a : Attr) : value -> result value :=
  match a with
  | Node f its ats =>
      match cls_of f with
      | Any => Attribute_clean f
      | Str | Dir | File | IPAddr => Str_clean f
      | Bool => Bool_clean f
      | Int => Int_clean f
      | List => List_clean f (map (fun i => (fields i, clean i)) its)
      | Dict =>
          Dict_clean f
            (map (fun kc => match kc with
                            | (k, c) => (k, (fields c, clean c))
                            end) ats)
      end
  end.

(** ** validate *)

(** What [os.path.exists] and its kin take: a path, which is a string here,
    or an open file descriptor, which is an integer (a boolean among them).
    On anything else they raise [TypeError]; [bytes] and [os.PathLike]
    objects are not among the values. *)
Inductive path : Type :=
| PathStr (s : string)
| PathFd (fd : Z).

Definition as_path (v : value) : option path :=
  match v with
  | VStr s => Some (PathStr s)
  | VInt z => Some (PathFd z)
  | VBool b => Some (PathFd (Z.b2z b))
  | _ => None
  end.

(** What [validate] asks of the operating system and of the [ipaddress]
    module: [os.path.exists], [os.path.isdir], [os.path.isfile] on a path or
    a file descriptor, and whether [ipaddress.ip_address(value)] returns (it
    raises [ValueError] otherwise). *)
Record Env : Type :=
  { os_path_exists : path -> bool;
    os_path_isdir : path -> bool;
    os_path_isfile : path -> bool;
    ip_address_ok : value -> bool }.

Definition raise_if_any (verrors : ValidationErrors.t) : result unit :=
  if ValidationErrors.bool verrors then Raise (ExValidationErrors verrors)
  else Ok tt.

(** [Attribute.validate] *)
Definition Attribute_validate (self : Fields) (v : value) : result unit :=
  let verrors :=
    fold_left
      (fun verrors (check : validator) =>
         match check v with
         | Some what =>
             ValidationErrors.add verrors (name self)
               (Text ("Should be " ++ what)) EINVAL
         | None => verrors
         end)
      (validators self) ValidationErrors.empty in
  raise_if_any verrors.

(** [Dir.validate] *)
Definition Dir_validate (env : Env) (self : Fields) (v : value) : result unit :=
  let verrors := ValidationErrors.empty in
  verrors ←
    (if truthy v then
       match as_path v with
       | None => Raise (ExOther TypeError)
       | Some p =>
           if negb (os_path_exists env p) then
             Ok (ValidationErrors.add verrors (name self)
                   (Text "This path does not exist.") ENOENT)
           else if negb (os_path_isdir env p) then
             Ok (ValidationErrors.add verrors (name self)
                   (Text "This path is not a directory.") ENOTDIR)
           else Ok verrors
       end
     else Ok verrors);
  _ ← raise_if_any verrors;
  Attribute_validate self v.

(** [File.validate] *)
Definition File_validate (env : Env) (self : Fields) (v : value) : result unit :=
  let verrors := ValidationErrors.empty in
  verrors ←
    (if truthy v then
       match as_path v with
       | None => Raise (ExOther TypeError)
       | Some p =>
           if negb (os_path_exists env p) then
             Ok (ValidationErrors.add verrors (name self)
                   (Text "This path does not exist.") ENOENT)
           else if negb (os_path_isfile env p) then
             Ok (ValidationErrors.add verrors (name self)
                   (Text "This path is not a file.") EISDIR)
           else Ok verrors
       end
     else Ok verrors);
  _ ← raise_if_any verrors;
  Attribute_validate self v.

(** [IPAddr.validate] *)
Definition IPAddr_validate (env : Env) (self : Fields) (v : value)
  : result unit :=
  if truthy v && negb (ip_address_ok env v) then
    raise_Error (name self) (NotValidIP v)
  else Attribute_validate self v.

(** A child as the container's [validate] sees it. *)
Definition vchild : Type := Fields * (value -> result unit).

(** [str(i)] for an index. *)
Definition str_of_nat (n : nat) : string :=
  NilEmpty.string_of_uint (Nat.to_uint n).

Fixpoint chars (s : string) : list value :=
  match s with
  | EmptyString => []
  | String c s' => VStr (String c EmptyString) :: chars s'
  end.

(** What [enumerate(value)] goes through; [None] stands for the [TypeError]
    of a value that is not iterable. *)
Definition py_iter (v : value) : option (list value) :=
  match v with
  | VList l => Some l
  | VStr s => Some (chars s)
  | VDict d => Some (map (fun kv => VStr (fst kv)) d)
  | _ => None
  end.

(** The loop [for attr in self.items] of [List.validate] for element [i]. *)
Fixpoint List_validate_candidates (self : Fields) (its : list vchild)
    (i : nat) (v : value) (verrors : ValidationErrors.t)
  : result ValidationErrors.t :=
  match its with
  | [] => Ok verrors
  | (_, validate_attr) :: rest =>
      match validate_attr v with
      | Ok _ => List_validate_candidates self rest i v verrors
      | Raise (ExValidationErrors e) =>
          List_validate_candidates self rest i v
            (ValidationErrors.add_child verrors
               (name self ++ "." ++ str_of_nat i) e)
      | Raise e => Raise e
      end
  end.

Fixpoint List_validate_elements (self : Fields) (its : list vchild)
    (i : nat) (vs : list value) (verrors : ValidationErrors.t)
  : result ValidationErrors.t :=
  match vs with
  | [] => Ok verrors
  | v :: vs' =>
      verrors ← List_validate_candidates self its i v verrors;
      List_validate_elements self its (S i) vs' verrors
  end.

(** [List.validate] *)
Definition List_validate (self : Fields) (its : list vchild) (v : value)
  : result unit :=
  match py_iter v with
  | None => Raise (ExOther TypeError)
  | Some vs =>
      verrors ← List_validate_elements self its 0 vs ValidationErrors.empty;
      raise_if_any verrors
  end.

(** [name in value] and [value[name]] of [Dict.validate]: the outer [None]
    is the [TypeError] of a value that supports neither; [Some None] is
    "not in"; [Some (Some r)] is "in", with [r] what the subscript gives. *)
Definition py_member (n : string) (v : value)
  : option (option (result value)) :=
  match v with
  | VDict d =>
      Some (match dict_get n d with
            | Some x => Some (Ok x)
            | None => None
            end)
  | VList l =>
      Some (if py_in (VStr n) l then Some (Raise (ExOther TypeError)) else None)
  | VStr s =>
      Some (match String.index 0 n s with
            | Some _ => Some (Raise (ExOther TypeError))
            | None => None
            end)
  | _ => None
  end.

(** The loop [for attr in self.attrs.values()] of [Dict.validate]. *)
Fixpoint Dict_validate_attrs (self : Fields) (ats : list (string * vchild))
    (v : value) (verrors : ValidationErrors.t) : result ValidationErrors.t :=
  match ats with
  | [] => Ok verrors
  | (_, (attr, validate_attr)) :: rest =>
      match py_member (name attr) v with
      | None => Raise (ExOther TypeError)
      | Some None => Dict_validate_attrs self rest v verrors
      | Some (Some (Raise e)) => Raise e
      | Some (Some (Ok x)) =>
          match validate_attr x with
          | Ok _ => Dict_validate_attrs self rest v verrors
          | Raise (ExValidationErrors e) =>
              Dict_validate_attrs self rest v
                (ValidationErrors.add_child verrors (name self) e)
          | Raise e => Raise e
          end
      end
  end.

(** [Dict.validate] *)
Definition Dict_validate (self : Fields) (ats : list (string * vchild))
    (v : value) : result unit :=
  verrors ← Dict_validate_attrs self ats v ValidationErrors.empty;
  raise_if_any verrors.

(** [attr.validate(value)], dispatched on the class of [attr]. *)
Fixpoint validate (env : Env) (a : Attr) : value -> result unit :=
  match a with
  | Node f its ats =>
      match cls_of f with
      | Any | Str | Bool | Int => Attribute_validate f
      | Dir => Dir_validate env f
      | File => File_validate env f
      | IPAddr => IPAddr_validate env f
      | List => List_validate f (map (fun i => (fields i, validate env i)) its)
      | Dict =>
          Dict_validate f
            (map (fun kc => match kc with
                            | (k, c) => (k, (fields c, validate env c))
                            end) ats)
      end
  end.

(** ** to_json_schema *)

Definition nullable (self : Fields) (ty : string) : value :=
  if negb (required self) then VList [VStr ty; VStr "null"] else VStr ty.

(** The two keys every class adds [if not parent]. *)
Definition top_level_keys (self : Fields) (parent : option Attr)
    (schema : list (string * value)) : list (string * value) :=
  match parent with
  | Some _ => schema
  | None =>
      dict_set "_required_" (VBool (required self))
        (dict_set "title" (VStr (verbose self)) schema)
  end.

Definition enum_key (self : Fields) (schema : list (string * value))
  : list (string * value) :=
  match enum self with
  | Some en => dict_set "enum" (VList en) schema
  | None => schema
  end.

(** [Any.to_json_schema] *)
Definition Any_to_json_schema (self : Fields) (parent : option Attr)
  : list (string * value) :=
  let schema :=
    [("anyOf", VList [VDict [("type", VStr "string")];
                      VDict [("type", VStr "integer")];
                      VDict [("type", VStr "boolean")];
                      VDict [("type", VStr "object")];
                      VDict [("type", VStr "array")]]);
     ("title", VStr (verbose self))] in
  match parent with
  | Some _ => schema
  | None => dict_set "_required_" (VBool (required self)) schema
  end.

(** [Str.to_json_schema] *)
Definition Str_to_json_schema (self : Fields) (parent : option Attr)
  : list (string * value) :=
  let schema := top_level_keys self parent [] in
  let schema := dict_set "type" (nullable self "string") schema in
  enum_key self schema.

(** [Bool.to_json_schema] *)
Definition Bool_to_json_schema (self : Fields) (parent : option Attr)
  : list (string * value) :=
  top_level_keys self parent [("type", nullable self "boolean")].

(** [Int.to_json_schema] *)
Definition Int_to_json_schema (self : Fields) (parent : option Attr)
  : list (string * value) :=
  top_level_keys self parent [("type", nullable self "integer")].

(** [List.to_json_schema] *)
Definition List_to_json_schema (self : Fields) (parent : option Attr)
  : list (string * value) :=
  let schema := [("type", VStr "array")] in
  let schema := top_level_keys self parent schema in
  let schema :=
    if required self then
      dict_set "type" (VList [VStr "array"; VStr "null"]) schema
    else dict_set "type" (VStr "array") schema in
  enum_key self schema.

(** [Dict.to_json_schema]; [props] are the exported children, in the order of
    [self.attrs.items()]. *)
Definition Dict_to_json_schema (self : Fields) (parent : option Attr)
    (props : list (string * list (string * value))) : list (string * value) :=
  let schema :=
    [("type", VStr "object");
     ("properties", VDict []);
     ("additionalProperties", VBool (additional_attrs self))] in
  let schema := top_level_keys self parent schema in
  let properties :=
    fold_left (fun p kv => dict_set (fst kv) (VDict (snd kv)) p) props [] in
  dict_set "properties" (VDict properties) schema.

(** [attr.to_json_schema(parent)], dispatched on the class of [attr]. *)
Fixpoint to_json_schema (a : Attr) (parent : option Attr)
  : list (string * value) :=
  match a with
  | Node f its ats =>
      match cls_of f with
      | Any => Any_to_json_schema f parent
      | Str | Dir | File | IPAddr => Str_to_json_schema f parent
      | Bool => Bool_to_json_schema f parent
      | Int => Int_to_json_schema f parent
      | List => List_to_json_schema f parent
      | Dict =>
          Dict_to_json_schema f parent
            (map (fun kc => match kc with
                            | (k, c) => (k, to_json_schema c (Some a))
                            end) ats)
      end
  end.

(** ** Call binding: accepts *)

(** The wrapped function [f]: what the wrapper reads of [f.__code__], the two
    marker attributes, and the body.  [co_defaults] are the parameters that
    have a default in the [def]; the body receives the bound parameters, in
    the order of [co_varnames]. *)
Record Callable : Type :=
  { co_varnames : list string;
    co_argcount : nat;
    has_pass_app : bool;       (* hasattr(f, '_pass_app') *)
    has_job : bool;            (* hasattr(f, '_job') *)
    co_defaults : list (string * value);
    body : list value -> result value }.

(** The function [nf] that [wrap] returns: [f], the [args_index] computed
    when wrapping, and [nf.accepts]. *)
Record Wrapped : Type :=
  { wrapped_f : Callable;
    args_index : nat;
    nf_accepts : list Attr }.

(** The decorator [accepts] applied to [schema] and then to [f], up to the
    definition of [nf]. *)
Definition accepts (schema : list Attr) (f : Callable) : result Wrapped :=
  let args_index := 1%nat in
  let args_index := if has_pass_app f then S args_index else args_index in
  let args_index := if has_job f then S args_index else args_index in
  if Nat.eqb (length schema + args_index) (co_argcount f) then
    Ok {| wrapped_f := f; args_index := args_index; nf_accepts := schema |}
  else Raise (ExOther AssertionError).

(** [l[i]], with [IndexError]. *)
Definition index {A} (l : list A) (i : nat) : result A :=
  match l !! i with
  | Some x => Ok x
  | None => Raise (ExOther IndexError)
  end.

(** [try: attr.validate(value) except ValidationErrors as e:
    verrors.extend(e)] *)
Definition validate_into (env : Env) (attr : Attr) (v : value)
    (verrors : ValidationErrors.t) : result ValidationErrors.t :=
  match validate env attr v with
  | Ok _ => Ok verrors
  | Raise (ExValidationErrors e) => Ok (ValidationErrors.extend verrors e)
  | Raise e => Raise e
  end.

(** The state of [clean_and_validate_args] between statements. *)
Record binding : Type :=
  { b_i : nat;
    b_args : list value;
    b_kwargs : list (string * value);
    b_verrors : ValidationErrors.t }.

(** The loop [for _ in args[args_index:]]. *)
Fixpoint positional_loop (env : Env) (nf : Wrapped) (slice : list value)
    (b : binding) : result binding :=
  match slice with
  | [] => Ok b
  | _ :: slice' =>
      attr ← index (nf_accepts nf) (b_i b);
      arg ← index (b_args b) (args_index nf + b_i b);
      v ← clean attr arg;
      let args := <[(args_index nf + b_i b)%nat := v]> (b_args b) in
      verrors ← validate_into env attr v (b_verrors b);
      positional_loop env nf slice'
        {| b_i := S (b_i b); b_args := args; b_kwargs := b_kwargs b;
           b_verrors := verrors |}
  end.

(** The loop [for x in list(range(i + 1, f.__code__.co_argcount))]. *)
Fixpoint keyword_loop (env : Env) (nf : Wrapped) (xs : list nat)
    (b : binding) : result binding :=
  match xs with
  | [] => Ok b
  | x :: xs' =>
      kwarg ← index (co_varnames (wrapped_f nf)) x;
      let bound :=
        match dict_get kwarg (b_kwargs b) with
        | Some v =>
            attr ← index (nf_accepts nf) (b_i b);
            Ok (Some (attr, v))
        | None =>
            if Nat.leb (b_i b + args_index nf) (length (nf_accepts nf)) then
              attr ← index (nf_accepts nf) (b_i b);
              Ok (Some (attr, VNone))
            else Ok None
        end in
      bound ← bound;
      match bound with
      | None =>
          keyword_loop env nf xs'
            {| b_i := S (b_i b); b_args := b_args b; b_kwargs := b_kwargs b;
               b_verrors := b_verrors b |}
      | Some (attr, v) =>
          v ← clean attr v;
          let kwargs := dict_set kwarg v (b_kwargs b) in
          verrors ← validate_into env attr v (b_verrors b);
          keyword_loop env nf xs'
            {| b_i := S (b_i b); b_args := b_args b; b_kwargs := kwargs;
               b_verrors := verrors |}
      end
  end.

(** The two loops of [clean_and_validate_args], up to [if verrors:].  The
    arguments are values, so the [copy.deepcopy] of the first lines is the
    identity. *)
Definition binding_pass (env : Env) (nf : Wrapped) (args : list value)
    (kwargs : list (string * value)) : result binding :=
  b ← positional_loop env nf (drop (args_index nf) args)
         {| b_i := 0; b_args := args; b_kwargs := kwargs;
            b_verrors := ValidationErrors.empty |};
  keyword_loop env nf
    (seq (b_i b + 1) (co_argcount (wrapped_f nf) - (b_i b + 1))) b.

(** [clean_and_validate_args(args, kwargs)] *)
Definition clean_and_validate_args (env : Env) (nf : Wrapped)
    (args : list value) (kwargs : list (string * value))
  : result (list value * list (string * value)) :=
  b ← binding_pass env nf args kwargs;
  if ValidationErrors.bool (b_verrors b) then
    Raise (ExValidationErrors (b_verrors b))
  else Ok (b_args b, b_kwargs b).

(** How Python binds a call of [f] on [args] and [kwargs] to the parameters
    of [f]; [None] stands for the [TypeError] of a parameter given twice or
    not at all, or of too many positional arguments. *)
Fixpoint bind_params (params : list string) (args : list value)
    (kwargs defaults : list (string * value)) : option (list value) :=
  match params, args with
  | [], [] => Some []
  | [], _ :: _ => None
  | p :: ps, a :: args' =>
      if dict_in p kwargs then None
      else rest ← bind_params ps args' kwargs defaults; Some (a :: rest)
  | p :: ps, [] =>
      v ← match dict_get p kwargs with
          | Some v => Some v
          | None => dict_get p defaults
          end;
      rest ← bind_params ps [] kwargs defaults; Some (v :: rest)
  end.

(** The call of [f] on [args] and [kwargs].  The second component counts the
    times the body of [f] has run. *)
Definition call (f : Callable) (args : list value)
    (kwargs : list (string * value)) (calls : nat) : result value * nat :=
  let params := take (co_argcount f) (co_varnames f) in
  if forallb (fun kv => existsb (String.eqb (fst kv)) params) kwargs then
    match bind_params params args kwargs (co_defaults f) with
    | Some bound => (body f bound, S calls)
    | None => (Raise (ExOther TypeError), calls)
    end
  else (Raise (ExOther TypeError), calls).

(** The call of [nf] on [args] and [kwargs]. *)
Definition nf_call (env : Env) (nf : Wrapped) (args : list value)
    (kwargs : list (string * value)) (calls : nat) : result value * nat :=
  match clean_and_validate_args env nf args kwargs with
  | Ok (args, kwargs) => call (wrapped_f nf) args kwargs calls
  | Raise e => (Raise e, calls)
  end.

(** ** Schema objects on the heap: Ref and Patch *)

(** [Ref.resolve] and [Patch.resolve] copy attribute objects and assign to
    the fields of the copies, so here attribute objects have an identity: an
    address in a heap of cells.  A cell holds the fields of one object and
    the addresses of its children. *)
Abbreviation addr := nat (only parsing).

Record cell : Type :=
  { c_fields : Fields;
    c_items : list addr;
    c_attrs : list (string * addr) }.

(** Modelled from the spec: the registry behind [middleware.get_schema] and
    [middleware.add_schema] is not among the sources.  The spec gives it as a
    mapping from schema name to the registered attribute, keyed by name, with
    unique entries; [get_schema] returns [None] for an unknown name. *)
Record store : Type :=
  { heap : gmap addr cell;
    next : addr;                 (* the next free address *)
    schemas : gmap string addr }.

Definition get_schema (st : store) (n : string) : option addr :=
  schemas st !! n.

Definition add_schema (st : store) (a : addr) : result store :=
  match heap st !! a with
  | None => Raise (ExOther KeyError)
  | Some c =>
      match schemas st !! name (c_fields c) with
      | Some _ => Raise (ExOther ValueError)
      | None =>
          Ok {| heap := heap st; next := next st;
                schemas := <[name (c_fields c) := a]> (schemas st) |}
      end
  end.

Definition children (c : cell) : list addr :=
  (c_items c ++ map snd (c_attrs c))%list.

(** A new object. *)
Definition alloc (c : cell) (st : store) : addr * store :=
  (next st,
   {| heap := <[next st := c]> (heap st); next := S (next st);
      schemas := schemas st |}).

(** [setattr(obj, field, val)] for the fields of the object at [a]. *)
Definition set_fields (a : addr) (g : Fields -> Fields) (st : store) : store :=
  {| heap := alter (fun c => {| c_fields := g (c_fields c);
                                c_items := c_items c;
                                c_attrs := c_attrs c |}) a (heap st);
     next := next st; schemas := schemas st |}.

Definition set_attrs (a : addr) (d : list (string * addr)) (st : store)
  : store :=
  {| heap := alter (fun c => {| c_fields := c_fields c;
                                c_items := c_items c;
                                c_attrs := d |}) a (heap st);
     next := next st; schemas := schemas st |}.

(** *** copy.deepcopy *)

(** The state of one [copy.deepcopy]: the heap, the next free address, and
    the memo table from originals to their copies. *)
Record copying : Type :=
  { cp_heap : gmap addr cell;
    cp_next : addr;
    cp_memo : gmap addr addr }.

Fixpoint copy_all (cp : addr -> copying -> option (addr * copying))
    (l : list addr) (s : copying) : option (list addr * copying) :=
  match l with
  | [] => Some ([], s)
  | a :: l' =>
      '(a', s) ← cp a s;
      '(l'', s) ← copy_all cp l' s;
      Some (a' :: l'', s)
  end.

Fixpoint copy_all_attrs (cp : addr -> copying -> option (addr * copying))
    (l : list (string * addr)) (s : copying)
  : option (list (string * addr) * copying) :=
  match l with
  | [] => Some ([], s)
  | (k, a) :: l' =>
      '(a', s) ← cp a s;
      '(l'', s) ← copy_all_attrs cp l' s;
      Some ((k, a') :: l'', s)
  end.

(** [copy.deepcopy(x, memo)] for the object at [a]: an object already in the
    memo table is not copied again; otherwise a new object is made and
    entered in the memo table, the children are copied, and the new object
    gets the fields and the copied children.  The fields are values here,
    so the copy has its own.  [fuel] bounds the depth of the recursion;
    [None] is "out of fuel" or an address with no object. *)
Fixpoint deepcopy (fuel : nat) (a : addr) (s : copying)
  : option (addr * copying) :=
  match fuel with
  | O => None
  | S fuel' =>
      match cp_memo s !! a with
      | Some a' => Some (a', s)
      | None =>
          c ← cp_heap s !! a;
          let a' := cp_next s in
          let s := {| cp_heap := cp_heap s; cp_next := S a';
                      cp_memo := <[a := a']> (cp_memo s) |} in
          '(its, s) ← copy_all (deepcopy fuel') (c_items c) s;
          '(ats, s) ← copy_all_attrs (deepcopy fuel') (c_attrs c) s;
          Some (a', {| cp_heap := <[a' := {| c_fields := c_fields c;
                                             c_items := its;
                                             c_attrs := ats |}]> (cp_heap s);
                       cp_next := cp_next s; cp_memo := cp_memo s |})
      end
  end.

(** [copy.deepcopy(schema)] in a store. *)
Definition deepcopy_in (fuel : nat) (a : addr) (st : store)
  : option (addr * store) :=
  '(a', s) ← deepcopy fuel a
               {| cp_heap := heap st; cp_next := next st; cp_memo := ∅ |};
  Some (a', {| heap := cp_heap s; next := cp_next s; schemas := schemas st |}).

(** *** Ref *)

Definition set_register (b : bool) (f : Fields) : Fields :=
  {| cls_of := cls_of f; name := name f; verbose := verbose f;
     required := required f; has_default := has_default f;
     default := default f; validators := validators f;
     register := b; enum := enum f;
     additional_attrs := additional_attrs f; update := update f |}.

Definition set_name (n : string) (f : Fields) : Fields :=
  {| cls_of := cls_of f; name := n; verbose := verbose f;
     required := required f; has_default := has_default f;
     default := default f; validators := validators f;
     register := register f; enum := enum f;
     additional_attrs := additional_attrs f; update := update f |}.

(** [Ref(name).resolve(middleware)].  The outer [None] is the copy running
    out of fuel. *)
Definition Ref_resolve (fuel : nat) (self_name : string) (st : store)
  : option (result (addr * store)) :=
  match get_schema st self_name with
  | None =>
      Some (Raise (ExOther (ResolverError
                              ("Schema " ++ self_name ++ " does not exist"))))
  | Some schema =>
      '(schema, st) ← deepcopy_in fuel schema st;
      let st := set_fields schema (set_register false) st in
      Some (Ok (schema, st))
  end.

(** *** Patch *)

(** The payload of an ['add'] operation: [type], [name] and the keyword
    arguments handed to the constructor. *)
Record add_spec : Type :=
  { sp_type : string;
    sp_name : string;
    sp_verbose : option string;
    sp_required : bool;
    sp_validators : list validator;
    sp_register : bool;
    sp_default : option value;
    sp_enum : option (list value);
    sp_additional_attrs : bool;
    sp_update : bool }.

(** One assignment [setattr(schema, key, val)] of an ['attr'] operation: to
    one of the fields the classes read, with a value of the type of that
    field, or to any other key, which sets an instance attribute that no
    method of the schema layer reads.  The keys [attrs] and [items], whose
    value would become the schema's own container, are not covered. *)
Inductive field_set : Type :=
| SetName (s : string)
| SetVerbose (s : string)
| SetRequired (b : bool)
| SetDefault (v : value)
| SetHasDefault (b : bool)
| SetValidators (l : list validator)
| SetRegister (b : bool)
| SetEnum (e : option (list value))
| SetAdditionalAttrs (b : bool)
| SetUpdate (b : bool)
| SetOther (key : string) (val : value).

Definition setattr (x : field_set) (f : Fields) : Fields :=
  {| cls_of := cls_of f;
     name := match x with SetName s => s | _ => name f end;
     verbose := match x with SetVerbose s => s | _ => verbose f end;
     required := match x with SetRequired b => b | _ => required f end;
     has_default := match x with SetHasDefault b => b | _ => has_default f end;
     default := match x with SetDefault v => v | _ => default f end;
     validators := match x with SetValidators l => l | _ => validators f end;
     register := match x with SetRegister b => b | _ => register f end;
     enum := match x with SetEnum e => e | _ => enum f end;
     additional_attrs :=
       match x with SetAdditionalAttrs b => b | _ => additional_attrs f end;
     update := match x with SetUpdate b => b | _ => update f end |}.

(** One [(operation, patch)] pair.  The [name] of ['rm'] and ['edit'] is
    [patch['name']]; the [method] of ['edit'] is [patch['method']] when
    present, a function that assigns to the fields of the attribute it is
    given; any other operation string is passed over. *)
Inductive operation : Type :=
| OpAdd (spec : add_spec)
| OpRm (n : string)
| OpEdit (n : string) (method : option (Fields -> Fields))
| OpAttr (sets : list field_set)
| OpOther (op : string).

Record Patch : Type :=
  { p_name : string;
    p_newname : string;
    p_patches : list operation;
    p_register : bool }.

Definition str_in (s : string) (l : list string) : bool :=
  existsb (String.eqb s) l.

(** [Patch.convert]: the constructor that [type] selects.  A type outside the
    four groups ends in [spec['type']] after [type] was popped, a
    [KeyError]. *)
Definition convert (spec : add_spec) : result cell :=
  let base c :=
    Attribute_init c (sp_name spec) (sp_verbose spec) (sp_required spec)
      (sp_validators spec) (sp_register spec) (sp_default spec) in
  let leaf f := Ok {| c_fields := f; c_items := []; c_attrs := [] |} in
  if str_in (sp_type spec) ["int"; "integer"] then leaf (base Int)
  else if str_in (sp_type spec) ["str"; "string"] then
    leaf (with_enum (sp_enum spec) (base Str))
  else if str_in (sp_type spec) ["bool"; "boolean"] then leaf (base Bool)
  else if String.eqb (sp_type spec) "dict" then
    leaf (with_dict_flags (sp_additional_attrs spec) (sp_update spec)
            (base Dict))
  else Raise (ExOther KeyError).

(** One turn of the loop [for operation, patch in self.patches] on the copy
    at [schema]. *)
Definition apply_operation (schema : addr) (op : operation) (st : store)
  : result store :=
  match heap st !! schema with
  | None => Raise (ExOther KeyError)
  | Some c =>
      match op with
      | OpAdd spec =>
          new ← convert spec;
          let '(a, st) := alloc new st in
          Ok (set_attrs schema
                (dict_set (name (c_fields new)) a (c_attrs c)) st)
      | OpRm n =>
          match dict_del n (c_attrs c) with
          | Some d => Ok (set_attrs schema d st)
          | None => Raise (ExOther KeyError)
          end
      | OpEdit n method =>
          match dict_get n (c_attrs c) with
          | None => Raise (ExOther KeyError)
          | Some attr =>
              match method with
              | Some m => Ok (set_fields attr m st)
              | None => Ok st
              end
          end
      | OpAttr sets =>
          Ok (fold_left (fun st x => set_fields schema (setattr x) st) sets st)
      | OpOther _ => Ok st
      end
  end.

Fixpoint apply_operations (schema : addr) (ops : list operation) (st : store)
  : result store :=
  match ops with
  | [] => Ok st
  | op :: ops' =>
      st ← apply_operation schema op st;
      apply_operations schema ops' st
  end.

Definition isinstance_Dict (st : store) (schema : option addr) : bool :=
  match schema with
  | Some a =>
      match heap st !! a with
      | Some c => match cls_of (c_fields c) with Dict => true | _ => false end
      | None => false
      end
  | None => false
  end.

(** [Patch.resolve(middleware)].  The outer [None] is the copy running out
    of fuel. *)
Definition Patch_resolve (fuel : nat) (self : Patch) (st : store)
  : option (result (addr * store)) :=
  let schema := get_schema st (p_name self) in
  if negb (isinstance_Dict st schema) then
    Some (Raise (ExOther ValueError))
  else
    schema ← schema;
    '(schema, st) ← deepcopy_in fuel schema st;
    let st := set_fields schema (set_name (p_newname self)) st in
    Some (st ← apply_operations schema (p_patches self) st;
          st ← (if p_register self then add_schema st schema else Ok st);
          Ok (schema, st)).

(** *** The attribute an address stands for *)

(** [repr h a t]: the objects reachable from [a] in [h] spell out the
    attribute [t]. *)
Inductive repr (h : gmap nat cell) : nat -> Attr -> Prop :=
| repr_node a c f its ats :
    h !! a = Some c ->
    c_fields c = f ->
    Forall2 (repr h) (c_items c) its ->
    Forall2 (fun ka kt => fst ka = fst kt /\ repr h (snd ka) (snd kt))
            (c_attrs c) ats ->
    repr h a (Node f its ats).

(** The depth of an attribute tree. *)
Fixpoint depth (t : Attr) : nat :=
  match t with
  | Node _ its ats =>
      S (Nat.max (fold_right Nat.max 0%nat (map depth its))
                 (fold_right Nat.max 0%nat
                    (map (fun kc => match kc with (_, c) => depth c end) ats)))
  end.

(** [reach h a x]: the object at [x] is [a] or a descendant of it. *)
Inductive reach (h : gmap addr cell) : addr -> addr -> Prop :=
| reach_here a : reach h a a
| reach_child a c b x :
    h !! a = Some c -> b ∈ children c -> reach h b x -> reach h a x.

(** ** What the specification says, for comparison *)

(** A string "consisting solely of digit characters": at least one character,
    each of them one of the ten digits. *)
Definition digit_char (c : ascii) : Prop :=
  In c (list_ascii_of_string "0123456789").

Definition digit_string (s : string) : Prop :=
  s <> "" /\ Forall digit_char (list_ascii_of_string s).

(** The superscripts two, three and one: digits to [str.isdigit] that [int]
    does not read. *)
Definition superscript_char (c : ascii) : Prop :=
  In c [ascii_of_nat 178; ascii_of_nat 179; ascii_of_nat 185].

(** A string of digits and superscripts with at least one superscript. *)
Definition superscript_string (s : string) : Prop :=
  Forall (fun c => digit_char c \/ superscript_char c)
         (list_ascii_of_string s) /\
  Exists superscript_char (list_ascii_of_string s).

(** The number a decimal numeral denotes: the sum of its digits times the
    powers of ten. *)
Fixpoint decimal_value (s : string) : Z :=
  match s with
  | EmptyString => 0
  | String c s' =>
      (Z.of_nat (nat_of_ascii c) - 48) * 10 ^ Z.of_nat (String.length s')
      + decimal_value s'
  end.

(** The ways in which the specification has [Int.clean] accept [v] and
    return [r]: a value of integer type, a boolean among them, as it is; a
    string of digits as the number it spells; [None], when the attribute is
    not required, as the default. *)
Inductive Int_accepts (self : Fields) : value -> value -> Prop :=
| accepts_int z : Int_accepts self (VInt z) (VInt z)
| accepts_bool b : Int_accepts self (VBool b) (VBool b)
| accepts_digits s :
    digit_string s -> Int_accepts self (VStr s) (VInt (decimal_value s))
| accepts_None :
    required self = false -> Int_accepts self VNone (default self).











(** An operating system with no files, and an [ipaddress] that parses
    nothing. *)
Definition empty_env : Env :=
  {| os_path_exists := fun _ => false;
     os_path_isdir := fun _ => false;
     os_path_isfile := fun _ => false;
     ip_address_ok := fun _ => false |}.

(** The declared attribute a "required" failure names: the first one, in the
    order of declaration, that is required and absent from the input. *)
Definition first_missing_required (ats : list (string * Attr))
    (d : list (string * value)) : option string :=
  match find (fun kc : string * Attr =>
                required (fields (snd kc))
                && negb (dict_in (name (fields (snd kc))) d)) ats with
  | Some kc => Some (name (fields (snd kc)))
  | None => None
  end.

(** Every supplied key is one [Dict.clean] lets through: it is declared, or
    undeclared keys are allowed, and a declared key carries a value that its
    attribute's [clean] accepts. *)
Definition supplied_ok (f : Fields) (ats : list (string * Attr))
    (d : list (string * value)) : Prop :=
  forall k v, In (k, v) d ->
    (additional_attrs f = false -> dict_in k ats = true) /\
    (forall c, dict_get k ats = Some c -> exists r, clean c v = Ok r).

Definition attr_names (ats : list (string * Attr)) : list string :=
  map (fun kc : string * Attr => name (fields (snd kc))) ats.

(** A candidate is settled when it accepts, and returns unchanged, every
    value that it has itself returned. *)
Definition settled (c : Attr) : Prop :=
  forall x y, clean c x = Ok y -> clean c y = Ok y.

(** *** Invariants of copying *)

(** A key of [attrs] with the address of its attribute, against the same key
    with the attribute itself. *)
Definition keyed (h : gmap nat cell) (ka : string * nat) (kt : string * Attr)
  : Prop :=
  fst ka = fst kt /\ repr h (snd ka) (snd kt).

(** Every object of the store lies below the next free address. *)
Definition wf_store (st : store) : Prop :=
  map_Forall (fun y (_ : cell) => (y < next st)%nat) (heap st).

(** The same for a copy under way, memo table included. *)
Definition wf (s : copying) : Prop :=
  (forall y c, cp_heap s !! y = Some c -> (y < cp_next s)%nat) /\
  (forall x y, cp_memo s !! x = Some y -> (y < cp_next s)%nat).

(** [ext s s']: [s'] comes from [s] by making new objects only: the objects
    and memo entries of [s] are still there, new memo entries point to new
    addresses, and the children of a new object are copies recorded in the
    memo table. *)
Definition ext (s s' : copying) : Prop :=
  (cp_next s <= cp_next s')%nat /\
  (forall y c, cp_heap s !! y = Some c -> cp_heap s' !! y = Some c) /\
  (forall x y, cp_memo s !! x = Some y -> cp_memo s' !! x = Some y) /\
  (forall x y, cp_memo s' !! x = Some y ->
               cp_memo s !! x = Some y \/ (cp_next s <= y)%nat) /\
  (forall y c, cp_heap s' !! y = Some c ->
               cp_heap s !! y = Some c \/
               ((cp_next s <= y)%nat /\
                forall z, In z (children c) ->
                          exists x, cp_memo s' !! x = Some z)).

(** The memo entries for originals of depth at most [D] point to finished
    copies. *)
Definition memo_ok (h0 : gmap nat cell) (D : nat) (s : copying) : Prop :=
  forall x y tx, cp_memo s !! x = Some y -> repr h0 x tx ->
                 (depth tx <= D)%nat -> repr (cp_heap s) y tx.

(** The memo entries added between [s] and [s'] point to finished copies. *)
Definition memo_new (h0 : gmap nat cell) (s s' : copying) : Prop :=
  forall x y tx, cp_memo s' !! x = Some y -> repr h0 x tx ->
                 cp_memo s !! x = Some y \/ repr (cp_heap s') y tx.

(** What a copier [cp] does on the object at [a], which spells out [t] in the
    heap [h0] the copy started from. *)
Definition copies (h0 : gmap nat cell)
    (cp : nat -> copying -> option (nat * copying)) (a : nat) (t : Attr)
  : Prop :=
  forall s, wf s ->
    (forall y c, h0 !! y = Some c -> cp_heap s !! y = Some c) ->
    memo_ok h0 (depth t) s ->
    exists r s', cp a s = Some (r, s') /\ wf s' /\ ext s s' /\
      cp_memo s' !! a = Some r /\ repr (cp_heap s') r t /\ memo_new h0 s s'.

(** The objects at the addresses from [lo] up to [hi] have their children in
    that same range. *)
Definition owned (h : gmap nat cell) (lo hi : nat) : Prop :=
  forall y c, h !! y = Some c -> (lo <= y < hi)%nat ->
    forall z, In z (children c) -> (lo <= z < hi)%nat.

(** [st'] is [st] with a fresh copy at [r] that spells out [t]: the objects
    of [st] are untouched, the registry is the same, and the copy sits, with
    all its descendants, at addresses that were free in [st]. *)
Definition fresh_copy (st st' : store) (r : nat) (t : Attr) : Prop :=
  wf_store st /\
  wf_store st' /\
  schemas st' = schemas st /\
  (forall y c, heap st !! y = Some c -> heap st' !! y = Some c) /\
  (forall y c, heap st' !! y = Some c -> (y < next st)%nat ->
               heap st !! y = Some c) /\
  (next st <= r < next st')%nat /\
  owned (heap st') (next st) (next st') /\
  repr (heap st') r t.

(** [f'] has the fields of [f], with [register] false. *)
Definition unregistered (f f' : Fields) : Prop :=
  f' = {| cls_of := cls_of f; name := name f; verbose := verbose f;
          required := required f; has_default := has_default f;
          default := default f; validators := validators f;
          register := false; enum := enum f;
          additional_attrs := additional_attrs f; update := update f |}.

(** [f'] has the fields of [f], under the name [n]. *)
Definition renamed (n : string) (f f' : Fields) : Prop :=
  f' = {| cls_of := cls_of f; name := n; verbose := verbose f;
          required := required f; has_default := has_default f;
          default := default f; validators := validators f;
          register := register f; enum := enum f;
          additional_attrs := additional_attrs f; update := update f |}.

(** The attributes of a [Dict] without the one under the key [k]. *)
Definition without_key (k : string) (ats : list (string * Attr))
  : list (string * Attr) :=
  List.filter (fun kt : string * Attr => negb (String.eqb k (fst kt))) ats.

(** A store with one registered schema: the [Dict] ["S"] with the fields
    [a] (a required [Int]) and [b] (a [Str] with default ["z"]). *)
Definition example_store : store :=
  {| heap :=
       <[2%nat := {| c_fields :=
                       with_dict_flags false false
                         (Attribute_init Dict "S" None false [] true None);
                     c_items := [];
                     c_attrs := [("a", 0%nat); ("b", 1%nat)] |}]>
       (<[1%nat := {| c_fields :=
                        with_enum None
                          (Attribute_init Str "b" None false [] false
                             (Some (VStr "z")));
                      c_items := []; c_attrs := [] |}]>
        (<[0%nat := {| c_fields :=
                         Attribute_init Int "a" None true [] false None;
                       c_items := []; c_attrs := [] |}]> ∅));
     next := 3;
     schemas := {[ "S" := 2%nat ]} |}.

Definition example_schema : Attr :=
  Node (with_dict_flags false false
          (Attribute_init Dict "S" None false [] true None))
       []
       [("a", mk_Int "a" true None []);
        ("b", mk_Str "b" false (Some (VStr "z")) [] None)].

(** ** Further vocabulary for stating properties *)

(** The enum, when there is one, holds every element of a list value, or the
    value itself when it is not a list. *)
Definition enum_allows (en : option (list value)) (v : value) : Prop :=
  forall l, en = Some l ->
    forall x, In x (match v with VList xs => xs | _ => [v] end) ->
      exists y, In y l /\ py_eq x y = true.

(** A value that is not a container. *)
Definition scalar (v : value) : Prop :=
  match v with
  | VList _ | VDict _ => False
  | _ => True
  end.

(** The classes that share [Str.clean]. *)
Definition Str_like (c : cls) : Prop :=
  c = Str \/ c = Dir \/ c = File \/ c = IPAddr.

(** [attr] takes [arg] as [v]: [attr.clean(arg)] returns [v], and
    [attr.validate(v)] finds no violation. *)
Definition takes (env : Env) (attr : Attr) (arg v : value) : Prop :=
  clean attr arg = Ok v /\ validate env attr v = Ok tt.

(** What the wrapper cleans for a parameter not given by position:
    [kwargs[name]], or [None] when [name] is not a key. *)
Definition supplied (kwargs : list (string * value)) (name : string) : value :=
  match dict_get name kwargs with
  | Some v => v
  | None => VNone
  end.

(** [kwargs] after the assignments [kwargs[name] = w], in order. *)
Definition assign_all (kwargs nws : list (string * value))
  : list (string * value) :=
  fold_left (fun kw nw => dict_set (fst nw) (snd nw) kw) nws kwargs.

(** The state of the loop of [Patch.resolve] on the copy at [r], against the
    store [st] the resolution started from: the objects of [st] are as they
    were, the registry is the same, and the copy and the attributes it holds
    sit at addresses that were free in [st]. *)
Definition patching (st cur : store) (r : nat) : Prop :=
  wf_store st /\
  (next st <= r < next cur)%nat /\
  schemas cur = schemas st /\
  (forall y c, heap st !! y = Some c -> heap cur !! y = Some c) /\
  exists c, heap cur !! r = Some c /\
    forall z, In z (map snd (c_attrs c)) -> (next st <= z)%nat.

(** The default of an attribute without children is a value of the
    attribute's own type, held by its enum when it has one. *)
Definition default_fits (f : Fields) : Prop :=
  match cls_of f with
  | Any => True
  | Bool => isinstance_bool (default f) = true
  | Int => isinstance_int (default f) = true
  | Str | Dir | File | IPAddr =>
      isinstance_str (default f) = true /\ enum_allows (enum f) (default f)
  | List | Dict => False
  end.

(** A field of a [Dict] as [Dict.__init__] files it, under the name of its
    attribute, whose attribute is settled and cleans its default, when it
    has one, to itself. *)
Definition field_settled (kc : string * Attr) : Prop :=
  name (fields (snd kc)) = fst kc /\
  settled (snd kc) /\
  (has_default (fields (snd kc)) = true ->
   clean (snd kc) (default (fields (snd kc))) =
   Ok (default (fields (snd kc)))).

(** Whether an [Int] occurs in an attribute tree. *)
Fixpoint has_Int (a : Attr) : bool :=
  match a with
  | Node f its ats =>
      match cls_of f with Int => true | _ => false end
      || existsb has_Int its
      || existsb (fun kc => match kc with (_, c) => has_Int c end) ats
  end.

(** The exceptions that leave [clean]: the single-field [Error], and the
    [ValueError] of [int], which only an [Int] in the tree can raise. *)
Definition clean_raises (a : Attr) (e : exn) : Prop :=
  (exists err, e = ExError err) \/
  (e = ExOther ValueError /\ has_Int a = true).

(** The type names of an ['add'] payload and the class each one stands
    for. *)
Definition type_group : list (string * cls) :=
  [("int", Int); ("integer", Int); ("str", Str); ("string", Str);
   ("bool", Bool); ("boolean", Bool); ("dict", Dict)].

(** The fields of the attribute of class [c] that an ['add'] payload
    describes: the name and the keyword arguments of the payload, [verbose]
    falling back on the name, [enum] only for a [Str], the two flags only
    for a [Dict]. *)
Definition built (spec : add_spec) (c : cls) : Fields :=
  {| cls_of := c;
     name := sp_name spec;
     verbose := match sp_verbose spec with
                | Some s => if String.eqb s "" then sp_name spec else s
                | None => sp_name spec
                end;
     required := sp_required spec;
     has_default := match sp_default spec with
                    | Some _ => true
                    | None => false
                    end;
     default := match sp_default spec with Some d => d | None => VNone end;
     validators := sp_validators spec;
     register := sp_register spec;
     enum := match c with Str => sp_enum spec | _ => None end;
     additional_attrs :=
       match c with Dict => sp_additional_attrs spec | _ => false end;
     update := match c with Dict => sp_update spec | _ => false end |}.



(** * Properties *)

(** ** Association lists *)

Lemma dict_get_set {A} k k' (v : A) d :
  dict_get k (dict_set k' v d) =
  if String.eqb k k' then Some v else dict_get k d.
Proof.
  induction d as [|[k0 v0] d IH]; simpl.
  - destruct (String.eqb k k'); reflexivity.
  - destruct (String.eqb k' k0) eqn:E0; simpl.
    + apply String.eqb_eq in E0; subst k0.
      destruct (String.eqb k k'); reflexivity.
    + destruct (String.eqb k k0) eqn:E1.
      * apply String.eqb_eq in E1; subst k0.
        rewrite String.eqb_sym, E0. reflexivity.
      * exact IH.
Qed.

Lemma dict_in_set {A} k k' (v : A) d :
  dict_in k (dict_set k' v d) = (String.eqb k k' || dict_in k d)%bool.
Proof.
  unfold dict_in. rewrite dict_get_set.
  destruct (String.eqb k k'); reflexivity.
Qed.

(** ** Int.clean *)

Lemma is_decimal_in c :
  is_decimal c =
  if List.in_dec ascii_dec c (list_ascii_of_string "0123456789")
  then true else false.
Proof. destruct c as [[] [] [] [] [] [] [] []]; vm_compute; reflexivity. Qed.

Lemma is_digit_in c :
  is_digit c =
  if List.in_dec ascii_dec c
       (list_ascii_of_string "0123456789" ++
        [ascii_of_nat 178; ascii_of_nat 179; ascii_of_nat 185])
  then true else false.
Proof. destruct c as [[] [] [] [] [] [] [] []]; vm_compute; reflexivity. Qed.

Lemma is_decimal_spec c : is_decimal c = true <-> digit_char c.
Proof.
  rewrite is_decimal_in. unfold digit_char.
  destruct (List.in_dec ascii_dec c _); split; auto; discriminate.
Qed.

Lemma is_digit_spec c :
  is_digit c = true <-> digit_char c \/ superscript_char c.
Proof.
  rewrite is_digit_in. unfold digit_char, superscript_char.
  destruct (List.in_dec ascii_dec c _) as [Hin|Hnot]; split; auto.
  - intros _. apply in_app_or in Hin. exact Hin.
  - discriminate.
  - intros H. exfalso. apply Hnot. apply in_or_app. exact H.
Qed.

(** No superscript is a decimal digit. *)
Lemma superscript_not_decimal c : superscript_char c -> ~ digit_char c.
Proof.
  unfold superscript_char, digit_char. simpl.
  intros [<-|[<-|[<-|[]]]] H;
    repeat (destruct H as [H|H]; [discriminate H|]); exact H.
Qed.

Lemma all_decimal_spec s :
  all_decimal s = true <-> Forall digit_char (list_ascii_of_string s).
Proof.
  induction s as [|c s IH]; simpl.
  - split; [constructor | reflexivity].
  - rewrite andb_true_iff, is_decimal_spec, IH. split.
    + intros [? ?]; constructor; assumption.
    + intros H; inversion H; subst; split; assumption.
Qed.

Lemma all_digits_spec s :
  all_digits s = true <->
  Forall (fun c => digit_char c \/ superscript_char c)
         (list_ascii_of_string s).
Proof.
  induction s as [|c s IH]; simpl.
  - split; [constructor | reflexivity].
  - rewrite andb_true_iff, is_digit_spec, IH. split.
    + intros [? ?]; constructor; assumption.
    + intros H; inversion H; subst; split; assumption.
Qed.

Lemma isdigit_spec s :
  isdigit s = true <->
  s <> "" /\
  Forall (fun c => digit_char c \/ superscript_char c)
         (list_ascii_of_string s).
Proof.
  destruct s as [|c s].
  - simpl. split; [discriminate | intros [H _]; congruence].
  - change (isdigit (String c s)) with (all_digits (String c s)).
    rewrite all_digits_spec.
    split; [intros H; split; [discriminate|exact H] | tauto].
Qed.

Lemma int_of_digits_spec s acc :
  int_of_digits acc s = acc * 10 ^ Z.of_nat (String.length s) + decimal_value s.
Proof.
  revert acc. induction s as [|c s IH]; intros acc; simpl.
  - lia.
  - rewrite IH.
    replace (Z.of_nat (S (String.length s))) with (Z.succ (Z.of_nat (String.length s))) by lia.
    rewrite Z.pow_succ_r by lia. ring.
Qed.

(** The three kinds of strings for [Int.clean]: the decimal numerals, which
    [int] reads; the strings that [isdigit] holds of and [int] does not
    read; and the others. *)
Lemma isdigit_cases s :
  (digit_string s /\ isdigit s = true /\
   int_of_str s = Some (decimal_value s)) \/
  (superscript_string s /\ isdigit s = true /\ int_of_str s = None) \/
  (~ digit_string s /\ ~ superscript_string s /\ isdigit s = false).
Proof.
  unfold int_of_str, digit_string, superscript_string.
  destruct (isdigit s) eqn:Hd.
  - pose proof (proj1 (isdigit_spec s) Hd) as [Hne Hall].
    destruct (all_decimal s) eqn:Hdec.
    + left. apply all_decimal_spec in Hdec.
      split; [split; assumption|]. split; [reflexivity|].
      rewrite int_of_digits_spec. f_equal; lia.
    + right. left. split; [|split; reflexivity]. split; [exact Hall|].
      assert (Hnot : ~ Forall digit_char (list_ascii_of_string s)).
      { intros H. apply all_decimal_spec in H. congruence. }
      clear -Hall Hnot. induction Hall as [|c l [Hc|Hc] Hl IH].
      * exfalso. apply Hnot. constructor.
      * apply Exists_cons_tl. apply IH. intros H. apply Hnot.
        constructor; assumption.
      * apply Exists_cons_hd. exact Hc.
  - right. right. split; [|split; [|reflexivity]].
    + intros [Hne Hall].
      assert (isdigit s = true); [|congruence].
      apply isdigit_spec. split; [exact Hne|].
      apply (Forall_impl _ _ _ Hall). intros c Hc. left. exact Hc.
    + intros [Hall Hex].
      assert (isdigit s = true); [|congruence].
      apply isdigit_spec. split; [|exact Hall].
      intros ->. inversion Hex.
Qed.

(** A string is not both a decimal numeral and a string with a superscript. *)
Lemma digit_not_superscript s : digit_string s -> ~ superscript_string s.
Proof.
  intros [_ Hall] [_ Hex]. induction Hex as [c l Hc|c l _ IH].
  - inversion Hall; subst. exact (superscript_not_decimal c Hc ltac:(assumption)).
  - inversion Hall; subst. apply IH. assumption.
Qed.

Lemma decimal_value_nonneg s :
  Forall digit_char (list_ascii_of_string s) -> 0 <= decimal_value s.
Proof.
  induction s as [|c s IH]; simpl; intros H; [lia|].
  inversion H as [|? ? Hc Hs]; subst.
  specialize (IH Hs).
  assert (0 <= Z.of_nat (nat_of_ascii c) - 48).
  { apply is_decimal_spec in Hc. unfold is_decimal in Hc.
    apply andb_prop in Hc as [H1 _]. apply Nat.leb_le in H1. lia. }
  assert (0 <= 10 ^ Z.of_nat (String.length s)) by (apply Z.pow_nonneg; lia).
  nia.
Qed.

(** What [Int.clean] does on a string. *)
Lemma Int_clean_str (f : Fields) (s : string) :
  Int_clean f (VStr s) =
  if isdigit s then
    match int_of_str s with
    | Some z => Ok (VInt z)
    | None => Raise (ExOther ValueError)
    end
  else Raise (ExError (mkError (name f) (Text "Not an integer") EINVAL)).
Proof. unfold Int_clean. simpl. reflexivity. Qed.

(** C10, as the code has it.  [Int.clean] returns exactly on the values of
    integer type (booleans among them, returned unchanged), on the strings
    made only of the digits [0] to [9] (turned into the non-negative integer
    they spell) and, when the attribute is not required, on [None] (replaced
    by the default).  On a string of digits that holds a superscript two,
    three or one, which [str.isdigit] takes for a digit and [int] does not
    read, it raises [ValueError]; on every other value, ["-5"] and ["true"]
    among them, it raises the single [Error] "Not an integer" under the
    attribute's name. *)
Theorem Int_clean_accepts_exactly (f : Fields) (its : list Attr)
    (ats : list (string * Attr)) (v : value) :
  cls_of f = Int ->
  (forall r, clean (Node f its ats) v = Ok r <-> Int_accepts f v r) /\
  (forall s, v = VStr s -> superscript_string s ->
     clean (Node f its ats) v = Raise (ExOther ValueError)) /\
  ((forall r, ~ Int_accepts f v r) ->
   (forall s, v = VStr s -> ~ superscript_string s) ->
   clean (Node f its ats) v =
   Raise (ExError (mkError (name f) (Text "Not an integer") EINVAL))) /\
  (forall s, digit_string s -> 0 <= decimal_value s) /\
  clean (Node f its ats) (VBool true) = Ok (VBool true) /\
  clean (Node f its ats) (VStr "-5") =
    Raise (ExError (mkError (name f) (Text "Not an integer") EINVAL)) /\
  clean (Node f its ats) (VStr "true") =
    Raise (ExError (mkError (name f) (Text "Not an integer") EINVAL)) /\
  clean (Node f its ats) (VStr (String (ascii_of_nat 178) "")) =
    Raise (ExOther ValueError).
Proof.
  intros Hcls. simpl. rewrite Hcls.
  assert (Hchar : forall r, Int_clean f v = Ok r <-> Int_accepts f v r).
  { intros r. split.
    - destruct v as [|b|z|q|s|l|d|o];
        try (unfold Int_clean; simpl; destruct (required f) eqn:Hreq; simpl;
             intros H; try discriminate; injection H as <-;
             constructor; assumption).
      rewrite Int_clean_str.
      destruct (isdigit_cases s) as [(Hs & -> & ->)|[(_ & -> & ->)|(_ & _ & ->)]];
        try discriminate.
      intros H. injection H as <-. constructor. exact Hs.
    - intros H. destruct H as [z | b | s Hs | Hreq].
      + reflexivity.
      + reflexivity.
      + rewrite Int_clean_str.
        destruct (isdigit_cases s)
          as [(_ & -> & ->)|[(Hsup & _)|(Hno & _)]];
          [reflexivity | | contradiction].
        exfalso. exact (digit_not_superscript s Hs Hsup).
      + unfold Int_clean. simpl. rewrite Hreq. reflexivity. }
  split; [exact Hchar|]. split; [|split; [|split; [|repeat split]]].
  - intros s -> Hsup. rewrite Int_clean_str.
    destruct (isdigit_cases s)
      as [(Hs & _)|[(_ & -> & ->)|(_ & Hno & _)]];
      [|reflexivity | contradiction].
    exfalso. exact (digit_not_superscript s Hs Hsup).
  - intros Hno Hnosup.
    destruct v as [|b|z|q|s|l|d|o];
      try (unfold Int_clean; simpl; reflexivity).
    + unfold Int_clean. simpl. destruct (required f) eqn:Hreq; [reflexivity|].
      exfalso. apply (Hno (default f)). constructor. exact Hreq.
    + exfalso. apply (Hno (VBool b)). constructor.
    + exfalso. apply (Hno (VInt z)). constructor.
    + rewrite Int_clean_str.
      destruct (isdigit_cases s)
        as [(Hs & _)|[(Hsup & _)|(_ & _ & ->)]]; [| |reflexivity].
      * exfalso. apply (Hno (VInt (decimal_value s))). constructor. exact Hs.
      * exfalso. exact (Hnosup s eq_refl Hsup).
  - intros s [_ Hs]. apply decimal_value_nonneg. exact Hs.
Qed.

(** An instance of C10: a string of digits with leading zeros. *)
Lemma Int_clean_accepts_exactly_witness :
  clean (mk_Int "n" true None []) (VStr "007") = Ok (VInt 7).
Proof.
  apply (proj1 (Int_clean_accepts_exactly
                  (Attribute_init Int "n" None true [] false None) [] []
                  (VStr "007") eq_refl)).
  apply (accepts_digits _ "007").
  split; [discriminate|]. apply all_decimal_spec. reflexivity.
Defined.

(** ** List.clean *)

(** C1.  What [List.clean] does with the candidates: as soon as the first
    candidate rejects the first element of the list, the whole clean fails
    with that rejection under index 0, whatever the later candidates would
    have done.  The loop over the candidates leaves on the first rejection
    ([break] in the [except] branch) and goes on after an acceptance, so an
    element passes only if every candidate accepts it. *)
Theorem List_clean_first_rejection_fails (f : Fields) (c1 : Attr)
    (rest : list Attr) (ats : list (string * Attr)) (v : value)
    (vs : list value) (e : Error) :
  cls_of f = List ->
  enum f = None ->
  clean c1 v = Raise (ExError e) ->
  clean (Node f (c1 :: rest) ats) (VList (v :: vs)) =
  Raise (ExError (mkError (name f) (ItemNotValid 0 e) EINVAL)).
Proof.
  intros Hcls Henum Hrej. simpl. rewrite Hcls.
  unfold List_clean, EnumMixin_clean. rewrite Henum. simpl.
  rewrite Hrej. reflexivity.
Qed.

(** The failing input of C1: the candidates are an [Int] and a [Str], the
    element is the string ["abc"], which the [Str] candidate accepts. *)
Lemma List_clean_first_rejection_fails_witness :
  clean (mk_Str "s" false None [] None) (VStr "abc") = Ok (VStr "abc") /\
  clean (mk_List "l" false None [] None
           [mk_Int "i" false None []; mk_Str "s" false None [] None])
        (VList [VStr "abc"]) =
  Raise (ExError (mkError "l"
                    (ItemNotValid 0 (mkError "i" (Text "Not an integer") EINVAL))
                    EINVAL)).
Proof.
  split; [reflexivity|].
  apply (List_clean_first_rejection_fails
           (with_enum None
              (Attribute_init List "l" None false [] false (Some (VList []))))
           (mk_Int "i" false None []) [mk_Str "s" false None [] None] []
           (VStr "abc") []);
    reflexivity.
Defined.

(** When every candidate accepts the element, the result of the last one is
    kept, not that of the first. *)
Lemma List_clean_last_candidate_wins :
  clean (mk_Str "s" false None [] None) (VStr "5") = Ok (VStr "5") /\
  clean (mk_List "l" false None [] None
           [mk_Str "s" false None [] None; mk_Int "i" false None []])
        (VList [VStr "5"]) = Ok (VList [VInt 5]).
Proof. split; reflexivity. Qed.

(** ** to_json_schema *)




(** [List.to_json_schema] tests [self.required] where the other classes test
    [not self.required]. *)
Lemma List_to_json_schema_type (f : Fields) (parent : option Attr) :
  dict_get "type" (List_to_json_schema f parent) =
  Some (if required f then VList [VStr "array"; VStr "null"]
        else VStr "array").
Proof.
  unfold List_to_json_schema, top_level_keys, enum_key.
  destruct parent, (required f), (enum f); reflexivity.
Qed.

(** ** validate *)

(** Induction on attribute trees. *)
Lemma Attr_induction (P : Attr -> Prop) :
  (forall f its ats,
      Forall P its -> Forall (fun kc => P (snd kc)) ats ->
      P (Node f its ats)) ->
  forall a, P a.
Proof.
  intros H. fix IH 1. intros [f its ats]. apply H.
  - induction its as [|i its IHits]; constructor; [apply IH | exact IHits].
  - induction ats as [|[k c] ats IHats]; constructor; [apply IH | exact IHats].
Qed.



















(** [IPAddr.validate] raises the single-field [Error], not the aggregate,
    for a value that does not parse. *)
Lemma IPAddr_validate_raises_Error (env : Env) (f : Fields)
    (its : list Attr) (ats : list (string * Attr)) (v : value) :
  cls_of f = IPAddr ->
  truthy v = true ->
  ip_address_ok env v = false ->
  validate env (Node f its ats) v =
  Raise (ExError (mkError (name f) (NotValidIP v) EINVAL)).
Proof.
  intros Hcls Ht Hip. simpl. rewrite Hcls.
  unfold IPAddr_validate. rewrite Ht, Hip. reflexivity.
Qed.

(** ** Dict.clean *)

Lemma dict_in_In {A} k (v : A) d : In (k, v) d -> dict_in k d = true.
Proof.
  unfold dict_in. induction d as [|[k0 v0] d IH]; simpl; [tauto|].
  intros [H|H].
  - injection H as -> ->. rewrite String.eqb_refl. reflexivity.
  - destruct (String.eqb k k0); [reflexivity | apply IH; exact H].
Qed.

Lemma dict_get_map {A B} (g : A -> B) k (d : list (string * A)) :
  dict_get k (map (fun kc : string * A =>
                     match kc with (k', c) => (k', g c) end) d) =
  option_map g (dict_get k d).
Proof.
  induction d as [|[k0 v0] d IH]; simpl; [reflexivity|].
  destruct (String.eqb k k0); [reflexivity | exact IH].
Qed.

Lemma dict_in_set_present {A} k k' (v : A) d :
  dict_in k' d = true -> dict_in k (dict_set k' v d) = dict_in k d.
Proof.
  intros H. rewrite dict_in_set.
  destruct (String.eqb k k') eqn:E; [|reflexivity].
  apply String.eqb_eq in E. subst k'. rewrite H. reflexivity.
Qed.

(** The loop over the supplied keys neither adds nor removes a key. *)
Lemma Dict_clean_keys_keeps_keys (f : Fields) (ch : list (string * child))
    (snap data out : list (string * value)) :
  (forall k v, In (k, v) snap -> dict_in k data = true) ->
  Dict_clean_keys f ch snap data = Ok out ->
  forall k, dict_in k out = dict_in k data.
Proof.
  revert data. induction snap as [|[key v] snap IH]; intros data Hin; simpl.
  - intros H k. injection H as <-. reflexivity.
  - destruct (negb (additional_attrs f) && negb (dict_in key ch));
      [discriminate|].
    destruct (dict_get key ch) as [[fc cc]|].
    + destruct (cc v) as [r|e]; simpl; [|discriminate].
      intros H k. rewrite (IH (dict_set key r data)).
      * apply dict_in_set_present. apply (Hin key v). left. reflexivity.
      * intros k' v' Hk'. rewrite dict_in_set_present.
        -- apply (Hin k' v'). right. exact Hk'.
        -- apply (Hin key v). left. reflexivity.
      * exact H.
    + intros H k. apply (IH data); [|exact H].
      intros k' v' Hk'. apply (Hin k' v'). right. exact Hk'.
Qed.

(** With every supplied key let through, the loop over them returns. *)
Lemma Dict_clean_keys_returns (f : Fields) (ats : list (string * Attr))
    (snap data : list (string * value)) :
  (forall k v, In (k, v) snap ->
     (additional_attrs f = false -> dict_in k ats = true) /\
     (forall c, dict_get k ats = Some c -> exists r, clean c v = Ok r)) ->
  exists out,
    Dict_clean_keys f
      (map (fun kc : string * Attr =>
              match kc with (k, c) => (k, (fields c, clean c)) end) ats)
      snap data = Ok out.
Proof.
  revert data. induction snap as [|[key v] snap IH]; intros data Hok; simpl.
  - eexists; reflexivity.
  - destruct (Hok key v (or_introl eq_refl)) as [Hdecl Hclean].
    assert (Hin : @dict_in child key
                    (map (fun kc : string * Attr =>
                            match kc with (k, c) => (k, (fields c, clean c)) end)
                         ats) = dict_in key ats).
    { unfold dict_in.
      rewrite (dict_get_map (B:=child) (fun c => (fields c, clean c))).
      destruct (dict_get key ats); reflexivity. }
    rewrite Hin.
    rewrite (dict_get_map (B:=child) (fun c => (fields c, clean c))).
    assert (Hgate : negb (additional_attrs f) && negb (dict_in key ats) = false).
    { destruct (additional_attrs f); [reflexivity|].
      rewrite Hdecl by reflexivity. reflexivity. }
    rewrite Hgate.
    destruct (dict_get key ats) as [c|] eqn:Hc; simpl.
    + destruct (Hclean c eq_refl) as [r Hr]. rewrite Hr. simpl.
      apply IH. intros k' v' Hk'. apply Hok. right. exact Hk'.
    + apply IH. intros k' v' Hk'. apply Hok. right. exact Hk'.
Qed.

Lemma find_missing_ext (ats : list (string * Attr))
    (d d' : list (string * value)) :
  (forall n, In n (attr_names ats) -> dict_in n d' = dict_in n d) ->
  first_missing_required ats d' = first_missing_required ats d.
Proof.
  unfold first_missing_required, attr_names.
  induction ats as [|[k c] ats IH]; intros H; simpl; [reflexivity|].
  rewrite (H (name (fields c))) by (left; reflexivity).
  destruct (required (fields c) && negb (dict_in (name (fields c)) d));
    [reflexivity|].
  apply IH. intros n Hn. apply H. right. exact Hn.
Qed.

Lemma String_eqb_neq a b : a <> b -> String.eqb a b = false.
Proof. intros H. apply String.eqb_neq. exact H. Qed.

(** The loop over the declared attributes stops at the first one that is
    required and absent. *)
Lemma Dict_clean_attrs_required (ats : list (string * Attr))
    (data : list (string * value)) (n : string) :
  NoDup (attr_names ats) ->
  first_missing_required ats data = Some n ->
  Dict_clean_attrs
    (map (fun kc : string * Attr =>
            match kc with (k, c) => (k, (fields c, clean c)) end) ats) data =
  Raise (ExError (mkError n (Text "This field is required") EINVAL)).
Proof.
  revert data. induction ats as [|[k c] ats IH]; intros data Hnd Hfirst.
  - discriminate.
  - simpl. inversion Hnd as [|? ? Hnotin Hnd']; subst.
    unfold first_missing_required in Hfirst. simpl in Hfirst.
    destruct (required (fields c) && negb (dict_in (name (fields c)) data))
      eqn:E.
    + injection Hfirst as <-. reflexivity.
    + assert (Hrest : forall d',
                 (forall m, In m (attr_names ats) ->
                            dict_in m d' = dict_in m data) ->
                 Dict_clean_attrs
                   (map (fun kc : string * Attr =>
                           match kc with (k, c) => (k, (fields c, clean c)) end)
                        ats) d' =
                 Raise (ExError (mkError n (Text "This field is required")
                                   EINVAL))).
      { intros d' Hd'. apply IH; [exact Hnd'|].
        rewrite (find_missing_ext ats data d' Hd'). exact Hfirst. }
      destruct (negb (dict_in (name (fields c)) data) && has_default (fields c)).
      * apply Hrest. intros m Hm. rewrite dict_in_set.
        rewrite String_eqb_neq; [reflexivity|].
        intros ->. apply Hnotin. apply list_elem_of_In. exact Hm.
      * apply Hrest. reflexivity.
Qed.

(** When the loop over the declared attributes returns, every declared
    attribute with a default that was absent holds its default, and what was
    there is kept. *)
Lemma Dict_clean_attrs_defaults (ats : list (string * Attr))
    (data out : list (string * value)) :
  NoDup (attr_names ats) ->
  Dict_clean_attrs
    (map (fun kc : string * Attr =>
            match kc with (k, c) => (k, (fields c, clean c)) end) ats) data =
  Ok out ->
  (forall k, dict_in k data = true -> dict_get k out = dict_get k data) /\
  (forall c, In c (map snd ats) -> has_default (fields c) = true ->
             dict_in (name (fields c)) data = false ->
             dict_get (name (fields c)) out = Some (default (fields c))).
Proof.
  revert data. induction ats as [|[k c] ats IH]; intros data Hnd; simpl.
  - intros H. injection H as <-. split; [reflexivity | tauto].
  - inversion Hnd as [|? ? Hnotin Hnd']; subst.
    destruct (required (fields c) && negb (dict_in (name (fields c)) data));
      [discriminate|].
    destruct (dict_in (name (fields c)) data) eqn:Hin; simpl.
    + intros H. destruct (IH _ Hnd' H) as [Hkeep Hdef]. split; [exact Hkeep|].
      intros c' [<-|Hc'] Hd Habs; [congruence|].
      apply Hdef; assumption.
    + destruct (has_default (fields c)) eqn:Hd.
      * intros H. destruct (IH _ Hnd' H) as [Hkeep Hdef]. split.
        -- intros k' Hk'. rewrite Hkeep.
           ++ rewrite dict_get_set.
              destruct (String.eqb k' (name (fields c))) eqn:E; [|reflexivity].
              apply String.eqb_eq in E. subst k'. congruence.
           ++ rewrite dict_in_set, Hk'. apply orb_true_r.
        -- intros c' [<-|Hc'] Hd' Habs.
           ++ rewrite Hkeep.
              ** rewrite dict_get_set, String.eqb_refl. reflexivity.
              ** rewrite dict_in_set, String.eqb_refl. reflexivity.
           ++ apply Hdef; [exact Hc' | exact Hd' |].
              rewrite dict_in_set, Habs.
              rewrite String_eqb_neq; [reflexivity|].
              intros Heq. apply Hnotin. rewrite <- Heq.
              apply list_elem_of_In. unfold attr_names.
              apply in_map_iff in Hc' as [[k0 c0] [<- Hin0]].
              apply in_map_iff. exists (k0, c0). split; [reflexivity|exact Hin0].
      * intros H. destruct (IH _ Hnd' H) as [Hkeep Hdef]. split; [exact Hkeep|].
        intros c' [<-|Hc'] Hd' Habs; [congruence|].
        apply Hdef; assumption.
Qed.

Lemma first_missing_required_exists (ats : list (string * Attr))
    (d : list (string * value)) (fld : Attr) :
  In fld (map snd ats) ->
  required (fields fld) = true ->
  dict_in (name (fields fld)) d = false ->
  exists g, In g (map snd ats) /\ required (fields g) = true /\
            dict_in (name (fields g)) d = false /\
            first_missing_required ats d = Some (name (fields g)).
Proof.
  unfold first_missing_required.
  induction ats as [|[k c] ats IH]; simpl; [tauto|].
  intros Hin Hreq Habs.
  destruct (required (fields c) && negb (dict_in (name (fields c)) d)) eqn:E.
  - exists c. apply andb_prop in E as [E1 E2]. apply negb_true_iff in E2.
    repeat split; auto.
  - destruct Hin as [<-|Hin].
    + rewrite Hreq, Habs in E. discriminate.
    + destruct (IH Hin Hreq Habs) as (g & Hg & ? & ? & ?).
      exists g. repeat split; auto.
Qed.

(** C5, as the code has it.  For a [Dict] with [update] false whose declared
    attributes have distinct names, and an input mapping [d]:
    when every supplied key is let through and some declared required
    attribute is absent, [Dict.clean] fails with "This field is required"
    named for the first declared attribute that is required and absent; and
    whenever [Dict.clean] returns, every declared attribute that has a
    default and was absent from the input holds that default in the returned
    mapping. *)
Theorem Dict_clean_required_and_defaults (f : Fields) (its : list Attr)
    (ats : list (string * Attr)) (d : list (string * value)) :
  cls_of f = Dict ->
  update f = false ->
  NoDup (attr_names ats) ->
  (supplied_ok f ats d ->
   forall fld, In fld (map snd ats) ->
     required (fields fld) = true ->
     dict_in (name (fields fld)) d = false ->
     exists g, In g (map snd ats) /\ required (fields g) = true /\
       dict_in (name (fields g)) d = false /\
       first_missing_required ats d = Some (name (fields g)) /\
       clean (Node f its ats) (VDict d) =
       Raise (ExError (mkError (name (fields g))
                         (Text "This field is required") EINVAL))) /\
  (forall out, clean (Node f its ats) (VDict d) = Ok out ->
     exists o, out = VDict o /\
       forall fld, In fld (map snd ats) ->
         has_default (fields fld) = true ->
         dict_in (name (fields fld)) d = false ->
         dict_get (name (fields fld)) o = Some (default (fields fld))).
Proof.
  intros Hcls Hupd Hnd. simpl. rewrite Hcls. unfold Dict_clean. simpl.
  rewrite Hupd. simpl.
  set (ch := map (fun kc : string * Attr =>
                    match kc with (k, c) => (k, (fields c, clean c)) end) ats).
  split.
  - intros Hok fld Hin Hreq Habs.
    destruct (first_missing_required_exists ats d fld Hin Hreq Habs)
      as (g & Hg & Hgreq & Hgabs & Hfirst).
    exists g. repeat split; try assumption.
    destruct (Dict_clean_keys_returns f ats d d Hok) as [d1 Hd1].
    fold ch in Hd1. rewrite Hd1. simpl.
    assert (Hkeys : forall k, dict_in k d1 = dict_in k d).
    { apply (Dict_clean_keys_keeps_keys f ch d d d1); [|exact Hd1].
      intros k v. apply dict_in_In. }
    unfold ch.
    rewrite (Dict_clean_attrs_required ats d1 (name (fields g)) Hnd).
    + reflexivity.
    + rewrite (find_missing_ext ats d d1); [exact Hfirst|].
      intros n _. apply Hkeys.
  - intros out.
    destruct (Dict_clean_keys f ch d d) as [d1|e] eqn:Hd1; simpl;
      [|discriminate].
    assert (Hkeys : forall k, dict_in k d1 = dict_in k d).
    { apply (Dict_clean_keys_keeps_keys f ch d d d1); [|exact Hd1].
      intros k v. apply dict_in_In. }
    destruct (Dict_clean_attrs ch d1) as [d2|e] eqn:Hd2; simpl;
      [|discriminate].
    intros H. injection H as <-. exists d2. split; [reflexivity|].
    intros fld Hin Hdef Habs.
    destruct (Dict_clean_attrs_defaults ats d1 d2 Hnd Hd2) as [_ Hfill].
    apply Hfill; [exact Hin | exact Hdef |].
    rewrite Hkeys. exact Habs.
Qed.

(** An input that lacks the required field [a] of a [Dict] with a required
    [a] and a defaulted [b]. *)
Lemma Dict_clean_required_and_defaults_witness :
  clean (mk_Dict "d" false None [] false false
           [mk_Int "a" true None []; mk_Str "b" false (Some (VStr "z")) [] None])
        (VDict []) =
  Raise (ExError (mkError "a" (Text "This field is required") EINVAL)).
Proof.
  assert (Hnd : NoDup (attr_names
                         [("a", mk_Int "a" true None []);
                          ("b", mk_Str "b" false (Some (VStr "z")) [] None)])).
  { apply (bool_decide_unpack _). vm_compute. exact I. }
  destruct (proj1 (Dict_clean_required_and_defaults
                     (with_dict_flags false false
                        (Attribute_init Dict "d" None false [] false None))
                     []
                     [("a", mk_Int "a" true None []);
                      ("b", mk_Str "b" false (Some (VStr "z")) [] None)]
                     [] eq_refl eq_refl Hnd)
                  (fun k v (H : In (k, v) []) => match H with end)
                  (mk_Int "a" true None []) (or_introl eq_refl)
                  eq_refl eq_refl)
    as (g & _ & _ & _ & Hfirst & Hclean).
  injection Hfirst as Hname. rewrite <- Hname in Hclean. exact Hclean.
Defined.

(** An input that lacks the required field [a] and carries an undeclared key
    fails on the undeclared key, not with "This field is required"; an input
    that lacks two required fields names only the first. *)
Lemma Dict_clean_required_and_defaults_counterexample :
  update (fields (mk_Dict "d" false None [] false false
                    [mk_Int "a" true None []])) = false /\
  required (fields (mk_Int "a" true None [])) = true /\
  dict_in "a" [("zz", VInt 1)] = false /\
  clean (mk_Dict "d" false None [] false false [mk_Int "a" true None []])
        (VDict [("zz", VInt 1)]) =
  Raise (ExError (mkError "zz" (Text "Field was not expected") EINVAL)) /\
  clean (mk_Dict "d" false None [] false false
           [mk_Int "a" true None []; mk_Int "b" true None []])
        (VDict []) =
  Raise (ExError (mkError "a" (Text "This field is required") EINVAL)).
Proof. repeat split; reflexivity. Qed.

(** ** Cleaning twice *)

(** An [Int] that is required, or whose default is [None] or of integer
    type, is settled. *)
Lemma settled_Int (f : Fields) (its : list Attr) (ats : list (string * Attr)) :
  cls_of f = Int ->
  required f = true \/ default f = VNone \/ isinstance_int (default f) = true ->
  settled (Node f its ats).
Proof.
  intros Hcls Hd x y. simpl. rewrite Hcls. unfold Int_clean.
  destruct (is_None x && negb (required f)) eqn:E.
  - apply andb_prop in E as [_ E]. apply negb_true_iff in E.
    intros H. injection H as <-.
    destruct Hd as [Hd|[Hd|Hd]]; [congruence| |].
    + rewrite Hd. simpl. rewrite E. reflexivity.
    + destruct (default f); try discriminate; reflexivity.
  - destruct (isinstance_int x) eqn:Hx; simpl.
    + intros H. injection H as <-.
      destruct x; try discriminate; reflexivity.
    + destruct x; try discriminate.
      destruct (isdigit s); [|discriminate].
      destruct (int_of_str s); [|discriminate].
      intros H. injection H as <-. reflexivity.
Qed.

Lemma List_clean_elements_single (f : Fields) (c : Attr) (index : nat)
    (vs rs : list value) :
  List_clean_elements f [(fields c, clean c)] index vs = Ok rs ->
  Forall2 (fun x r => clean c x = Ok r) vs rs.
Proof.
  revert index rs. induction vs as [|v vs IH]; intros index rs; simpl.
  - intros H. injection H as <-. constructor.
  - destruct (clean c v) as [r|[e|es|o]] eqn:Hc; simpl; try discriminate.
    destruct (List_clean_elements f [(fields c, clean c)] (S index) vs)
      as [rest|e] eqn:Hrest; simpl; [|discriminate].
    intros H. injection H as <-. constructor; [exact Hc|].
    apply (IH (S index)). exact Hrest.
Qed.

Lemma List_clean_elements_fixed (f : Fields) (c : Attr) (index : nat)
    (rs : list value) :
  Forall (fun r => clean c r = Ok r) rs ->
  List_clean_elements f [(fields c, clean c)] index rs = Ok rs.
Proof.
  intros H. revert index. induction H as [|r rs Hr _ IH]; intros index; simpl.
  - reflexivity.
  - rewrite Hr. simpl. rewrite IH. reflexivity.
Qed.

(** C9, as the code has it.  For a [List] without an enum whose [items] is
    empty or is one settled candidate, cleaning a list a second time returns
    what the first cleaning returned. *)
Theorem List_clean_idempotent (f : Fields) (its : list Attr)
    (ats : list (string * Attr)) (vs : list value) (r : value) :
  cls_of f = List ->
  enum f = None ->
  its = [] \/ (exists c, its = [c] /\ settled c) ->
  clean (Node f its ats) (VList vs) = Ok r ->
  clean (Node f its ats) r = Ok r.
Proof.
  intros Hcls Henum Hits. simpl. rewrite Hcls.
  unfold List_clean, EnumMixin_clean. rewrite Henum. simpl.
  destruct Hits as [->|(c & -> & Hc)]; simpl.
  - intros H. injection H as <-. reflexivity.
  - destruct (List_clean_elements f [(fields c, clean c)] 0 vs) as [rs|e]
      eqn:Hrs; simpl; [|discriminate].
    intros H. injection H as <-. simpl.
    rewrite (List_clean_elements_fixed f c 0 rs); [reflexivity|].
    apply List_clean_elements_single in Hrs.
    induction Hrs as [|x y vs rs Hxy _ IH]; constructor.
    + exact (Hc x y Hxy).
    + exact IH.
Qed.

(** A list of required integers: digit strings become integers, and the
    result cleans to itself. *)
Lemma List_clean_idempotent_witness :
  clean (mk_List "l" false None [] None [mk_Int "i" true None []])
        (VList [VStr "7"; VInt 3]) = Ok (VList [VInt 7; VInt 3]) /\
  clean (mk_List "l" false None [] None [mk_Int "i" true None []])
        (VList [VInt 7; VInt 3]) = Ok (VList [VInt 7; VInt 3]).
Proof.
  split; [reflexivity|].
  apply (List_clean_idempotent
           (with_enum None
              (Attribute_init List "l" None false [] false (Some (VList []))))
           [mk_Int "i" true None []] [] [VStr "7"; VInt 3]
           (VList [VInt 7; VInt 3]) eq_refl eq_refl).
  - right. exists (mk_Int "i" true None []). split; [reflexivity|].
    apply settled_Int; [reflexivity | left; reflexivity].
  - reflexivity.
Defined.

(** The enum of a [List] is checked against the elements as they come in,
    before the candidates coerce them: a list that cleans once may fail the
    enum when cleaned again.  So may an element that a candidate replaced by
    a default of another type. *)
Lemma List_clean_idempotent_counterexample :
  clean (mk_List "ports" false None [] (Some [VStr "80"; VStr "443"])
           [mk_Int "port" true None []])
        (VList [VStr "80"]) = Ok (VList [VInt 80]) /\
  clean (mk_List "ports" false None [] (Some [VStr "80"; VStr "443"])
           [mk_Int "port" true None []])
        (VList [VInt 80]) =
  Raise (ExError (mkError "ports" (InvalidChoice (VList [VInt 80])) EINVAL)) /\
  clean (mk_List "l" false None [] None
           [mk_Int "i" false (Some (VStr "unset")) []])
        (VList [VNone]) = Ok (VList [VStr "unset"]) /\
  clean (mk_List "l" false None [] None
           [mk_Int "i" false (Some (VStr "unset")) []])
        (VList [VStr "unset"]) =
  Raise (ExError (mkError "l"
                    (ItemNotValid 0 (mkError "i" (Text "Not an integer") EINVAL))
                    EINVAL)).
Proof. repeat split; reflexivity. Qed.

(** ** Call binding *)

Lemma extend_app (ve e : ValidationErrors.t) :
  ValidationErrors.extend ve e = (ve ++ e)%list.
Proof.
  unfold ValidationErrors.extend. revert ve.
  induction e as [|[a m c] e IH]; intros ve; simpl.
  - rewrite app_nil_r. reflexivity.
  - rewrite IH. unfold ValidationErrors.add. simpl.
    rewrite <- app_assoc. reflexivity.
Qed.

(** One [validate] adds exactly what it raised, after what was there. *)
Lemma validate_into_collects (env : Env) (attr : Attr) (v : value)
    (ve ve' : ValidationErrors.t) :
  validate_into env attr v ve = Ok ve' ->
  exists more, ve' = (ve ++ more)%list /\
    forall es, validate env attr v = Raise (ExValidationErrors es) ->
               more = es.
Proof.
  unfold validate_into.
  destruct (validate env attr v) as [[]|[e|es|o]]; try discriminate.
  - intros H. injection H as <-. exists []. rewrite app_nil_r.
    split; [reflexivity | discriminate].
  - intros H. injection H as <-. exists es. rewrite extend_app.
    split; [reflexivity|]. intros es' H. injection H as ->. reflexivity.
Qed.

(** The loop over the positional arguments drops nothing it has collected,
    and collects the violations of every positional argument. *)
Lemma positional_loop_collects (env : Env) (nf : Wrapped)
    (slice : list value) (b b' : binding) :
  positional_loop env nf slice b = Ok b' ->
  b_kwargs b' = b_kwargs b /\
  exists more, b_verrors b' = (b_verrors b ++ more)%list /\
    forall k attr arg v es,
      (k < length slice)%nat ->
      nf_accepts nf !! (b_i b + k)%nat = Some attr ->
      b_args b !! (args_index nf + (b_i b + k))%nat = Some arg ->
      clean attr arg = Ok v ->
      validate env attr v = Raise (ExValidationErrors es) ->
      forall x, In x es -> In x more.
Proof.
  revert b. induction slice as [|s slice IH]; intros b; simpl.
  - intros H. injection H as <-. split; [reflexivity|].
    exists []. rewrite app_nil_r. split; [reflexivity|]. intros; lia.
  - unfold index.
    destruct (nf_accepts nf !! b_i b) as [attr0|] eqn:Hattr; simpl;
      [|discriminate].
    destruct (b_args b !! (args_index nf + b_i b)%nat) as [arg0|] eqn:Harg;
      simpl; [|discriminate].
    destruct (clean attr0 arg0) as [v0|e] eqn:Hclean; simpl; [|discriminate].
    destruct (validate_into env attr0 v0 (b_verrors b)) as [ve|e] eqn:Hval;
      simpl; [|discriminate].
    intros H. apply IH in H. simpl in H. destruct H as [Hkw (more & Hmore & Hall)].
    split; [exact Hkw|].
    apply validate_into_collects in Hval as (m0 & -> & Hm0).
    exists (m0 ++ more)%list. split; [rewrite Hmore, app_assoc; reflexivity|].
    intros k attr arg v es Hk Ha Harg' Hc Hv x Hx.
    apply in_or_app.
    destruct k as [|k].
    + left. rewrite Nat.add_0_r in Ha, Harg'.
      rewrite Hattr in Ha. injection Ha as <-.
      rewrite Harg in Harg'. injection Harg' as <-.
      rewrite Hclean in Hc. injection Hc as <-.
      rewrite (Hm0 es Hv). exact Hx.
    + right. apply (Hall k attr arg v es); try assumption.
      * lia.
      * replace (S (b_i b + k))%nat with (b_i b + S k)%nat by lia. exact Ha.
      * rewrite list_lookup_insert_ne by lia.
        replace (S (b_i b + k))%nat with (b_i b + S k)%nat by lia. exact Harg'.
Qed.

(** The loop over the remaining parameters drops nothing it has collected. *)
Lemma keyword_loop_keeps (env : Env) (nf : Wrapped) (xs : list nat)
    (b b' : binding) :
  keyword_loop env nf xs b = Ok b' ->
  b_args b' = b_args b /\
  exists more, b_verrors b' = (b_verrors b ++ more)%list.
Proof.
  revert b. induction xs as [|x xs IH]; intros b; simpl.
  - intros H. injection H as <-. split; [reflexivity|].
    exists []. rewrite app_nil_r. reflexivity.
  - destruct (index (co_varnames (wrapped_f nf)) x) as [kwarg|e]; simpl;
      [|discriminate].
    match goal with
    | |- (?m ≫= _) = _ -> _ => destruct m as [[[attr v]|]|e]
    end; simpl; try discriminate.
    + destruct (clean attr v) as [v'|e]; simpl; [|discriminate].
      destruct (validate_into env attr v' (b_verrors b)) as [ve|e] eqn:Hval;
        simpl; [|discriminate].
      intros H. apply IH in H. simpl in H. destruct H as [Hargs (more & Hmore)].
      split; [exact Hargs|].
      apply validate_into_collects in Hval as (m0 & -> & _).
      exists (m0 ++ more)%list. rewrite Hmore, app_assoc. reflexivity.
    + intros H. apply IH in H. simpl in H. exact H.
Qed.

(** The loop over the positional arguments counts them. *)
Lemma positional_loop_counts (env : Env) (nf : Wrapped)
    (slice : list value) (b b' : binding) :
  positional_loop env nf slice b = Ok b' ->
  b_i b' = (b_i b + length slice)%nat.
Proof.
  revert b. induction slice as [|s slice IH]; intros b; simpl.
  - intros H. injection H as <-. lia.
  - unfold index.
    destruct (nf_accepts nf !! b_i b) as [attr0|]; simpl; [|discriminate].
    destruct (b_args b !! (args_index nf + b_i b)%nat) as [arg0|]; simpl;
      [|discriminate].
    destruct (clean attr0 arg0) as [v0|e]; simpl; [|discriminate].
    destruct (validate_into env attr0 v0 (b_verrors b)) as [ve|e]; simpl;
      [|discriminate].
    intros H. apply IH in H. simpl in H. lia.
Qed.

(** The loop over the remaining parameters collects the violations of every
    parameter it binds: one given by keyword, and one left out of the call
    whose attribute is still within the attribute list. *)
Lemma keyword_loop_collects (env : Env) (nf : Wrapped)
    (kw0 : list (string * value)) (n : nat) :
  forall (x0 : nat) (b b' : binding),
    keyword_loop env nf (seq x0 n) b = Ok b' ->
    (forall j1 j2 name, (j1 < n)%nat -> (j2 < n)%nat ->
       co_varnames (wrapped_f nf) !! (x0 + j1)%nat = Some name ->
       co_varnames (wrapped_f nf) !! (x0 + j2)%nat = Some name -> j1 = j2) ->
    (forall j name, (j < n)%nat ->
       co_varnames (wrapped_f nf) !! (x0 + j)%nat = Some name ->
       dict_get name (b_kwargs b) = dict_get name kw0) ->
    exists more, b_verrors b' = (b_verrors b ++ more)%list /\
      forall j name attr w es,
        (j < n)%nat ->
        co_varnames (wrapped_f nf) !! (x0 + j)%nat = Some name ->
        nf_accepts nf !! (b_i b + j)%nat = Some attr ->
        dict_in name kw0 = true \/
        (b_i b + j + args_index nf <= length (nf_accepts nf))%nat ->
        clean attr (supplied kw0 name) = Ok w ->
        validate env attr w = Raise (ExValidationErrors es) ->
        forall x, In x es -> In x more.
Proof.
  induction n as [|n IH]; intros x0 b b' Hloop Hinj Hagree; simpl in Hloop.
  - injection Hloop as <-. exists []. rewrite app_nil_r.
    split; [reflexivity|]. intros; lia.
  - unfold index in Hloop.
    destruct (co_varnames (wrapped_f nf) !! x0) as [kwarg|] eqn:Hkw;
      simpl in Hloop; [|discriminate].
    assert (Hkw0 : co_varnames (wrapped_f nf) !! (x0 + 0)%nat = Some kwarg)
      by (rewrite Nat.add_0_r; exact Hkw).
    pose proof (Hagree 0%nat kwarg ltac:(lia) Hkw0) as Hget0.
    assert (Hinj' : forall j1 j2 name, (j1 < n)%nat -> (j2 < n)%nat ->
       co_varnames (wrapped_f nf) !! (S x0 + j1)%nat = Some name ->
       co_varnames (wrapped_f nf) !! (S x0 + j2)%nat = Some name -> j1 = j2).
    { intros j1 j2 name H1 H2 Hn1 Hn2.
      assert (S j1 = S j2); [|lia].
      apply (Hinj (S j1) (S j2) name); try lia.
      - replace (x0 + S j1)%nat with (S x0 + j1)%nat by lia. exact Hn1.
      - replace (x0 + S j2)%nat with (S x0 + j2)%nat by lia. exact Hn2. }
    assert (Hne : forall j name, (j < n)%nat ->
       co_varnames (wrapped_f nf) !! (S x0 + j)%nat = Some name ->
       name <> kwarg).
    { intros j name Hj Hn ->.
      assert (S j = 0%nat); [|lia].
      apply (Hinj (S j) 0%nat kwarg); try lia; [|exact Hkw0].
      replace (x0 + S j)%nat with (S x0 + j)%nat by lia. exact Hn. }
    assert (Hshift : forall more1,
      (forall j name attr w es,
        (j < n)%nat ->
        co_varnames (wrapped_f nf) !! (S x0 + j)%nat = Some name ->
        nf_accepts nf !! (S (b_i b) + j)%nat = Some attr ->
        dict_in name kw0 = true \/
        (S (b_i b) + j + args_index nf <= length (nf_accepts nf))%nat ->
        clean attr (supplied kw0 name) = Ok w ->
        validate env attr w = Raise (ExValidationErrors es) ->
        forall x, In x es -> In x more1) ->
      forall j name attr w es,
        (S j < S n)%nat ->
        co_varnames (wrapped_f nf) !! (x0 + S j)%nat = Some name ->
        nf_accepts nf !! (b_i b + S j)%nat = Some attr ->
        dict_in name kw0 = true \/
        (b_i b + S j + args_index nf <= length (nf_accepts nf))%nat ->
        clean attr (supplied kw0 name) = Ok w ->
        validate env attr w = Raise (ExValidationErrors es) ->
        forall x, In x es -> In x more1).
    { intros more1 Hall j name attr w es Hj Hn Ha Hor Hc Hv x Hx.
      apply (Hall j name attr w es); try assumption; try lia.
      - replace (S x0 + j)%nat with (x0 + S j)%nat by lia. exact Hn.
      - replace (S (b_i b) + j)%nat with (b_i b + S j)%nat by lia.
        exact Ha.
      - destruct Hor as [Hor|Hor]; [left; exact Hor | right; lia]. }
    destruct (dict_get kwarg (b_kwargs b)) as [v|] eqn:Hcur.
    + (* given by keyword *)
      destruct (nf_accepts nf !! b_i b) as [attr0|] eqn:Hattr;
        simpl in Hloop; [|discriminate].
      destruct (clean attr0 v) as [w0|e] eqn:Hclean; simpl in Hloop;
        [|discriminate].
      destruct (validate_into env attr0 w0 (b_verrors b)) as [ve|e] eqn:Hval;
        simpl in Hloop; [|discriminate].
      apply IH in Hloop; [|exact Hinj'|].
      * destruct Hloop as (more & Hmore & Hall). simpl in Hmore, Hall.
        apply validate_into_collects in Hval as (m0 & -> & Hm0).
        exists (m0 ++ more)%list.
        split; [rewrite Hmore, app_assoc; reflexivity|].
        intros [|j] name attr w es Hj Hn Ha Hor Hc Hv x Hx;
          apply in_or_app.
        -- left. rewrite Hkw0 in Hn. injection Hn as <-.
           rewrite Nat.add_0_r in Ha. rewrite Hattr in Ha. injection Ha as <-.
           unfold supplied in Hc. rewrite <- Hget0 in Hc.
           rewrite Hclean in Hc. injection Hc as <-.
           rewrite (Hm0 es Hv). exact Hx.
        -- right.
           apply (Hshift more Hall j name attr w es); assumption.
      * simpl. intros j name Hj Hn. rewrite dict_get_set.
        rewrite String_eqb_neq by exact (Hne j name Hj Hn).
        apply (Hagree (S j) name); [lia|].
        replace (x0 + S j)%nat with (S x0 + j)%nat by lia. exact Hn.
    + destruct (Nat.leb (b_i b + args_index nf) (length (nf_accepts nf)))
        eqn:Hlen.
      * (* left out of the call, and an attribute is there for it *)
        destruct (nf_accepts nf !! b_i b) as [attr0|] eqn:Hattr;
          simpl in Hloop; [|discriminate].
        destruct (clean attr0 VNone) as [w0|e] eqn:Hclean; simpl in Hloop;
          [|discriminate].
        destruct (validate_into env attr0 w0 (b_verrors b)) as [ve|e]
          eqn:Hval; simpl in Hloop; [|discriminate].
        apply IH in Hloop; [|exact Hinj'|].
        -- destruct Hloop as (more & Hmore & Hall). simpl in Hmore, Hall.
           apply validate_into_collects in Hval as (m0 & -> & Hm0).
           exists (m0 ++ more)%list.
           split; [rewrite Hmore, app_assoc; reflexivity|].
           intros [|j] name attr w es Hj Hn Ha Hor Hc Hv x Hx;
             apply in_or_app.
           ++ left. rewrite Hkw0 in Hn. injection Hn as <-.
              rewrite Nat.add_0_r in Ha. rewrite Hattr in Ha.
              injection Ha as <-.
              unfold supplied in Hc. rewrite <- Hget0 in Hc.
              rewrite Hclean in Hc. injection Hc as <-.
              rewrite (Hm0 es Hv). exact Hx.
           ++ right.
              apply (Hshift more Hall j name attr w es); assumption.
        -- simpl. intros j name Hj Hn. rewrite dict_get_set.
           rewrite String_eqb_neq by exact (Hne j name Hj Hn).
           apply (Hagree (S j) name); [lia|].
           replace (x0 + S j)%nat with (S x0 + j)%nat by lia. exact Hn.
      * (* left out of the call, past the attribute list: passed over *)
        simpl in Hloop. apply IH in Hloop; [|exact Hinj'|].
        -- destruct Hloop as (more & Hmore & Hall). simpl in Hmore, Hall.
           exists more. split; [exact Hmore|].
           intros [|j] name attr w es Hj Hn Ha Hor Hc Hv x Hx.
           ++ exfalso. rewrite Hkw0 in Hn. injection Hn as <-.
              apply Nat.leb_gt in Hlen.
              destruct Hor as [Hor|Hor]; [|lia].
              unfold dict_in in Hor. rewrite <- Hget0 in Hor.
              discriminate.
           ++ apply (Hshift more Hall j name attr w es); assumption.
        -- simpl. intros j name Hj Hn.
           apply (Hagree (S j) name); [lia|].
           replace (x0 + S j)%nat with (S x0 + j)%nat by lia. exact Hn.
Qed.

(** C4, as the code has it.  When the two loops of the wrapper run to their
    end and have collected a violation, the wrapper raises the collected
    [ValidationErrors] and the body of the wrapped function does not run;
    the body does not run either when the wrapper raises anything else; if
    the body runs, the loops ran to their end and collected nothing.  What
    was collected holds the violations of every parameter the wrapper binds
    to an attribute: of every positional argument, and of every remaining
    parameter, given by keyword or left out of the call, for what the
    attribute at the position the wrapper counts for it makes of the value
    supplied, or of [None]. *)
Theorem nf_call_rejects (env : Env) (nf : Wrapped) (args : list value)
    (kwargs : list (string * value)) (calls : nat) :
  (forall b, binding_pass env nf args kwargs = Ok b ->
     b_verrors b <> [] ->
     nf_call env nf args kwargs calls =
     (Raise (ExValidationErrors (b_verrors b)), calls)) /\
  (forall e, clean_and_validate_args env nf args kwargs = Raise e ->
     nf_call env nf args kwargs calls = (Raise e, calls)) /\
  (snd (nf_call env nf args kwargs calls) <> calls ->
   exists b, binding_pass env nf args kwargs = Ok b /\ b_verrors b = []) /\
  (forall b, binding_pass env nf args kwargs = Ok b ->
     forall k attr arg v es,
       nf_accepts nf !! k = Some attr ->
       args !! (args_index nf + k)%nat = Some arg ->
       clean attr arg = Ok v ->
       validate env attr v = Raise (ExValidationErrors es) ->
       forall x, In x es -> In x (b_verrors b)) /\
  (forall b, binding_pass env nf args kwargs = Ok b ->
     NoDup (co_varnames (wrapped_f nf)) ->
     forall j name attr w es,
       let p := (length args - args_index nf)%nat in
       (p + 1 + j < co_argcount (wrapped_f nf))%nat ->
       co_varnames (wrapped_f nf) !! (p + 1 + j)%nat = Some name ->
       nf_accepts nf !! (p + j)%nat = Some attr ->
       dict_in name kwargs = true \/
       (p + j + args_index nf <= length (nf_accepts nf))%nat ->
       clean attr (supplied kwargs name) = Ok w ->
       validate env attr w = Raise (ExValidationErrors es) ->
       forall x, In x es -> In x (b_verrors b)).
Proof.
  unfold nf_call, clean_and_validate_args.
  split; [|split; [|split; [|split]]].
  - intros b Hb Hne. rewrite Hb. simpl.
    destruct (b_verrors b); [congruence | reflexivity].
  - intros e He. rewrite He. reflexivity.
  - destruct (binding_pass env nf args kwargs) as [b|e]; simpl; [|congruence].
    destruct (b_verrors b) eqn:Hv; simpl; [|congruence].
    intros _. exists b. split; [reflexivity | exact Hv].
  - intros b Hb k attr arg v es Ha Harg Hc Hv x Hx.
    unfold binding_pass in Hb.
    destruct (positional_loop env nf (drop (args_index nf) args) _)
      as [b1|e] eqn:Hpos; simpl in Hb; [|discriminate].
    apply positional_loop_collects in Hpos as [_ (more & Hmore & Hall)].
    simpl in Hmore, Hall.
    apply keyword_loop_keeps in Hb as [_ (more' & Hmore')].
    rewrite Hmore', Hmore. apply in_or_app. left.
    apply (Hall k attr arg v es); try assumption.
    rewrite length_drop. apply lookup_lt_Some in Harg. lia.
  - intros b Hb Hnd j name attr w es. cbv zeta.
    set (p := (length args - args_index nf)%nat).
    intros Hlt Hname Hattr Hor Hc Hv x Hx.
    unfold binding_pass in Hb.
    destruct (positional_loop env nf (drop (args_index nf) args) _)
      as [b1|e] eqn:Hpos; simpl in Hb; [|discriminate].
    pose proof (positional_loop_counts _ _ _ _ _ Hpos) as Hi.
    pose proof (positional_loop_collects _ _ _ _ _ Hpos) as [Hkw _].
    simpl in Hi, Hkw. rewrite length_drop in Hi. fold p in Hi.
    rewrite Hi in Hb.
    apply (keyword_loop_collects env nf kwargs) in Hb.
    + destruct Hb as (more & Hmore & Hall).
      rewrite Hmore. apply in_or_app. right.
      apply (Hall j name attr w es); try assumption.
      * lia.
      * rewrite Hi. exact Hattr.
      * rewrite Hi. exact Hor.
    + intros j1 j2 n0 _ _ H1 H2.
      pose proof (NoDup_lookup _ _ _ _ Hnd H1 H2). lia.
    + intros j0 n0 _ _. rewrite Hkw. reflexivity.
Qed.

(** The call of the specification: attributes [Int x] (required) and [Str y]
    (default ["z"], with a validator that rejects), called on [(5,)] with
    [y="bad"]: one violation, for [y], and the body does not run. *)
Lemma nf_call_rejects_witness :
  nf_call empty_env
    {| wrapped_f := {| co_varnames := ["self"; "x"; "y"]; co_argcount := 3;
                       has_pass_app := false; has_job := false;
                       co_defaults := []; body := fun l => Ok (VList l) |};
       args_index := 1;
       nf_accepts := [mk_Int "x" true None [];
                      mk_Str "y" false (Some (VStr "z"))
                        [fun _ => Some "good"] None] |}
    [VObj 1; VInt 5] [("y", VStr "bad")] 0 =
  (Raise (ExValidationErrors
            [{| ValidationErrors.v_attribute := "y";
                ValidationErrors.v_errmsg := Text "Should be good";
                ValidationErrors.v_errno := EINVAL |}]), 0%nat).
Proof.
  apply (proj1 (nf_call_rejects empty_env _ _ _ 0%nat)
           {| b_i := 2; b_args := [VObj 1; VInt 5];
              b_kwargs := [("y", VStr "bad")];
              b_verrors :=
                [{| ValidationErrors.v_attribute := "y";
                    ValidationErrors.v_errmsg := Text "Should be good";
                    ValidationErrors.v_errno := EINVAL |}] |}).
  - reflexivity.
  - discriminate.
Defined.

(** The first argument violates a validator, and the second then fails to
    clean: the wrapper raises the single [Error] of the second, not the
    collected [ValidationErrors]. *)
Lemma nf_call_rejects_counterexample :
  validate empty_env (mk_Str "x" true None [fun _ => Some "good"] None)
    (VStr "bad") =
  Raise (ExValidationErrors
           [{| ValidationErrors.v_attribute := "x";
               ValidationErrors.v_errmsg := Text "Should be good";
               ValidationErrors.v_errno := EINVAL |}]) /\
  nf_call empty_env
    {| wrapped_f := {| co_varnames := ["self"; "x"; "y"]; co_argcount := 3;
                       has_pass_app := false; has_job := false;
                       co_defaults := []; body := fun l => Ok (VList l) |};
       args_index := 1;
       nf_accepts := [mk_Str "x" true None [fun _ => Some "good"] None;
                      mk_Int "y" true None []] |}
    [VObj 1; VStr "bad"; VStr "seven"] [] 0 =
  (Raise (ExError (mkError "y" (Text "Not an integer") EINVAL)), 0%nat).
Proof. split; reflexivity. Qed.

(** C6.  For a method without [_pass_app] and [_job], the attributes
    [Int x] (required) and [Str y] (default ["z"]) and the call on [(5,)],
    the body receives [(5, "z")].  For the same method with [_pass_app] (one
    more leading parameter), the same call leaves [y] out: the loop over the
    remaining parameters starts at [i + 1] instead of [i + args_index], no
    missing value is synthesized for [y], and the call of the body fails for
    want of [y]; given [y] by keyword, the loop reads past the end of the
    attribute list. *)
Theorem accepts_binds_by_position (env : Env) (body : list value -> result value)
    (calls : nat) :
  let schema := [mk_Int "x" true None [];
                 mk_Str "y" false (Some (VStr "z")) [] None] in
  let f := {| co_varnames := ["self"; "x"; "y"]; co_argcount := 3;
              has_pass_app := false; has_job := false;
              co_defaults := []; body := body |} in
  let g := {| co_varnames := ["self"; "app"; "x"; "y"]; co_argcount := 4;
              has_pass_app := true; has_job := false;
              co_defaults := []; body := body |} in
  (exists nf, accepts schema f = Ok nf /\
     nf_call env nf [VObj 1; VInt 5] [] calls =
     (body [VObj 1; VInt 5; VStr "z"], S calls)) /\
  (exists nf, accepts schema g = Ok nf /\
     clean_and_validate_args env nf [VObj 1; VObj 2; VInt 5] [] =
     Ok ([VObj 1; VObj 2; VInt 5], []) /\
     nf_call env nf [VObj 1; VObj 2; VInt 5] [] calls =
     (Raise (ExOther TypeError), calls) /\
     nf_call env nf [VObj 1; VObj 2; VInt 5] [("y", VStr "w")] calls =
     (Raise (ExOther IndexError), calls)).
Proof.
  simpl. split.
  - eexists. split; [reflexivity|]. reflexivity.
  - eexists. split; [reflexivity|]. repeat split; reflexivity.
Qed.

(** ** Attribute objects on the heap *)

Lemma repr_Node (h : gmap nat cell) (a : nat) (f : Fields) (its : list Attr)
    (ats : list (string * Attr)) :
  repr h a (Node f its ats) <->
  exists c, h !! a = Some c /\ c_fields c = f /\
            Forall2 (repr h) (c_items c) its /\
            Forall2 (keyed h) (c_attrs c) ats.
Proof.
  split.
  - intros H. inversion H; subst. eexists. repeat split; eassumption.
  - intros (c & Hc & Hf & Hi & Ha). econstructor; eassumption.
Qed.

Lemma depth_Node (f : Fields) (its : list Attr) (ats : list (string * Attr)) :
  (forall t, In t its -> (depth t < depth (Node f its ats))%nat) /\
  (forall kt, In kt ats -> (depth (snd kt) < depth (Node f its ats))%nat).
Proof.
  assert (Hmax : forall l x, In x l -> (x <= fold_right Nat.max 0 l)%nat).
  { induction l as [|y l IH]; simpl; [tauto|].
    intros x [->|Hx]; [lia | specialize (IH x Hx); lia]. }
  simpl. split.
  - intros t Ht.
    pose proof (Hmax (map depth its) (depth t) (in_map depth its t Ht)). lia.
  - intros [k t] Ht. simpl.
    pose proof (Hmax _ (depth t)
                  (in_map (fun kc : string * Attr =>
                             match kc with (_, c) => depth c end)
                          ats (k, t) Ht)).
    lia.
Qed.

Lemma depth_pos (t : Attr) : (0 < depth t)%nat.
Proof. destruct t; simpl; lia. Qed.

(** A larger heap spells out the same attributes. *)
Lemma repr_mono (h h' : gmap nat cell) :
  (forall y c, h !! y = Some c -> h' !! y = Some c) ->
  forall t a, repr h a t -> repr h' a t.
Proof.
  intros Hsub t.
  induction t as [f its ats IHits IHats] using Attr_induction.
  intros a Hr. apply repr_Node in Hr as (c & Hc & Hf & Hi & Ha).
  apply repr_Node. exists c. split; [apply Hsub; exact Hc|].
  split; [exact Hf|]. split.
  - clear Hc Ha. revert IHits.
    induction Hi as [|x t l ts Hxt _ IH]; intros IHits; constructor.
    + inversion IHits; subst. auto.
    + apply IH. inversion IHits; subst. assumption.
  - clear Hc Hi. revert IHats.
    induction Ha as [|[k x] [k' t] l ts [Hk Hxt] _ IH]; intros IHats;
      constructor.
    + inversion IHats; subst. split; [exact Hk|]. simpl in *. auto.
    + apply IH. inversion IHats; subst. assumption.
Qed.

(** An address spells out at most one attribute. *)
Lemma repr_functional (h : gmap nat cell) :
  forall t a t', repr h a t -> repr h a t' -> t = t'.
Proof.
  intros t.
  induction t as [f its ats IHits IHats] using Attr_induction.
  intros a [f' its' ats'] Hr Hr'.
  apply repr_Node in Hr as (c & Hc & Hf & Hi & Ha).
  apply repr_Node in Hr' as (c' & Hc' & Hf' & Hi' & Ha').
  rewrite Hc in Hc'. injection Hc' as <-.
  f_equal.
  - congruence.
  - clear Ha Ha' Hc. revert its' Hi' IHits.
    induction Hi as [|x t l ts Hxt _ IH]; intros its' Hi' IHits;
      inversion Hi'; subst; [reflexivity|].
    inversion IHits; subst. f_equal; [eauto | apply IH; assumption].
  - clear Hi Hi' Hc. revert ats' Ha' IHats.
    induction Ha as [|[k x] [k' t] l ts [Hk Hxt] _ IH]; intros ats' Ha' IHats;
      inversion Ha' as [|? [k'' t''] ? ? [Hk' Hxt'] Hrest]; subst;
      [reflexivity|].
    inversion IHats; subst. simpl in *. subst.
    f_equal; [f_equal; eauto | apply IH; assumption].
Qed.

(** *** copy.deepcopy *)

Lemma ext_refl (s : copying) : ext s s.
Proof. unfold ext. repeat split; auto. Qed.

Lemma ext_trans (s s' s'' : copying) : ext s s' -> ext s' s'' -> ext s s''.
Proof.
  intros (N1 & H1 & M1 & F1 & C1) (N2 & H2 & M2 & F2 & C2).
  unfold ext. repeat split.
  - lia.
  - auto.
  - auto.
  - intros x y Hxy. destruct (F2 x y Hxy) as [Hold|Hnew].
    + apply F1. exact Hold.
    + right. lia.
  - intros y c Hy. destruct (C2 y c Hy) as [Hold|[Hge Hch]].
    + destruct (C1 y c Hold) as [Hold'|[Hge Hch]]; [left; exact Hold'|].
      right. split; [exact Hge|].
      intros z Hz. destruct (Hch z Hz) as [x Hx]. exists x. auto.
    + right. split; [lia | exact Hch].
Qed.

Lemma memo_ok_weaken (h0 : gmap nat cell) (D D' : nat) (s : copying) :
  (D' <= D)%nat -> memo_ok h0 D s -> memo_ok h0 D' s.
Proof. intros HD H x y tx Hxy Hr Hd. apply (H x y tx Hxy Hr). lia. Qed.

Lemma memo_ok_step (h0 : gmap nat cell) (D : nat) (s s' : copying) :
  ext s s' -> memo_new h0 s s' -> memo_ok h0 D s -> memo_ok h0 D s'.
Proof.
  intros (_ & Hheap & _) Hnew Hok x y tx Hxy Hr Hd.
  destruct (Hnew x y tx Hxy Hr) as [Hold|Hdone]; [|exact Hdone].
  apply (repr_mono (cp_heap s)); [exact Hheap|].
  apply (Hok x y tx Hold Hr Hd).
Qed.

Lemma memo_new_trans (h0 : gmap nat cell) (s s' s'' : copying) :
  ext s' s'' -> memo_new h0 s s' -> memo_new h0 s' s'' -> memo_new h0 s s''.
Proof.
  intros (_ & Hheap & _) H1 H2 x y tx Hxy Hr.
  destruct (H2 x y tx Hxy Hr) as [Hold|Hdone]; [|right; exact Hdone].
  destruct (H1 x y tx Hold Hr) as [Hold'|Hdone]; [left; exact Hold'|].
  right. apply (repr_mono (cp_heap s')); [exact Hheap | exact Hdone].
Qed.

(** Copying a list of children, each of which the copier copies. *)
Lemma copy_all_copies (h0 : gmap nat cell)
    (cp : nat -> copying -> option (nat * copying)) (D : nat)
    (l : list nat) (ts : list Attr) :
  Forall2 (fun a t => repr h0 a t /\ (depth t <= D)%nat /\ copies h0 cp a t)
          l ts ->
  forall s, wf s ->
    (forall y c, h0 !! y = Some c -> cp_heap s !! y = Some c) ->
    memo_ok h0 D s ->
    exists l' s', copy_all cp l s = Some (l', s') /\ wf s' /\ ext s s' /\
      memo_ok h0 D s' /\ Forall2 (repr (cp_heap s')) l' ts /\
      (forall z, In z l' -> exists x, cp_memo s' !! x = Some z) /\
      memo_new h0 s s'.
Proof.
  induction 1 as [|a t l ts (Hr & Hd & Hcp) _ IH]; intros s Hwf Hsub Hok.
  - exists [], s. simpl.
    split; [reflexivity|]. split; [exact Hwf|]. split; [apply ext_refl|].
    split; [exact Hok|]. split; [constructor|]. split.
    + intros z [].
    + intros x y tx Hxy _. left. exact Hxy.
  - destruct (Hcp s Hwf Hsub (memo_ok_weaken h0 D (depth t) s Hd Hok))
      as (r & s1 & Hcall & Hwf1 & Hext1 & Hmemo1 & Hrepr1 & Hnew1).
    assert (Hsub1 : forall y c, h0 !! y = Some c -> cp_heap s1 !! y = Some c).
    { intros y c Hy. apply Hext1. apply Hsub. exact Hy. }
    destruct (IH s1 Hwf1 Hsub1 (memo_ok_step h0 D s s1 Hext1 Hnew1 Hok))
      as (l' & s2 & Hcall2 & Hwf2 & Hext2 & Hok2 & Hrepr2 & Hin2 & Hnew2).
    exists (r :: l'), s2. simpl. rewrite Hcall. simpl. rewrite Hcall2. simpl.
    split; [reflexivity|]. split; [exact Hwf2|].
    split; [apply (ext_trans s s1 s2); assumption|].
    split; [exact Hok2|]. split; [|split].
    + constructor; [|exact Hrepr2].
      apply (repr_mono (cp_heap s1)); [apply Hext2 | exact Hrepr1].
    + intros z [<-|Hz]; [|apply Hin2; exact Hz].
      exists a. apply Hext2. exact Hmemo1.
    + apply (memo_new_trans h0 s s1 s2); assumption.
Qed.

Lemma copy_all_attrs_eq (cp : nat -> copying -> option (nat * copying))
    (l : list (string * nat)) (s : copying) :
  copy_all_attrs cp l s =
  match copy_all cp (map snd l) s with
  | Some (l', s') => Some (combine (map fst l) l', s')
  | None => None
  end.
Proof.
  revert s. induction l as [|[k a] l IH]; intros s; simpl; [reflexivity|].
  destruct (cp a s) as [[a' s1]|]; simpl; [|reflexivity].
  rewrite IH. destruct (copy_all cp (map snd l) s1) as [[l' s2]|]; reflexivity.
Qed.

Lemma keyed_combine (h : gmap nat cell) (l : list (string * nat))
    (l' : list nat) (ats : list (string * Attr)) :
  map fst l = map fst ats ->
  Forall2 (repr h) l' (map snd ats) ->
  Forall2 (keyed h) (combine (map fst l) l') ats.
Proof.
  intros ->. revert l'. induction ats as [|[k t] ats IH]; intros l' H;
    inversion H; subst; simpl; constructor.
  - split; [reflexivity | assumption].
  - apply IH. assumption.
Qed.

Lemma Forall2_keyed_split (h : gmap nat cell) (l : list (string * nat))
    (ats : list (string * Attr)) :
  Forall2 (keyed h) l ats ->
  map fst l = map fst ats /\ Forall2 (repr h) (map snd l) (map snd ats).
Proof.
  induction 1 as [|[k a] [k' t] l ats [Hk Hr] _ [IH1 IH2]]; simpl.
  - split; [reflexivity | constructor].
  - simpl in *. subst. split; [f_equal; exact IH1 | constructor; assumption].
Qed.

Lemma Forall2_impl_in_r {A B} (R R' : A -> B -> Prop) (l : list A)
    (ts : list B) :
  Forall2 R l ts ->
  (forall a t, In t ts -> R a t -> R' a t) ->
  Forall2 R' l ts.
Proof.
  induction 1 as [|a t l ts Hat _ IH]; intros Himp; constructor.
  - apply Himp; [left; reflexivity | exact Hat].
  - apply IH. intros a' t' Hin. apply Himp. right. exact Hin.
Qed.

(** [copy.deepcopy] copies every object whose attribute tree is no deeper
    than the fuel. *)
Lemma deepcopy_copies (h0 : gmap nat cell) (fuel : nat) :
  forall a t, repr h0 a t -> (depth t <= fuel)%nat ->
              copies h0 (deepcopy fuel) a t.
Proof.
  induction fuel as [|fuel IH]; intros a t Hr Hd.
  - pose proof (depth_pos t). lia.
  - intros s Hwf Hsub Hok. simpl.
    destruct (cp_memo s !! a) as [a'|] eqn:Hmemo.
    + exists a', s. split; [reflexivity|]. split; [exact Hwf|].
      split; [apply ext_refl|]. split; [exact Hmemo|]. split.
      * apply (Hok a a' t Hmemo Hr). lia.
      * intros x y tx Hxy _. left. exact Hxy.
    + destruct t as [f its ats].
      pose proof Hr as Hr0.
      apply repr_Node in Hr as (c & Hc & Hf & Hi & Ha).
      rewrite (Hsub a c Hc). simpl.
      set (a' := cp_next s).
      set (s1 := {| cp_heap := cp_heap s; cp_next := S a';
                    cp_memo := <[a := a']> (cp_memo s) |}).
      pose proof Hwf as [Hwfh Hwfm].
      assert (Hwf1 : wf s1).
      { split; simpl.
        - intros y cy Hy. specialize (Hwfh y cy Hy). unfold a'. lia.
        - intros x y Hxy. apply lookup_insert_Some in Hxy as [[_ <-]|[_ Hxy]].
          + lia.
          + specialize (Hwfm x y Hxy). unfold a'. lia. }
      assert (Hext1 : ext s s1).
      { unfold ext; simpl. split; [unfold a'; lia|]. split; [auto|]. split.
        - intros x y Hxy. rewrite lookup_insert_ne; [exact Hxy|].
          intros <-. congruence.
        - split.
          + intros x y Hxy. apply lookup_insert_Some in Hxy as [[_ <-]|[_ Hxy]].
            * right. unfold a'. lia.
            * left. exact Hxy.
          + intros y cy Hy. left. exact Hy. }
      set (D := pred (depth (Node f its ats))).
      assert (Hok1 : memo_ok h0 D s1).
      { intros x y tx Hxy Hrx Hdx. simpl in Hxy. unfold D in Hdx.
        pose proof (depth_pos (Node f its ats)) as Hpos.
        apply lookup_insert_Some in Hxy as [[<- <-]|[_ Hxy]].
        - rewrite (repr_functional h0 _ _ _ Hrx Hr0) in Hdx. lia.
        - apply (Hok x y tx Hxy Hrx). lia. }
      destruct (depth_Node f its ats) as [Hdi Hda].
      assert (Hits : Forall2 (fun a t => repr h0 a t /\ (depth t <= D)%nat /\
                                          copies h0 (deepcopy fuel) a t)
                       (c_items c) its).
      { apply (Forall2_impl_in_r _ _ _ _ Hi). intros x t Hin Hxt.
        specialize (Hdi t Hin).
        split; [exact Hxt|]. split; [unfold D; lia|].
        apply IH; [exact Hxt | lia]. }
      destruct (Forall2_keyed_split h0 _ _ Ha) as [Hkeys Hvals].
      assert (Hats : Forall2 (fun a t => repr h0 a t /\ (depth t <= D)%nat /\
                                          copies h0 (deepcopy fuel) a t)
                       (map snd (c_attrs c)) (map snd ats)).
      { apply (Forall2_impl_in_r _ _ _ _ Hvals). intros x t Hin Hxt.
        apply in_map_iff in Hin as [kt [<- Hin]].
        specialize (Hda kt Hin).
        split; [exact Hxt|]. split; [unfold D; lia|].
        apply IH; [exact Hxt | lia]. }
      assert (Hsub1 : forall y cy, h0 !! y = Some cy ->
                                   cp_heap s1 !! y = Some cy) by exact Hsub.
      destruct (copy_all_copies h0 (deepcopy fuel) D _ _ Hits s1 Hwf1 Hsub1 Hok1)
        as (its' & s2 & Hcall2 & Hwf2 & Hext2 & Hok2 & Hrepr2 & Hin2 & Hnew2).
      rewrite Hcall2. simpl.
      assert (Hsub2 : forall y cy, h0 !! y = Some cy ->
                                   cp_heap s2 !! y = Some cy).
      { intros y cy Hy. apply Hext2. apply Hsub1. exact Hy. }
      destruct (copy_all_copies h0 (deepcopy fuel) D _ _ Hats s2 Hwf2 Hsub2 Hok2)
        as (vals' & s3 & Hcall3 & Hwf3 & Hext3 & Hok3 & Hrepr3 & Hin3 & Hnew3).
      rewrite copy_all_attrs_eq, Hcall3. simpl.
      set (new := {| c_fields := c_fields c; c_items := its';
                     c_attrs := combine (map fst (c_attrs c)) vals' |}).
      set (s4 := {| cp_heap := <[a' := new]> (cp_heap s3);
                    cp_next := cp_next s3; cp_memo := cp_memo s3 |}).
      assert (Hext13 : ext s1 s3) by (apply (ext_trans s1 s2 s3); assumption).
      assert (Hext03 : ext s s3) by (apply (ext_trans s s1 s3); assumption).
      assert (Hfree : cp_heap s3 !! a' = None).
      { destruct (cp_heap s3 !! a') as [c3|] eqn:E; [|reflexivity].
        destruct Hext13 as (_ & _ & _ & _ & Hcells).
        destruct (Hcells a' c3 E) as [Hold|[Hge _]]; simpl in *.
        - specialize (Hwfh a' c3 Hold). unfold a' in Hwfh. lia.
        - lia. }
      assert (Hheap34 : forall y cy, cp_heap s3 !! y = Some cy ->
                                     cp_heap s4 !! y = Some cy).
      { intros y cy Hy. simpl. rewrite lookup_insert_ne; [exact Hy|].
        intros <-. congruence. }
      exists a', s4. split; [reflexivity|].
      destruct Hwf3 as [Hwfh3 Hwfm3].
      destruct Hext03 as (N03 & H03 & M03 & F03 & C03).
      assert (Hchildren : forall z, In z (children new) ->
                                    exists x, cp_memo s3 !! x = Some z).
      { intros z Hz. unfold children, new in Hz. simpl in Hz.
        apply in_app_or in Hz as [Hz|Hz].
        - destruct (Hin2 z Hz) as [x Hx]. exists x. apply Hext3. exact Hx.
        - apply Hin3. apply in_map_iff in Hz as [[k v] [<- Hkv]].
          apply (in_combine_r _ _ _ _ Hkv). }
      split; [|split; [|split; [|split]]].
      * split; simpl.
        -- intros y cy Hy. apply lookup_insert_Some in Hy as [[<- _]|[_ Hy]].
           ++ destruct Hext13 as (N13 & _). simpl in N13. lia.
           ++ apply (Hwfh3 y cy Hy).
        -- exact Hwfm3.
      * unfold ext; simpl. split; [exact N03|]. split; [|split; [exact M03|split]].
        -- intros y cy Hy. apply Hheap34. apply H03. exact Hy.
        -- exact F03.
        -- intros y cy Hy. apply lookup_insert_Some in Hy as [[<- <-]|[_ Hy]].
           ++ right. split; [unfold a'; lia | exact Hchildren].
           ++ apply C03. exact Hy.
      * simpl. destruct Hext13 as (_ & _ & M13 & _). apply M13. simpl.
        apply lookup_insert_eq.
      * apply repr_Node. exists new. simpl.
        split; [apply lookup_insert_eq|]. split; [exact Hf|]. split.
        -- apply (Forall2_impl_in_r _ _ _ _ Hrepr2). intros x t _ Hxt.
           apply (repr_mono (cp_heap s2)); [|exact Hxt].
           intros y cy Hy. apply Hheap34. apply Hext3. exact Hy.
        -- apply keyed_combine; [exact Hkeys|].
           apply (Forall2_impl_in_r _ _ _ _ Hrepr3). intros x t _ Hxt.
           apply (repr_mono (cp_heap s3)); [exact Hheap34 | exact Hxt].
      * intros x y tx Hxy Hrx. simpl in Hxy.
        destruct (Hnew3 x y tx Hxy Hrx) as [Hold2|Hdone].
        2:{ right. apply (repr_mono (cp_heap s3)); [exact Hheap34|exact Hdone]. }
        destruct (Hnew2 x y tx Hold2 Hrx) as [Hold1|Hdone].
        2:{ right. apply (repr_mono (cp_heap s2)); [|exact Hdone].
            intros y' cy Hy. apply Hheap34. apply Hext3. exact Hy. }
        simpl in Hold1.
        apply lookup_insert_Some in Hold1 as [[<- <-]|[_ Hold]];
          [|left; exact Hold].
        right. rewrite (repr_functional h0 _ _ _ Hrx Hr0).
        apply repr_Node. exists new. simpl.
        split; [apply lookup_insert_eq|]. split; [exact Hf|]. split.
        -- apply (Forall2_impl_in_r _ _ _ _ Hrepr2). intros x t _ Hxt.
           apply (repr_mono (cp_heap s2)); [|exact Hxt].
           intros y cy Hy. apply Hheap34. apply Hext3. exact Hy.
        -- apply keyed_combine; [exact Hkeys|].
           apply (Forall2_impl_in_r _ _ _ _ Hrepr3). intros x t _ Hxt.
           apply (repr_mono (cp_heap s3)); [exact Hheap34 | exact Hxt].
Qed.

Lemma wf_store_lookup (st : store) (y : nat) (c : cell) :
  wf_store st -> heap st !! y = Some c -> (y < next st)%nat.
Proof. intros Hwf Hy. exact (Hwf y c Hy). Qed.

(** [copy.deepcopy(schema)] returns, given fuel for the depth of the schema,
    and what it returns is a fresh copy. *)
Lemma deepcopy_in_fresh (fuel : nat) (a : nat) (st : store) (t : Attr) :
  wf_store st -> repr (heap st) a t -> (depth t <= fuel)%nat ->
  exists r st', deepcopy_in fuel a st = Some (r, st') /\ fresh_copy st st' r t.
Proof.
  intros Hwf Hr Hd. unfold deepcopy_in.
  set (s0 := {| cp_heap := heap st; cp_next := next st; cp_memo := ∅ |}).
  assert (Hwf0 : wf s0).
  { split; simpl.
    - intros y c Hy. exact (wf_store_lookup st y c Hwf Hy).
    - intros x y Hxy. rewrite lookup_empty in Hxy. discriminate. }
  assert (Hok0 : memo_ok (heap st) (depth t) s0).
  { intros x y tx Hxy. simpl in Hxy. rewrite lookup_empty in Hxy.
    discriminate. }
  destruct (deepcopy_copies (heap st) fuel a t Hr Hd s0 Hwf0
              (fun y c H => H) Hok0)
    as (r & s' & Hcall & [Hwfh Hwfm] & (N & Hh & M & F & C) & Hmemo & Hrepr & _).
  rewrite Hcall. simpl. eexists r, _. split; [reflexivity|].
  assert (Hfresh : forall x y, cp_memo s' !! x = Some y ->
                               (next st <= y < cp_next s')%nat).
  { intros x y Hxy. split; [|exact (Hwfm x y Hxy)].
    destruct (F x y Hxy) as [Hold|Hge]; [|exact Hge].
    simpl in Hold. rewrite lookup_empty in Hold. discriminate. }
  unfold fresh_copy; simpl. split; [exact Hwf|].
  split; [intros y c Hy; exact (Hwfh y c Hy)|].
  split; [reflexivity|]. split; [exact Hh|]. split; [|split; [|split]].
  - intros y c Hy Hlt. destruct (C y c Hy) as [Hold|[Hge _]]; [exact Hold|].
    simpl in Hge. lia.
  - exact (Hfresh a r Hmemo).
  - intros y c Hy [Hlo _] z Hz.
    destruct (C y c Hy) as [Hold|[_ Hch]].
    + simpl in Hold. pose proof (wf_store_lookup st y c Hwf Hold). lia.
    + destruct (Hch z Hz) as [x Hx]. exact (Hfresh x z Hx).
  - exact Hrepr.
Qed.

(** Assigning to the object at [r] leaves alone every attribute that is
    shallower than the one [r] spells out. *)
Lemma repr_alter_other (h : gmap nat cell) (u : cell -> cell) (r : nat)
    (t0 : Attr) :
  repr h r t0 ->
  forall t a, (depth t < depth t0)%nat -> repr h a t -> repr (alter u r h) a t.
Proof.
  intros Hr0 t.
  induction t as [f its ats IHits IHats] using Attr_induction.
  intros a Hd Hr.
  assert (Hne : a <> r).
  { intros ->. rewrite (repr_functional h _ _ _ Hr Hr0) in Hd. lia. }
  destruct (depth_Node f its ats) as [Hdi Hda].
  apply repr_Node in Hr as (c & Hc & Hf & Hi & Ha).
  apply repr_Node. exists c.
  split; [rewrite lookup_alter_ne by congruence; exact Hc|].
  split; [exact Hf|]. split.
  - apply (Forall2_impl_in_r _ _ _ _ Hi). intros x t Hin Hxt.
    rewrite Forall_forall in IHits.
    apply IHits; [apply list_elem_of_In; exact Hin | | exact Hxt].
    specialize (Hdi t Hin). lia.
  - apply (Forall2_impl_in_r _ _ _ _ Ha). intros [k x] [k' t] Hin [Hk Hxt].
    rewrite Forall_forall in IHats. split; [exact Hk|]. simpl in Hxt |- *.
    apply (IHats (k', t)); [apply list_elem_of_In; exact Hin | | exact Hxt].
    specialize (Hda (k', t) Hin). cbn [snd] in Hda |- *. lia.
Qed.

(** Assigning to the fields or to [attrs] of a fresh copy gives a fresh copy
    of the changed attribute, as long as its children are children it had. *)
Lemma fresh_copy_alter (st st' : store) (r : nat) (t : Attr)
    (u : cell -> cell) (f' : Fields) (its' : list Attr)
    (ats' : list (string * Attr)) :
  fresh_copy st st' r t ->
  (forall c, heap st' !! r = Some c ->
     c_fields (u c) = f' /\
     Forall2 (repr (heap st')) (c_items (u c)) its' /\
     Forall2 (keyed (heap st')) (c_attrs (u c)) ats' /\
     forall z, In z (children (u c)) -> In z (children c)) ->
  (forall t', In t' its' -> (depth t' < depth t)%nat) ->
  (forall kt, In kt ats' -> (depth (snd kt) < depth t)%nat) ->
  fresh_copy st
    {| heap := alter u r (heap st'); next := next st';
       schemas := schemas st' |} r (Node f' its' ats').
Proof.
  intros (Hwf0 & Hwf & Hs & Hmono & Hback & Hr & Hown & Hrepr) Hu Hdi Hda.
  assert (Hrc : exists c, heap st' !! r = Some c).
  { destruct t. apply repr_Node in Hrepr as (c & Hc & _). exists c. exact Hc. }
  destruct Hrc as [c Hc]. destruct (Hu c Hc) as (Hf & Hi & Ha & Hch).
  unfold fresh_copy; simpl. split; [exact Hwf0|].
  split; [|split; [exact Hs|split; [|split; [|split; [exact Hr|split]]]]].
  - intros y cy Hy. simpl in Hy.
    apply lookup_alter_Some in Hy as [(<- & c0 & Hc0 & _)|[_ Hy]].
    + exact (Hwf r c0 Hc0).
    + exact (Hwf y cy Hy).
  - intros y cy Hy. rewrite lookup_alter_ne.
    + apply Hmono. exact Hy.
    + intros <-. pose proof (wf_store_lookup st r cy Hwf0 Hy). lia.
  - intros y cy Hy Hlt. apply (Hback y cy); [|exact Hlt].
    rewrite lookup_alter_ne in Hy by lia. exact Hy.
  - intros y cy Hy Hrange z Hz.
    apply lookup_alter_Some in Hy as [(<- & c0 & Hc0 & ->)|[_ Hy]].
    + rewrite Hc in Hc0. injection Hc0 as <-.
      apply (Hown r c Hc Hrange). apply Hch. exact Hz.
    + apply (Hown y cy Hy Hrange z Hz).
  - apply repr_Node. exists (u c).
    split; [rewrite lookup_alter_eq, Hc; reflexivity|].
    split; [exact Hf|]. split.
    + apply (Forall2_impl_in_r _ _ _ _ Hi). intros x t' Hin Hxt.
      apply (repr_alter_other _ u r t Hrepr); [apply Hdi; exact Hin | exact Hxt].
    + apply (Forall2_impl_in_r _ _ _ _ Ha). intros [k x] [k' t'] Hin [Hk Hxt].
      split; [exact Hk|]. simpl in Hxt |- *.
      apply (repr_alter_other _ u r t Hrepr); [|exact Hxt].
      apply (Hda (k', t') Hin).
Qed.

(** *** Ref.resolve *)

(** [Ref.resolve] returns a fresh copy of the registry entry with [register]
    set to false. *)
Lemma Ref_resolve_fresh (fuel : nat) (n : string) (st : store) (a : nat)
    (f : Fields) (its : list Attr) (ats : list (string * Attr)) :
  wf_store st ->
  get_schema st n = Some a ->
  repr (heap st) a (Node f its ats) ->
  (depth (Node f its ats) <= fuel)%nat ->
  exists r st', Ref_resolve fuel n st = Some (Ok (r, st')) /\
    fresh_copy st st' r (Node (set_register false f) its ats).
Proof.
  intros Hwf Hget Hr Hd. unfold Ref_resolve. rewrite Hget.
  destruct (deepcopy_in_fresh fuel a st _ Hwf Hr Hd)
    as (r & st1 & Hcopy & Hfresh).
  rewrite Hcopy. simpl. eexists r, _. split; [reflexivity|].
  unfold set_fields.
  pose proof Hfresh as (_ & _ & _ & _ & _ & _ & _ & Hrepr).
  apply repr_Node in Hrepr as (c & Hc & Hf & Hi & Ha).
  destruct (depth_Node f its ats) as [Hdi Hda].
  apply (fresh_copy_alter st st1 r (Node f its ats)); try assumption.
  intros c' Hc'. rewrite Hc in Hc'. injection Hc' as <-. simpl.
  split; [rewrite Hf; reflexivity|]. split; [exact Hi|]. split; [exact Ha|].
  intros z Hz. exact Hz.
Qed.

Lemma reach_owned (h : gmap nat cell) (lo hi : nat) (a x : nat) :
  owned h lo hi -> (lo <= a < hi)%nat -> reach h a x -> (lo <= x < hi)%nat.
Proof.
  intros Hown Ha Hreach. induction Hreach as [a|a c b x Hc Hb _ IH].
  - exact Ha.
  - apply IH. apply (Hown a c Hc Ha). apply list_elem_of_In. exact Hb.
Qed.

Lemma Forall2_impl_in_l {A B} (R R' : A -> B -> Prop) (l : list A)
    (ts : list B) :
  Forall2 R l ts ->
  (forall a t, In a l -> R a t -> R' a t) ->
  Forall2 R' l ts.
Proof.
  induction 1 as [|a t l ts Hat _ IH]; intros Himp; constructor.
  - apply Himp; [left; reflexivity | exact Hat].
  - apply IH. intros a' t' Hin. apply Himp. right. exact Hin.
Qed.

(** A heap that agrees with [h] on a range that owns its children spells out
    the same attributes there. *)
Lemma repr_agree_owned (h h' : gmap nat cell) (lo hi : nat) :
  owned h lo hi ->
  (forall y, (lo <= y < hi)%nat -> h' !! y = h !! y) ->
  forall t a, (lo <= a < hi)%nat -> repr h a t -> repr h' a t.
Proof.
  intros Hown Hagree t.
  induction t as [f its ats IHits IHats] using Attr_induction.
  intros a Ha Hr. apply repr_Node in Hr as (c & Hc & Hf & Hi & Hat).
  apply repr_Node. exists c.
  split; [rewrite Hagree by exact Ha; exact Hc|]. split; [exact Hf|].
  assert (Hch : forall z, In z (children c) -> (lo <= z < hi)%nat)
    by (apply (Hown a c Hc Ha)).
  split.
  - clear Hat Hc. revert IHits Hch. unfold children.
    induction Hi as [|x t l ts Hxt _ IH]; intros IHits Hch; constructor.
    + inversion IHits; subst.
      match goal with H : forall a, _ -> repr h a t -> _ |- _ => apply H end;
        [|exact Hxt].
      apply Hch. left. reflexivity.
    + apply IH; [inversion IHits; subst; assumption|].
      intros z Hz. apply Hch. simpl. right. exact Hz.
  - assert (Hch' : forall z, In z (map snd (c_attrs c)) -> (lo <= z < hi)%nat).
    { intros z Hz. apply Hch. unfold children. apply in_or_app. right.
      exact Hz. }
    clear Hi Hc Hch. revert IHats Hch'.
    induction Hat as [|[k x] [k' t] l ts [Hk Hxt] _ IH]; intros IHats Hch;
      constructor.
    + split; [exact Hk|]. simpl in Hxt |- *. inversion IHats; subst.
      match goal with
      | H : forall a, _ -> repr h a _ -> _ |- _ => apply H
      end; [|exact Hxt].
      apply Hch. left. reflexivity.
    + apply IH; [inversion IHats; subst; assumption|].
      intros z Hz. apply Hch. simpl. right. exact Hz.
Qed.

(** Two fresh copies made one after the other, and the store they were
    copied from, after an assignment to any object of the first copy: the
    second copy and the original still spell out what they did, and no
    object of the original store has changed.  The same after an assignment
    to any object of the second copy. *)
Lemma fresh_copies_independent (st st1 st2 : store) (r1 r2 : nat)
    (t1 t2 : Attr) :
  fresh_copy st st1 r1 t1 ->
  fresh_copy st1 st2 r2 t2 ->
  repr (heap st2) r1 t1 /\
  (forall x, reach (heap st2) r1 x -> (next st <= x < next st1)%nat) /\
  (forall x, reach (heap st2) r2 x -> (next st1 <= x < next st2)%nat) /\
  (forall x c, reach (heap st2) r1 x ->
     repr (<[x := c]> (heap st2)) r2 t2 /\
     forall y cy, heap st !! y = Some cy ->
                  <[x := c]> (heap st2) !! y = Some cy) /\
  (forall x c, reach (heap st2) r2 x ->
     repr (<[x := c]> (heap st2)) r1 t1 /\
     forall y cy, heap st !! y = Some cy ->
                  <[x := c]> (heap st2) !! y = Some cy).
Proof.
  intros (Hwf0 & Hwf1 & Hs1 & Hmono1 & Hback1 & Hr1 & Hown1 & Hrepr1)
         (_ & Hwf2 & Hs2 & Hmono2 & Hback2 & Hr2 & Hown2 & Hrepr2).
  assert (Hnext : (next st <= next st1 <= next st2)%nat) by lia.
  assert (Hown12 : owned (heap st2) (next st) (next st1)).
  { intros y c Hy Hrange. apply (Hown1 y c); [|exact Hrange].
    apply Hback2; [exact Hy | lia]. }
  assert (Hreach1 : forall x, reach (heap st2) r1 x ->
                              (next st <= x < next st1)%nat).
  { intros x. apply reach_owned; assumption. }
  assert (Hreach2 : forall x, reach (heap st2) r2 x ->
                              (next st1 <= x < next st2)%nat).
  { intros x. apply reach_owned; assumption. }
  assert (Hrepr12 : repr (heap st2) r1 t1).
  { apply (repr_mono (heap st1)); assumption. }
  assert (Hold : forall x c y cy, (next st <= x)%nat ->
                   heap st !! y = Some cy ->
                   <[x := c]> (heap st2) !! y = Some cy).
  { intros x c y cy Hx Hy.
    pose proof (wf_store_lookup st y cy Hwf0 Hy).
    rewrite lookup_insert_ne by lia. apply Hmono2. apply Hmono1. exact Hy. }
  split; [exact Hrepr12|]. split; [exact Hreach1|]. split; [exact Hreach2|].
  split.
  - intros x c Hx. specialize (Hreach1 x Hx). split.
    + apply (repr_agree_owned (heap st2) _ (next st1) (next st2));
        try assumption.
      intros y Hy. rewrite lookup_insert_ne by lia. reflexivity.
    + intros y cy Hy. apply Hold; [lia | exact Hy].
  - intros x c Hx. specialize (Hreach2 x Hx). split.
    + apply (repr_agree_owned (heap st2) _ (next st) (next st1));
        try assumption.
      intros y Hy. rewrite lookup_insert_ne by lia. reflexivity.
    + intros y cy Hy. apply Hold; [lia | exact Hy].
Qed.

(** C7.  For a registered name whose entry spells out an attribute, and
    fuel for its depth, [Ref.resolve] returns; what it returns spells out
    the same attribute with [register] false and every other field as it
    is in the entry, at an address that was free, and leaves the registry
    and every object of the store as they were.
    Resolving twice gives two copies that share no object with each other or
    with the store; after any assignment to any object of one copy, the
    other copy and the registry entry spell out what they did before. *)
Theorem Ref_resolve_independent (fuel : nat) (n : string) (st : store)
    (a : nat) (f : Fields) (its : list Attr) (ats : list (string * Attr)) :
  wf_store st ->
  get_schema st n = Some a ->
  repr (heap st) a (Node f its ats) ->
  (depth (Node f its ats) <= fuel)%nat ->
  exists f', unregistered f f' /\
  exists r1 st1 r2 st2,
    Ref_resolve fuel n st = Some (Ok (r1, st1)) /\
    Ref_resolve fuel n st1 = Some (Ok (r2, st2)) /\
    repr (heap st1) r1 (Node f' its ats) /\
    repr (heap st2) r1 (Node f' its ats) /\
    repr (heap st2) r2 (Node f' its ats) /\
    heap st !! r1 = None /\ heap st1 !! r2 = None /\ r1 <> r2 /\
    get_schema st1 n = Some a /\ get_schema st2 n = Some a /\
    repr (heap st1) a (Node f its ats) /\
    repr (heap st2) a (Node f its ats) /\
    (forall x, reach (heap st2) r1 x ->
       ~ reach (heap st2) r2 x /\ heap st !! x = None) /\
    (forall x, reach (heap st2) r2 x -> heap st !! x = None) /\
    (forall x c, reach (heap st2) r1 x ->
       repr (<[x := c]> (heap st2)) r2 (Node f' its ats) /\
       repr (<[x := c]> (heap st2)) a (Node f its ats)) /\
    (forall x c, reach (heap st2) r2 x ->
       repr (<[x := c]> (heap st2)) r1 (Node f' its ats) /\
       repr (<[x := c]> (heap st2)) a (Node f its ats)).
Proof.
  intros Hwf Hget Hr Hd.
  destruct (Ref_resolve_fresh fuel n st a f its ats Hwf Hget Hr Hd)
    as (r1 & st1 & Hres1 & Hfresh1).
  pose proof Hfresh1 as (_ & Hwf1 & Hs1 & Hmono1 & Hback1 & Hr1 & Hown1 & Hrepr1).
  assert (Hget1 : get_schema st1 n = Some a).
  { unfold get_schema in *. rewrite Hs1. exact Hget. }
  assert (Hra1 : repr (heap st1) a (Node f its ats)).
  { apply (repr_mono (heap st)); assumption. }
  destruct (Ref_resolve_fresh fuel n st1 a f its ats Hwf1 Hget1 Hra1 Hd)
    as (r2 & st2 & Hres2 & Hfresh2).
  pose proof Hfresh2 as (_ & Hwf2 & Hs2 & Hmono2 & Hback2 & Hr2 & Hown2 & Hrepr2).
  destruct (fresh_copies_independent st st1 st2 r1 r2 _ _ Hfresh1 Hfresh2)
    as (Hrepr12 & Hreach1 & Hreach2 & Hmut1 & Hmut2).
  assert (Hfree : forall x, (next st <= x)%nat -> heap st !! x = None).
  { intros x Hx. destruct (heap st !! x) as [c|] eqn:E; [|reflexivity].
    pose proof (wf_store_lookup st x c Hwf E). lia. }
  assert (Hfree1 : forall x, (next st1 <= x)%nat -> heap st1 !! x = None).
  { intros x Hx. destruct (heap st1 !! x) as [c|] eqn:E; [|reflexivity].
    pose proof (wf_store_lookup st1 x c Hwf1 E). lia. }
  exists (set_register false f). split; [reflexivity|].
  exists r1, st1, r2, st2.
  split; [exact Hres1|]. split; [exact Hres2|]. split; [exact Hrepr1|].
  split; [exact Hrepr12|]. split; [exact Hrepr2|].
  split; [apply Hfree; lia|]. split; [apply Hfree1; lia|]. split; [lia|].
  split; [exact Hget1|].
  split; [unfold get_schema in *; rewrite Hs2; exact Hget1|].
  split; [exact Hra1|].
  split; [apply (repr_mono (heap st1)); assumption|].
  split; [|split; [|split]].
  - intros x Hx. specialize (Hreach1 x Hx). split.
    + intros Hx2. specialize (Hreach2 x Hx2). lia.
    + apply Hfree. lia.
  - intros x Hx. specialize (Hreach2 x Hx). apply Hfree. lia.
  - intros x c Hx. destruct (Hmut1 x c Hx) as [Hother Hkeep].
    split; [exact Hother|].
    apply (repr_mono (heap st)); [exact Hkeep | exact Hr].
  - intros x c Hx. destruct (Hmut2 x c Hx) as [Hother Hkeep].
    split; [exact Hother|].
    apply (repr_mono (heap st)); [exact Hkeep | exact Hr].
Qed.

Lemma example_store_wf : wf_store example_store.
Proof. apply (bool_decide_unpack _). vm_compute. exact I. Qed.

Lemma example_store_repr : repr (heap example_store) 2 example_schema.
Proof.
  apply repr_Node. eexists. split; [reflexivity|]. split; [reflexivity|].
  split; [constructor|].
  repeat constructor; simpl; apply repr_Node; eexists;
    (split; [reflexivity|]); (split; [reflexivity|]); split; constructor.
Qed.

(** Resolving [Ref("S")] twice in the example store, whose entry has
    [register] true. *)
Lemma Ref_resolve_independent_witness :
  exists r1 st1 r2 st2,
    Ref_resolve 2 "S" example_store = Some (Ok (r1, st1)) /\
    Ref_resolve 2 "S" st1 = Some (Ok (r2, st2)) /\
    r1 <> r2 /\
    repr (heap st2) r1
      (Node (with_dict_flags false false
               (Attribute_init Dict "S" None false [] false None))
            (items example_schema) (attrs example_schema)) /\
    repr (heap st2) 2 example_schema /\
    register (fields example_schema) = true.
Proof.
  destruct (Ref_resolve_independent 2 "S" example_store 2
              (fields example_schema) (items example_schema)
              (attrs example_schema)
              example_store_wf eq_refl example_store_repr
              (le_n 2))
    as (f' & Hf' & r1 & st1 & r2 & st2 & H1 & H2 & _ & H4 & _ & _ & _ & H8
        & _ & _ & _ & H12 & _).
  unfold unregistered in Hf'. subst f'.
  exists r1, st1, r2, st2.
  split; [exact H1|]. split; [exact H2|]. split; [exact H8|].
  split; [exact H4|]. split; [exact H12 | reflexivity].
Defined.

(** *** Patch.resolve *)

Lemma without_key_absent (k : string) (ats : list (string * Attr)) :
  ~ In k (map fst ats) -> without_key k ats = ats.
Proof.
  unfold without_key. induction ats as [|[k' t] ats IH]; simpl; [reflexivity|].
  intros Hnot. destruct (String.eqb k k') eqn:E.
  - apply String.eqb_eq in E. subst. exfalso. apply Hnot. left. reflexivity.
  - simpl. f_equal. apply IH. intros Hin. apply Hnot. right. exact Hin.
Qed.

(** [del attrs[k]] on the keys of a [Dict] with distinct keys. *)
Lemma dict_del_keyed (h : gmap nat cell) (k : string)
    (l : list (string * nat)) (ats : list (string * Attr)) :
  Forall2 (keyed h) l ats ->
  NoDup (map fst ats) ->
  dict_in k ats = true ->
  exists l', dict_del k l = Some l' /\
    Forall2 (keyed h) l' (without_key k ats) /\
    forall z, In z (map snd l') -> In z (map snd l).
Proof.
  induction 1 as [|[k0 x] [k1 t] l ats [Hk Hxt] Hrest IH]; intros Hnd Hin.
  - discriminate.
  - simpl in Hk. subst k1. simpl.
    apply NoDup_cons in Hnd as [Hnotin Hnd]. simpl in Hnotin.
    unfold dict_in in Hin. simpl in Hin.
    unfold without_key. simpl.
    destruct (String.eqb k k0) eqn:E.
    + apply String.eqb_eq in E. subst k0. simpl.
      exists l. split; [reflexivity|]. split.
      * fold (without_key k ats). rewrite without_key_absent; [exact Hrest|].
        intros Hk. apply Hnotin. apply list_elem_of_In. exact Hk.
      * intros z Hz. right. exact Hz.
    + simpl. destruct (IH Hnd Hin) as (l' & Hdel & Hkeyed & Hsub).
      rewrite Hdel. exists ((k0, x) :: l'). split; [reflexivity|]. split.
      * constructor; [split; [reflexivity | exact Hxt] | exact Hkeyed].
      * intros z [<-|Hz]; [left; reflexivity | right; apply Hsub; exact Hz].
Qed.

(** C8.  For a registered [Dict] schema with distinct keys that has the
    field [k], and fuel for its depth, resolving a [Patch] from its name to
    [newname] with the one operation [("rm", {"name": k})] returns; what it
    returns spells out a schema named [newname], with every other field of
    its own as the source has it and with the fields of the source except
    [k], at an address that was free; the registry is
    the same and the source still spells out all it did. *)
Theorem Patch_resolve_rm (fuel : nat) (n newname k : string) (st : store)
    (a : nat) (f : Fields) (its : list Attr) (ats : list (string * Attr)) :
  wf_store st ->
  get_schema st n = Some a ->
  repr (heap st) a (Node f its ats) ->
  cls_of f = Dict ->
  NoDup (map fst ats) ->
  dict_in k ats = true ->
  (depth (Node f its ats) <= fuel)%nat ->
  exists f', renamed newname f f' /\
  exists r st',
    Patch_resolve fuel
      {| p_name := n; p_newname := newname; p_patches := [OpRm k];
         p_register := false |} st = Some (Ok (r, st')) /\
    repr (heap st') r (Node f' its (without_key k ats)) /\
    dict_in k (without_key k ats) = false /\
    (forall k', k' <> k ->
       dict_get k' (without_key k ats) = dict_get k' ats) /\
    heap st !! r = None /\
    schemas st' = schemas st /\
    repr (heap st') a (Node f its ats) /\
    (forall y c, heap st !! y = Some c -> heap st' !! y = Some c).
Proof.
  intros Hwf Hget Hr Hcls Hnd Hin Hd. unfold Patch_resolve. simpl.
  rewrite Hget.
  pose proof Hr as Hr'. apply repr_Node in Hr' as (c0 & Hc0 & Hf0 & _).
  unfold isinstance_Dict. rewrite Hc0, Hf0, Hcls. simpl.
  destruct (deepcopy_in_fresh fuel a st _ Hwf Hr Hd)
    as (r & st1 & Hcopy & Hfresh1).
  rewrite Hcopy. simpl.
  destruct (depth_Node f its ats) as [Hdi Hda].
  (* schema.name = self.newname *)
  assert (Hfresh2 : fresh_copy st (set_fields r (set_name newname) st1) r
                      (Node (set_name newname f) its ats)).
  { pose proof Hfresh1 as (_ & _ & _ & _ & _ & _ & _ & Hrepr).
    apply repr_Node in Hrepr as (c & Hc & Hf & Hi & Ha).
    apply (fresh_copy_alter st st1 r (Node f its ats)); try assumption.
    intros c' Hc'. rewrite Hc in Hc'. injection Hc' as <-. simpl.
    split; [rewrite Hf; reflexivity|]. split; [exact Hi|]. split; [exact Ha|].
    intros z Hz. exact Hz. }
  set (st2 := set_fields r (set_name newname) st1) in *.
  pose proof Hfresh2 as (_ & _ & _ & _ & _ & _ & _ & Hrepr2).
  apply repr_Node in Hrepr2 as (c2 & Hc2 & Hf2 & Hi2 & Ha2).
  unfold apply_operation. rewrite Hc2.
  destruct (dict_del_keyed (heap st2) k (c_attrs c2) ats Ha2 Hnd Hin)
    as (d & Hdel & Hkeyed & Hsub).
  rewrite Hdel. simpl.
  exists (set_name newname f). split; [reflexivity|].
  eexists r, _. split; [reflexivity|].
  (* del schema.attrs[patch['name']] *)
  assert (Hfresh3 : fresh_copy st (set_attrs r d st2) r
                      (Node (set_name newname f) its (without_key k ats))).
  { apply (fresh_copy_alter st st2 r (Node (set_name newname f) its ats));
      try assumption.
    - intros c' Hc'. rewrite Hc2 in Hc'. injection Hc' as <-. simpl.
      split; [exact Hf2|]. split; [exact Hi2|]. split; [exact Hkeyed|].
      unfold children. simpl. intros z Hz.
      apply in_app_or in Hz as [Hz|Hz]; apply in_or_app;
        [left; exact Hz | right; apply Hsub; exact Hz].
    - intros kt Hkt. apply Hda. unfold without_key in Hkt.
      apply filter_In in Hkt as [Hkt _]. exact Hkt. }
  destruct Hfresh3 as (_ & Hwf3 & Hs3 & Hmono3 & _ & Hr3 & _ & Hrepr3).
  split; [exact Hrepr3|]. split; [|split; [|split; [|split; [|split]]]].
  - unfold dict_in, without_key. clear. induction ats as [|[k' t] ats IH];
      simpl; [reflexivity|].
    destruct (String.eqb k k') eqn:E; simpl; [exact IH|].
    rewrite E. exact IH.
  - intros k' Hne. unfold without_key. clear -Hne.
    induction ats as [|[k0 t] ats IH]; simpl; [reflexivity|].
    destruct (String.eqb k k0) eqn:E; simpl.
    + apply String.eqb_eq in E. subst k0.
      rewrite (String_eqb_neq k' k Hne). exact IH.
    + destruct (String.eqb k' k0); [reflexivity | exact IH].
  - destruct (heap st !! r) as [c|] eqn:E; [|reflexivity].
    pose proof (wf_store_lookup st r c Hwf E). lia.
  - simpl in Hs3 |- *. exact Hs3.
  - apply (repr_mono (heap st)); [exact Hmono3 | exact Hr].
  - exact Hmono3.
Qed.

(** [Patch("S", "S2", ("rm", {"name": "b"}))] in the example store. *)
Lemma Patch_resolve_rm_witness :
  exists r st',
    Patch_resolve 2
      {| p_name := "S"; p_newname := "S2"; p_patches := [OpRm "b"];
         p_register := false |} example_store = Some (Ok (r, st')) /\
    repr (heap st') r
      (Node (with_dict_flags false false
               (Attribute_init Dict "S2" (Some "S") false [] true None)) []
            [("a", mk_Int "a" true None [])]) /\
    repr (heap st') 2 example_schema.
Proof.
  assert (Hnd : NoDup (map fst (attrs example_schema))).
  { apply (bool_decide_unpack _). vm_compute. exact I. }
  destruct (Patch_resolve_rm 2 "S" "S2" "b" example_store 2
              (fields example_schema) (items example_schema)
              (attrs example_schema)
              example_store_wf eq_refl example_store_repr eq_refl Hnd eq_refl
              (le_n 2))
    as (f' & Hf' & r & st' & H1 & H2 & _ & _ & _ & _ & H7 & _).
  unfold renamed in Hf'. subst f'.
  exists r, st'. split; [exact H1|]. split; [exact H2 | exact H7].
Defined.

(** * Further properties of clean *)

Lemma has_Int_item (f : Fields) (its : list Attr)
    (ats : list (string * Attr)) (c : Attr) :
  In c its -> has_Int c = true -> has_Int (Node f its ats) = true.
Proof.
  intros Hin Hc. simpl.
  assert (existsb has_Int its = true)
    by (apply existsb_exists; exists c; split; assumption).
  rewrite H. rewrite orb_true_r. reflexivity.
Qed.

Lemma has_Int_attr (f : Fields) (its : list Attr)
    (ats : list (string * Attr)) (k : string) (c : Attr) :
  In (k, c) ats -> has_Int c = true -> has_Int (Node f its ats) = true.
Proof.
  intros Hin Hc. simpl.
  assert (existsb (fun kc : string * Attr =>
                     match kc with (_, c) => has_Int c end) ats = true)
    by (apply existsb_exists; exists (k, c); split; assumption).
  rewrite H. apply orb_true_r.
Qed.

(** What a child raises, its parent may raise. *)
Lemma clean_raises_item (f : Fields) (its : list Attr)
    (ats : list (string * Attr)) (c : Attr) (e : exn) :
  In c its -> clean_raises c e -> clean_raises (Node f its ats) e.
Proof.
  intros Hin [H|[He Hc]]; [left; exact H|].
  right. split; [exact He | exact (has_Int_item f its ats c Hin Hc)].
Qed.

Lemma clean_raises_attr (f : Fields) (its : list Attr)
    (ats : list (string * Attr)) (k : string) (c : Attr) (e : exn) :
  In (k, c) ats -> clean_raises c e -> clean_raises (Node f its ats) e.
Proof.
  intros Hin [H|[He Hc]]; [left; exact H|].
  right. split; [exact He | exact (has_Int_attr f its ats k c Hin Hc)].
Qed.

Lemma clean_raises_spec (a : Attr) (v : value) (e : exn) :
  clean a v = Raise e -> clean_raises a e.
Proof.
  revert v e.
  induction a as [f its ats IHits IHats] using Attr_induction.
  intros v e.
  set (a := Node f its ats).
  assert (Herr : forall err, clean_raises a (ExError err))
    by (intros err; left; eexists; reflexivity).
  change (clean a v) with
    (match cls_of f with
     | Any => Attribute_clean f
     | Str | Dir | File | IPAddr => Str_clean f
     | Bool => Bool_clean f
     | Int => Int_clean f
     | List => List_clean f (map (fun i => (fields i, clean i)) its)
     | Dict =>
         Dict_clean f
           (map (fun kc : string * Attr =>
                   match kc with (k, c) => (k, (fields c, clean c)) end) ats)
     end v).
  assert (Henum : forall x ex, EnumMixin_clean f x = Raise ex ->
                               clean_raises a ex).
  { intros x ex. unfold EnumMixin_clean, raise_Error.
    destruct (enum f); [|discriminate].
    destruct (forallb _ _); [discriminate|].
    intros H. injection H as <-. apply Herr. }
  assert (Hstr : Str_clean f v = Raise e -> clean_raises a e).
  { unfold Str_clean.
    destruct (EnumMixin_clean f v) as [x|ex] eqn:E; simpl.
    - destruct (is_None x && negb (required f)); [discriminate|].
      destruct (negb (isinstance_str x)); [|discriminate].
      unfold raise_Error. intros H. injection H as <-. apply Herr.
    - intros H. injection H as <-. exact (Henum v ex E). }
  destruct (cls_of f) eqn:Hcls; try exact Hstr.
  - discriminate.
  - unfold Bool_clean, raise_Error.
    destruct (is_None v && negb (required f)); [discriminate|].
    destruct (negb (isinstance_bool v)); [|discriminate].
    intros H. injection H as <-. apply Herr.
  - unfold Int_clean, raise_Error.
    destruct (is_None v && negb (required f)); [discriminate|].
    destruct (negb (isinstance_int v)); [|discriminate].
    destruct v; try (intros H; injection H as <-; apply Herr).
    destruct (isdigit s); [|intros H; injection H as <-; apply Herr].
    destruct (int_of_str s); [discriminate|].
    intros H. injection H as <-. right. split; [reflexivity|].
    unfold a. simpl. rewrite Hcls. reflexivity.
  - unfold List_clean.
    destruct (EnumMixin_clean f v) as [x|ex] eqn:E; simpl.
    2:{ intros H. injection H as <-. exact (Henum v ex E). }
    destruct (is_None x && negb (required f)); [discriminate|].
    destruct x; try (unfold raise_Error; intros H; injection H as <-;
                     apply Herr).
    destruct (map (fun i => (fields i, clean i)) its) as [|ch0 chs] eqn:Hch;
      [discriminate|].
    rewrite <- Hch. clear Hch ch0 chs.
    assert (Hcand : forall cs, (forall c, In c cs -> In c its) ->
              forall x slot found ex,
              List_clean_candidates
                (map (fun i => (fields i, clean i)) cs) x slot found
              = Raise ex -> clean_raises a ex).
    { induction cs as [|c cs IH]; intros Hsub x slot found ex; simpl.
      - discriminate.
      - assert (Hc : In c its) by (apply Hsub; left; reflexivity).
        rewrite Forall_forall in IHits.
        pose proof (IHits c ltac:(apply list_elem_of_In; exact Hc) x) as IHc.
        destruct (clean c x) as [r|[err|es|o]] eqn:Hcx.
        + apply IH. intros c' Hc'. apply Hsub. right. exact Hc'.
        + discriminate.
        + intros H. injection H as <-.
          exact (clean_raises_item f its ats c _ Hc (IHc _ eq_refl)).
        + intros H. injection H as <-.
          exact (clean_raises_item f its ats c _ Hc (IHc _ eq_refl)). }
    assert (Hel : forall vs index ex,
              List_clean_elements f
                (map (fun i => (fields i, clean i)) its) index vs
              = Raise ex -> clean_raises a ex).
    { induction vs as [|x vs IHvs]; intros index ex; simpl; [discriminate|].
      destruct (List_clean_candidates _ x x FoundTrue) as [[slot found]|ex']
        eqn:Hc; simpl.
      - destruct found as [|err].
        + destruct (List_clean_elements f _ (S index) vs) as [rest|ex'] eqn:Hr;
            simpl; [discriminate|].
          intros H. injection H as <-. exact (IHvs _ _ Hr).
        + unfold raise_Error. intros H. injection H as <-. apply Herr.
      - intros H. injection H as <-.
        exact (Hcand its (fun c Hc => Hc) _ _ _ _ Hc). }
    destruct (List_clean_elements f _ 0 l) as [rs|ex] eqn:Hr; simpl;
      [discriminate|].
    intros H. injection H as <-. exact (Hel _ _ _ Hr).
  - unfold Dict_clean.
    set (ch := map (fun kc : string * Attr =>
                      match kc with (k, c) => (k, (fields c, clean c)) end)
                   ats).
    assert (Hkeys : forall snap data ex,
              Dict_clean_keys f ch snap data = Raise ex ->
              clean_raises a ex).
    { induction snap as [|[key x] snap IHs]; intros data ex; simpl;
        [discriminate|].
      match goal with
      | |- (if ?b then _ else _) = _ -> _ => destruct b
      end.
      - unfold raise_Error. intros H. injection H as <-. apply Herr.
      - unfold ch at 1.
        rewrite (dict_get_map (B:=child) (fun c => (fields c, clean c))).
        destruct (dict_get key ats) as [c|] eqn:Hc; simpl; [|apply IHs].
        destruct (clean c x) as [r|ex'] eqn:Hcx; simpl; [apply IHs|].
        intros H. injection H as <-.
        rewrite Forall_forall in IHats.
        assert (Hin : In (key, c) ats).
        { clear -Hc.
          induction ats as [|[k0 c0] ats IH]; simpl in *; [discriminate|].
          destruct (String.eqb key k0) eqn:E.
          - apply String.eqb_eq in E. injection Hc as ->. left. congruence.
          - right. apply IH. exact Hc. }
        apply (clean_raises_attr f its ats key c _ Hin).
        apply (IHats (key, c) ltac:(apply list_elem_of_In; exact Hin) x).
        exact Hcx. }
    assert (Hattrs : forall data ex,
              Dict_clean_attrs ch data = Raise ex -> clean_raises a ex).
    { intros data ex Hex. left. revert data ex Hex. unfold ch.
      clear.
      induction ats as [|[k c] ats IH]; intros data ex; simpl;
        [discriminate|].
      destruct (required (fields c) && negb (dict_in (name (fields c)) data)).
      - unfold raise_Error. intros H. injection H as <-.
        eexists; reflexivity.
      - destruct (negb (dict_in (name (fields c)) data)
                  && has_default (fields c)); apply IH. }
    destruct (if is_None v && negb (required f) then VDict [] else v)
      as [| | | | |l|d|] eqn:Hv;
      try (unfold raise_Error; intros H; injection H as <-; apply Herr).
    destruct (Dict_clean_keys f ch d d) as [d1|ex] eqn:Hd1; simpl.
    + destruct (negb (update f)); [|discriminate].
      destruct (Dict_clean_attrs ch d1) as [d2|ex] eqn:Hd2; simpl;
        [discriminate|].
      intros H. injection H as <-. exact (Hattrs _ _ Hd2).
    + intros H. injection H as <-. exact (Hkeys _ _ _ Hd1).
Qed.

(** X1.  Whatever the attribute tree and the value, [clean] returns, or
    raises the single-field [Error], or, when an [Int] occurs in the tree,
    lets out the [ValueError] of [int]; it never raises [ValidationErrors]
    or another exception.  The [ValueError] does get out: through
    [Int.clean] on a superscript two, and through the [List.clean] around
    it, which catches [Error] only. *)
Theorem clean_exceptions (a : Attr) (v : value) :
  match clean a v with
  | Ok _ => True
  | Raise (ExError _) => True
  | Raise (ExOther ValueError) => has_Int a = true
  | Raise _ => False
  end /\
  clean (mk_Int "i" true None []) (VStr (String (ascii_of_nat 178) "")) =
    Raise (ExOther ValueError) /\
  clean (mk_List "l" false None [] None [mk_Int "i" true None []])
        (VList [VStr (String (ascii_of_nat 178) "")]) =
    Raise (ExOther ValueError).
Proof.
  split; [|split; reflexivity].
  destruct (clean a v) as [r|e] eqn:E; [exact I|].
  destruct (clean_raises_spec a v e E) as [[err ->]|[-> Hint]];
    [exact I | exact Hint].
Qed.

Lemma EnumMixin_clean_spec (f : Fields) (v r : value) :
  EnumMixin_clean f v = Ok r <-> r = v /\ enum_allows (enum f) v.
Proof.
  unfold EnumMixin_clean, enum_allows.
  destruct (enum f) as [en|].
  - destruct (forallb (fun x => py_in x en) _) eqn:E.
    + split.
      * intros H. injection H as <-. split; [reflexivity|].
        intros l Hl x Hx. injection Hl as <-.
        rewrite forallb_forall in E. specialize (E x Hx).
        apply existsb_exists in E. exact E.
      * intros [-> _]. reflexivity.
    + split; [discriminate|]. intros [_ H]. exfalso.
      assert (forallb (fun x => py_in x en)
                (match v with VList xs => xs | _ => [v] end) = true);
        [|congruence].
      apply forallb_forall. intros x Hx. apply existsb_exists.
      exact (H en eq_refl x Hx).
  - split.
    + intros H. injection H as <-. split; [reflexivity | discriminate].
    + intros [-> _]. reflexivity.
Qed.

(** X2.  [Str.clean] (also of [Dir], [File] and [IPAddr]) returns [r] on [v]
    exactly when the enum, if there is one, holds [v], and either [v] is a
    string and [r] is [v], or [v] is [None], the attribute is not required
    and [r] is the default.  The enum is checked first: with an enum that
    does not hold [None], [None] is rejected even when the attribute is not
    required.  Every rejection is an [Error] under the attribute's name. *)
Theorem Str_clean_accepts_exactly (f : Fields) (its : list Attr)
    (ats : list (string * Attr)) (v : value) :
  Str_like (cls_of f) ->
  (forall r, clean (Node f its ats) v = Ok r <->
     enum_allows (enum f) v /\
     ((exists s, v = VStr s /\ r = v) \/
      (v = VNone /\ required f = false /\ r = default f))) /\
  (forall e, clean (Node f its ats) v = Raise e ->
     exists m, e = ExError (mkError (name f) m EINVAL) /\
       (m = InvalidChoice v \/ m = Text "Not a string")).
Proof.
  intros Hcls. simpl.
  assert (Heq : match cls_of f with
                | Any => Attribute_clean f
                | Str | Dir | File | IPAddr => Str_clean f
                | Bool => Bool_clean f
                | Int => Int_clean f
                | List => List_clean f (map (fun i => (fields i, clean i)) its)
                | Dict =>
                    Dict_clean f
                      (map (fun kc : string * Attr =>
                              match kc with
                              | (k, c) => (k, (fields c, clean c))
                              end) ats)
                end = Str_clean f).
  { destruct Hcls as [ -> | [ -> | [ -> | -> ]]]; reflexivity. }
  rewrite Heq. clear Heq. unfold Str_clean. split.
  - intros r.
    destruct (EnumMixin_clean f v) as [x|e] eqn:E; simpl.
    + apply EnumMixin_clean_spec in E as [-> Hall]. split.
      * intros H. split; [exact Hall|].
        destruct v; simpl in H; destruct (required f); simpl in H;
          try discriminate; injection H as <-;
          try (left; eexists; split; reflexivity);
          right; repeat split; reflexivity.
      * intros [_ [ (s & -> & ->) | (-> & Hreq & ->) ]]; simpl.
        -- reflexivity.
        -- rewrite Hreq. reflexivity.
    + split; [discriminate|]. intros [Hall _]. exfalso.
      assert (EnumMixin_clean f v = Ok v)
        by (apply EnumMixin_clean_spec; split; [reflexivity | exact Hall]).
      congruence.
  - intros e. unfold EnumMixin_clean, raise_Error.
    destruct (enum f) as [en|].
    + destruct (forallb _ _); simpl.
      * destruct (is_None v && negb (required f)); [discriminate|].
        destruct (negb (isinstance_str v)); [|discriminate].
        intros H. injection H as <-. eexists. split; [reflexivity|].
        right. reflexivity.
      * intros H. injection H as <-. eexists. split; [reflexivity|].
        left. reflexivity.
    + simpl. destruct (is_None v && negb (required f)); [discriminate|].
      destruct (negb (isinstance_str v)); [|discriminate].
      intros H. injection H as <-. eexists. split; [reflexivity|].
      right. reflexivity.
Qed.

(** A [Str] that is not required, with an enum: [None] is rejected. *)
Lemma Str_clean_accepts_exactly_witness :
  clean (mk_Str "s" false (Some (VStr "a")) [] (Some [VStr "a"; VStr "b"]))
        VNone =
  Raise (ExError (mkError "s" (InvalidChoice VNone) EINVAL)) /\
  clean (mk_Str "s" false (Some (VStr "a")) [] (Some [VStr "a"; VStr "b"]))
        (VStr "b") = Ok (VStr "b").
Proof.
  split; [reflexivity|].
  apply (proj1 (Str_clean_accepts_exactly
                  (with_enum (Some [VStr "a"; VStr "b"])
                     (Attribute_init Str "s" None false [] false
                        (Some (VStr "a"))))
                  [] [] (VStr "b") (or_introl eq_refl))).
  split.
  - intros l Hl x Hx. injection Hl as <-.
    destruct Hx as [<-|[]]. exists (VStr "b"). split; [|reflexivity].
    right. left. reflexivity.
  - left. exists "b". split; reflexivity.
Defined.

(** X3.  [Bool.clean] returns [r] on [v] exactly when [v] is a boolean and
    [r] is [v], or [v] is [None], the attribute is not required and [r] is
    the default; every other value, the integers 0 and 1 among them, raises
    the [Error] "Not a boolean" under the attribute's name. *)
Theorem Bool_clean_accepts_exactly (f : Fields) (its : list Attr)
    (ats : list (string * Attr)) (v : value) :
  cls_of f = Bool ->
  (forall r, clean (Node f its ats) v = Ok r <->
     (exists b, v = VBool b /\ r = v) \/
     (v = VNone /\ required f = false /\ r = default f)) /\
  (forall e, clean (Node f its ats) v = Raise e ->
     e = ExError (mkError (name f) (Text "Not a boolean") EINVAL)) /\
  (forall z, clean (Node f its ats) (VInt z) =
     Raise (ExError (mkError (name f) (Text "Not a boolean") EINVAL))).
Proof.
  intros Hcls. simpl. rewrite Hcls. unfold Bool_clean, raise_Error.
  split; [|split].
  - intros r. split.
    + destruct v; simpl; destruct (required f); simpl; intros H;
        try discriminate; injection H as <-;
        try (left; eexists; split; reflexivity);
        right; repeat split; reflexivity.
    + intros [ (b & -> & ->) | (-> & Hreq & ->) ]; simpl.
      * reflexivity.
      * rewrite Hreq. reflexivity.
  - intros e.
    destruct (is_None v && negb (required f)); [discriminate|].
    destruct (negb (isinstance_bool v)); [|discriminate].
    intros H. injection H as <-. reflexivity.
  - intros z. reflexivity.
Qed.

(** The integer 1 is not a boolean for [Bool.clean]. *)
Lemma Bool_clean_accepts_exactly_witness :
  clean (mk_Bool "b" false None []) (VInt 1) =
  Raise (ExError (mkError "b" (Text "Not a boolean") EINVAL)).
Proof.
  exact (proj2 (proj2 (Bool_clean_accepts_exactly
                         (Attribute_init Bool "b" None false [] false None)
                         [] [] VNone eq_refl)) 1).
Defined.

(** ** List.clean on scalars *)

Lemma in_place_scalar (c : cls) (v : value) : scalar v -> in_place c v = false.
Proof. destruct c, v; simpl; tauto. Qed.

(** The candidates on a scalar element when all of them accept it: the slot
    ends up with what the last one returned. *)
Lemma candidates_all_accept (its : list Attr) (v slot r : value)
    (found : found_t) (cl : Attr) :
  scalar v ->
  (forall c, In c its -> exists r', clean c v = Ok r') ->
  last its = Some cl ->
  clean cl v = Ok r ->
  List_clean_candidates (map (fun i => (fields i, clean i)) its) v slot found =
  Ok (r, FoundTrue).
Proof.
  intros Hsc. revert slot found.
  induction its as [|c its IH]; intros slot found Hall Hlast Hcl.
  - discriminate.
  - simpl. destruct (Hall c (or_introl eq_refl)) as [r' Hr']. rewrite Hr'.
    rewrite (in_place_scalar _ v Hsc).
    destruct its as [|c' its'].
    + simpl in Hlast. injection Hlast as <-. rewrite Hcl in Hr'.
      injection Hr' as <-. reflexivity.
    + apply IH; [|exact Hlast | exact Hcl].
      intros c0 Hc0. apply Hall. right. exact Hc0.
Qed.

(** The candidates on a scalar element that one of them rejects: [found] is
    the rejection of the first that rejects. *)
Lemma candidates_first_rejection (pre post : list Attr) (c : Attr)
    (v slot : value) (found : found_t) (e : Error) :
  scalar v ->
  (forall c', In c' pre -> exists r', clean c' v = Ok r') ->
  clean c v = Raise (ExError e) ->
  exists slot',
    List_clean_candidates
      (map (fun i => (fields i, clean i)) (pre ++ c :: post)) v slot found =
    Ok (slot', FoundError e).
Proof.
  intros Hsc. revert slot found.
  induction pre as [|c0 pre IH]; intros slot found Hall Hrej; simpl.
  - rewrite Hrej. eexists; reflexivity.
  - destruct (Hall c0 (or_introl eq_refl)) as [r' Hr']. rewrite Hr'.
    rewrite (in_place_scalar _ v Hsc). apply IH; [|exact Hrej].
    intros c' Hc'. apply Hall. right. exact Hc'.
Qed.

(** What the candidates do on a scalar element, read backwards. *)
Lemma candidates_result (its : list Attr) (v slot slot' : value)
    (found found' : found_t) :
  scalar v ->
  List_clean_candidates (map (fun i => (fields i, clean i)) its) v slot found =
  Ok (slot', found') ->
  (its = [] /\ slot' = slot /\ found' = found) \/
  (found' = FoundTrue /\
   (forall c, In c its -> exists r', clean c v = Ok r') /\
   exists cl, last its = Some cl /\ clean cl v = Ok slot') \/
  (exists e, found' = FoundError e).
Proof.
  intros Hsc. revert slot found.
  induction its as [|c its IH]; intros slot found; simpl.
  - intros H. injection H as <- <-. left. repeat split; reflexivity.
  - destruct (clean c v) as [r|[e|es|o]] eqn:Hc; try discriminate.
    + rewrite (in_place_scalar _ v Hsc). intros H.
      destruct (IH _ _ H) as [(-> & -> & ->)|[(-> & Hall & cl & Hl & Hcl)|He]].
      * right. left. split; [reflexivity|]. split.
        -- intros c0 [<-|[]]. eexists; exact Hc.
        -- exists c. split; [reflexivity | exact Hc].
      * right. left. split; [reflexivity|]. split.
        -- intros c0 [<-|Hc0]; [eexists; exact Hc | apply Hall; exact Hc0].
        -- exists cl. split; [|exact Hcl].
           destruct its; [discriminate | exact Hl].
      * right. right. exact He.
    + intros H. injection H as <- <-. right. right. eexists; reflexivity.
Qed.

(** X4.  For a [List] without an enum and with candidates, on a list of
    scalars: [List.clean] returns exactly when every candidate accepts every
    element, and each element of the result is what the last candidate
    returned for it. *)
Theorem List_clean_all_candidates (f : Fields) (its : list Attr)
    (ats : list (string * Attr)) (vs rs : list value) (cl : Attr) :
  cls_of f = List ->
  enum f = None ->
  last its = Some cl ->
  Forall scalar vs ->
  (clean (Node f its ats) (VList vs) = Ok (VList rs) <->
   Forall2 (fun v r => (forall c, In c its -> exists r', clean c v = Ok r') /\
                       clean cl v = Ok r) vs rs).
Proof.
  intros Hcls Henum Hlast Hsc. simpl. rewrite Hcls.
  unfold List_clean, EnumMixin_clean. rewrite Henum. simpl.
  destruct its as [|c0 its0] eqn:Hits; [discriminate|]. rewrite <- Hits in *.
  assert (Hmap : map (fun i => (fields i, clean i)) its <> [])
    by (rewrite Hits; discriminate).
  destruct (map (fun i => (fields i, clean i)) its) as [|ch chs] eqn:Hch;
    [congruence|]. rewrite <- Hch. clear Hch Hmap ch chs.
  assert (Hel : forall index,
    List_clean_elements f (map (fun i => (fields i, clean i)) its) index vs =
    Ok rs <->
    Forall2 (fun v r => (forall c, In c its -> exists r', clean c v = Ok r') /\
                        clean cl v = Ok r) vs rs).
  { clear Hits. revert rs. induction Hsc as [|v vs Hv _ IH]; intros rs index.
    - simpl. split.
      + intros H. injection H as <-. constructor.
      + intros H. inversion H. reflexivity.
    - simpl. split.
      + destruct (List_clean_candidates _ v v FoundTrue) as [[slot found]|e]
          eqn:Hc; simpl; [|discriminate].
        destruct (candidates_result its v v slot FoundTrue found Hv Hc)
          as [(-> & _)|[(-> & Hall & cl' & Hl & Hcl)|[e ->]]].
        * discriminate.
        * destruct (List_clean_elements f _ (S index) vs) as [rest|e] eqn:Hr;
            simpl; [|discriminate].
          intros H. injection H as <-. constructor.
          -- split; [exact Hall|]. congruence.
          -- apply (IH rest (S index)). exact Hr.
        * discriminate.
      + intros H. inversion H as [|? r ? rest [Hall Hcl] Hrest]; subst.
        rewrite (candidates_all_accept its v v r FoundTrue cl Hv Hall Hlast Hcl).
        simpl. apply (IH rest (S index)) in Hrest. rewrite Hrest. reflexivity. }
  specialize (Hel 0%nat).
  destruct (List_clean_elements f _ 0 vs) as [rs'|e]; simpl.
  - split.
    + intros H. injection H as <-. apply Hel. reflexivity.
    + intros H. apply Hel in H. injection H as <-. reflexivity.
  - split; [discriminate|]. intros H. apply Hel in H. discriminate.
Qed.

(** A list of a string and an integer candidate: the digit string passes
    both and comes out as the integer. *)
Lemma List_clean_all_candidates_witness :
  clean (mk_List "l" false None [] None
           [mk_Str "s" false None [] None; mk_Int "i" false None []])
        (VList [VStr "5"; VStr "12"]) = Ok (VList [VInt 5; VInt 12]).
Proof.
  apply (proj2 (List_clean_all_candidates
                  (with_enum None
                     (Attribute_init List "l" None false [] false
                        (Some (VList []))))
                  [mk_Str "s" false None [] None; mk_Int "i" false None []]
                  [] [VStr "5"; VStr "12"] [VInt 5; VInt 12]
                  (mk_Int "i" false None []) eq_refl eq_refl eq_refl
                  ltac:(repeat constructor))).
  repeat constructor;
    try (intros c [<-|[<-|[]]]; eexists; reflexivity).
Defined.

Lemma List_clean_elements_app (f : Fields) (ch : list child) (index : nat)
    (good rest : list value) (rs : list value) :
  List_clean_elements f ch index good = Ok rs ->
  List_clean_elements f ch index (good ++ rest) =
  (rest' ← List_clean_elements f ch (index + length good) rest;
   Ok (rs ++ rest')%list).
Proof.
  revert index rs. induction good as [|v good IH]; intros index rs; simpl.
  - intros H. injection H as <-. rewrite Nat.add_0_r.
    destruct (List_clean_elements f ch index rest); reflexivity.
  - destruct (List_clean_candidates ch v v FoundTrue) as [[slot found]|e];
      simpl; [|discriminate].
    destruct found; [|discriminate].
    destruct (List_clean_elements f ch (S index) good) as [rs0|e] eqn:Hg;
      simpl; [|discriminate].
    intros H. injection H as <-.
    rewrite (IH (S index) rs0 Hg).
    replace (S index + length good)%nat with (index + S (length good))%nat
      by lia.
    destruct (List_clean_elements f ch (index + S (length good)) rest);
      reflexivity.
Qed.

(** X5.  The failure of [List.clean] names the first element that some
    candidate rejects, by its index, and carries the rejection of the first
    candidate that rejects it: for a list of scalars that starts with
    elements every candidate accepts, followed by an element that the
    candidates before [c] accept and [c] rejects with [e]. *)
Theorem List_clean_names_first_bad_element (f : Fields)
    (pre post : list Attr) (c : Attr) (ats : list (string * Attr))
    (good rest : list value) (bad : value) (e : Error) :
  cls_of f = List ->
  enum f = None ->
  Forall scalar good -> scalar bad ->
  (forall v c', In v good -> In c' (pre ++ c :: post) ->
                exists r, clean c' v = Ok r) ->
  (forall c', In c' pre -> exists r, clean c' bad = Ok r) ->
  clean c bad = Raise (ExError e) ->
  clean (Node f (pre ++ c :: post) ats) (VList (good ++ bad :: rest)) =
  Raise (ExError (mkError (name f) (ItemNotValid (length good) e) EINVAL)).
Proof.
  intros Hcls Henum Hgood Hbad Hacc Hpre Hrej. simpl. rewrite Hcls.
  unfold List_clean, EnumMixin_clean. rewrite Henum. simpl.
  set (its := (pre ++ c :: post)%list) in *.
  assert (Hne : its <> []) by (unfold its; destruct pre; discriminate).
  destruct (map (fun i => (fields i, clean i)) its) as [|ch chs] eqn:Hch.
  { destruct its; [congruence | discriminate]. }
  rewrite <- Hch. clear Hch ch chs.
  assert (Hlast : exists cl, last its = Some cl).
  { destruct (last its) eqn:E; [eexists; reflexivity|].
    apply last_None in E. congruence. }
  destruct Hlast as [cl Hlast].
  assert (Hcl : In cl its).
  { apply list_elem_of_In. apply last_Some_elem_of. exact Hlast. }
  assert (Hrs : exists rs, List_clean_elements f
                  (map (fun i => (fields i, clean i)) its) 0 good = Ok rs).
  { generalize 0%nat. clear -Hgood Hacc Hlast Hcl.
    induction Hgood as [|v good Hv _ IH]; intros index.
    - eexists; reflexivity.
    - simpl. destruct (Hacc v cl (or_introl eq_refl) Hcl) as [r Hr].
      rewrite (candidates_all_accept its v v r FoundTrue cl Hv); try assumption.
      + simpl. destruct (IH (fun v' c' Hv' => Hacc v' c' (or_intror Hv'))
                           (S index)) as [rs Hrs].
        rewrite Hrs. eexists; reflexivity.
      + intros c' Hc'. apply Hacc; [left; reflexivity | exact Hc']. }
  destruct Hrs as [rs Hrs].
  rewrite (List_clean_elements_app f _ 0 good (bad :: rest) rs Hrs). simpl.
  destruct (candidates_first_rejection pre post c bad bad FoundTrue e
              Hbad Hpre Hrej) as [slot' Hc].
  fold its in Hc. rewrite Hc. simpl. reflexivity.
Qed.

(** The second element is neither an integer nor a digit string. *)
Lemma List_clean_names_first_bad_element_witness :
  clean (mk_List "l" false None [] None [mk_Int "i" true None []])
        (VList [VInt 1; VStr "x"; VInt 3]) =
  Raise (ExError (mkError "l"
                    (ItemNotValid 1 (mkError "i" (Text "Not an integer") EINVAL))
                    EINVAL)).
Proof.
  apply (List_clean_names_first_bad_element
           (with_enum None
              (Attribute_init List "l" None false [] false (Some (VList []))))
           [] [] (mk_Int "i" true None []) [] [VInt 1] [VInt 3] (VStr "x"));
    try reflexivity.
  - repeat constructor.
  - intros v c' [<-|[]] [<-|[]]. eexists; reflexivity.
  - intros c' [].
Defined.

(** * Further properties of Dict.clean *)

Lemma dict_set_keys_present {A} (k : string) (v : A) (d : list (string * A)) :
  dict_in k d = true -> map fst (dict_set k v d) = map fst d.
Proof.
  unfold dict_in. induction d as [|[k0 v0] d IH]; simpl; [discriminate|].
  destruct (String.eqb k k0) eqn:E; simpl.
  - apply String.eqb_eq in E. subst. reflexivity.
  - intros H. rewrite IH by exact H. reflexivity.
Qed.

Lemma dict_set_keys_absent {A} (k : string) (v : A) (d : list (string * A)) :
  dict_in k d = false -> map fst (dict_set k v d) = (map fst d ++ [k])%list.
Proof.
  unfold dict_in. induction d as [|[k0 v0] d IH]; simpl; [reflexivity|].
  destruct (String.eqb k k0) eqn:E; simpl; [discriminate|].
  intros H. rewrite IH by exact H. reflexivity.
Qed.

Lemma dict_get_In {A} (k : string) (v : A) (d : list (string * A)) :
  NoDup (map fst d) -> In (k, v) d -> dict_get k d = Some v.
Proof.
  induction d as [|[k0 v0] d IH]; simpl; [tauto|].
  intros Hnd [H|H].
  - injection H as -> ->. rewrite String.eqb_refl. reflexivity.
  - apply NoDup_cons in Hnd as [Hnotin Hnd].
    destruct (String.eqb k k0) eqn:E.
    + apply String.eqb_eq in E. subst k0. exfalso. apply Hnotin.
      apply list_elem_of_In. apply (in_map fst d (k, v)). exact H.
    + apply IH; assumption.
Qed.

Lemma dict_in_keys {A} (k : string) (d : list (string * A)) :
  dict_in k d = true <-> In k (map fst d).
Proof.
  unfold dict_in. induction d as [|[k0 v0] d IH]; simpl.
  - split; [discriminate | tauto].
  - destruct (String.eqb k k0) eqn:E.
    + apply String.eqb_eq in E. subst. split; [left; reflexivity | reflexivity].
    + rewrite IH. split; [right; assumption|].
      intros [->|H]; [|exact H]. rewrite String.eqb_refl in E. discriminate.
Qed.

(** The loop over the supplied keys keeps the keys and their order. *)
Lemma Dict_clean_keys_order (f : Fields) (ch : list (string * child))
    (snap data out : list (string * value)) :
  (forall k v, In (k, v) snap -> dict_in k data = true) ->
  Dict_clean_keys f ch snap data = Ok out ->
  map fst out = map fst data.
Proof.
  revert data. induction snap as [|[key v] snap IH]; intros data Hin; simpl.
  - intros H. injection H as <-. reflexivity.
  - match goal with
    | |- (if ?b then _ else _) = _ -> _ => destruct b; [discriminate|]
    end.
    destruct (dict_get key ch) as [[fc cc]|].
    + destruct (cc v) as [r|e]; simpl; [|discriminate].
      intros H. rewrite (IH (dict_set key r data)).
      * apply dict_set_keys_present. apply (Hin key v). left. reflexivity.
      * intros k' v' Hk'. rewrite dict_in_set_present.
        -- apply (Hin k' v'). right. exact Hk'.
        -- apply (Hin key v). left. reflexivity.
      * exact H.
    + intros H. apply (IH data); [|exact H].
      intros k' v' Hk'. apply (Hin k' v'). right. exact Hk'.
Qed.

(** What the loop over the supplied keys leaves under each key. *)
Lemma Dict_clean_keys_values (f : Fields) (ats : list (string * Attr))
    (snap data out : list (string * value)) :
  NoDup (map fst snap) ->
  Dict_clean_keys f
    (map (fun kc : string * Attr =>
            match kc with (k, c) => (k, (fields c, clean c)) end) ats)
    snap data = Ok out ->
  (forall k, ~ In k (map fst snap) -> dict_get k out = dict_get k data) /\
  (forall k v, In (k, v) snap ->
     match dict_get k ats with
     | Some c => exists r, clean c v = Ok r /\ dict_get k out = Some r
     | None => additional_attrs f = true /\ dict_get k out = dict_get k data
     end).
Proof.
  revert data. induction snap as [|[key v] snap IH]; intros data Hnd; simpl.
  - intros H. injection H as <-. split; [reflexivity | tauto].
  - apply NoDup_cons in Hnd as [Hnotin Hnd].
    assert (Hkey : ~ In key (map fst snap)).
    { intros H. apply Hnotin. apply list_elem_of_In. exact H. }
    assert (Hin : @dict_in child key
                    (map (fun kc : string * Attr =>
                            match kc with (k, c) => (k, (fields c, clean c)) end)
                         ats) = dict_in key ats).
    { unfold dict_in.
      rewrite (dict_get_map (B:=child) (fun c => (fields c, clean c))).
      destruct (dict_get key ats); reflexivity. }
    rewrite Hin.
    rewrite (dict_get_map (B:=child) (fun c => (fields c, clean c))).
    destruct (negb (additional_attrs f) && negb (dict_in key ats)) eqn:Hgate;
      [discriminate|].
    destruct (dict_get key ats) as [c|] eqn:Hc; simpl.
    + destruct (clean c v) as [r|e] eqn:Hr; simpl; [|discriminate].
      intros H. destruct (IH _ Hnd H) as [Hother Hsnap]. split.
      * intros k Hk. rewrite Hother by tauto. rewrite dict_get_set.
        rewrite String_eqb_neq; [reflexivity|]. intros ->. tauto.
      * intros k v' [Heq|Hkv].
        -- injection Heq as <- <-. rewrite Hc. exists r. split; [exact Hr|].
           rewrite Hother by exact Hkey. rewrite dict_get_set, String.eqb_refl.
           reflexivity.
        -- specialize (Hsnap k v' Hkv).
           destruct (dict_get k ats); [exact Hsnap|].
           destruct Hsnap as [Hadd Hget]. split; [exact Hadd|].
           rewrite Hget, dict_get_set. rewrite String_eqb_neq; [reflexivity|].
           intros ->. apply Hkey. apply (in_map fst snap (key, v')). exact Hkv.
    + intros H. destruct (IH _ Hnd H) as [Hother Hsnap]. split.
      * intros k Hk. apply Hother. tauto.
      * intros k v' [Heq|Hkv].
        -- injection Heq as <- <-. rewrite Hc. split.
           ++ unfold dict_in in Hgate. rewrite Hc in Hgate. simpl in Hgate.
              destruct (additional_attrs f); [reflexivity | discriminate].
           ++ apply Hother. exact Hkey.
        -- exact (Hsnap k v' Hkv).
Qed.

(** The loop over the declared attributes only appends: what was there keeps
    its place and its value, and every key appended is the name of a declared
    attribute that has a default. *)
Lemma Dict_clean_attrs_appends (ats : list (string * Attr))
    (data out : list (string * value)) :
  Dict_clean_attrs
    (map (fun kc : string * Attr =>
            match kc with (k, c) => (k, (fields c, clean c)) end) ats) data =
  Ok out ->
  (forall k, dict_in k data = true -> dict_get k out = dict_get k data) /\
  exists added, map fst out = (map fst data ++ added)%list /\
    forall k, In k added ->
      exists c, In c (map snd ats) /\ name (fields c) = k /\
                has_default (fields c) = true /\ dict_in k data = false.
Proof.
  revert data. induction ats as [|[k0 c] ats IH]; intros data; simpl.
  - intros H. injection H as <-. split; [reflexivity|].
    exists []. rewrite app_nil_r. split; [reflexivity | intros k []].
  - destruct (required (fields c) && negb (dict_in (name (fields c)) data));
      [discriminate|].
    destruct (dict_in (name (fields c)) data) eqn:Hin; simpl.
    + intros H. destruct (IH _ H) as [Hkeep (added & Hkeys & Hadded)].
      split; [exact Hkeep|]. exists added. split; [exact Hkeys|].
      intros k Hk. destruct (Hadded k Hk) as (c' & Hc' & ? & ? & ?).
      exists c'. repeat split; auto.
    + destruct (has_default (fields c)) eqn:Hd.
      * intros H. destruct (IH _ H) as [Hkeep (added & Hkeys & Hadded)].
        split.
        -- intros k Hk. rewrite Hkeep.
           ++ rewrite dict_get_set.
              destruct (String.eqb k (name (fields c))) eqn:E; [|reflexivity].
              apply String.eqb_eq in E. subst k. congruence.
           ++ rewrite dict_in_set, Hk. apply orb_true_r.
        -- exists (name (fields c) :: added). split.
           ++ rewrite Hkeys, dict_set_keys_absent by exact Hin.
              rewrite <- app_assoc. reflexivity.
           ++ intros k [<-|Hk].
              ** exists c. repeat split; auto.
              ** destruct (Hadded k Hk) as (c' & Hc' & Hn & Hdef & Habs).
                 exists c'. repeat split; auto.
                 rewrite dict_in_set in Habs.
                 apply orb_false_elim in Habs as [_ Habs]. exact Habs.
      * intros H. destruct (IH _ H) as [Hkeep (added & Hkeys & Hadded)].
        split; [exact Hkeep|]. exists added. split; [exact Hkeys|].
        intros k Hk. destruct (Hadded k Hk) as (c' & Hc' & ? & ? & ?).
        exists c'. repeat split; auto.
Qed.

(** X6.  [Dict.clean] in [update] mode: when every supplied key is let
    through, it returns whatever declared fields are missing, required or
    not, and the returned mapping has exactly the keys of the input, in the
    same order: no default is filled in. *)
Theorem Dict_clean_update_mode (f : Fields) (its : list Attr)
    (ats : list (string * Attr)) (d : list (string * value)) :
  cls_of f = Dict ->
  update f = true ->
  supplied_ok f ats d ->
  exists o, clean (Node f its ats) (VDict d) = Ok (VDict o) /\
            map fst o = map fst d.
Proof.
  intros Hcls Hupd Hok. simpl. rewrite Hcls. unfold Dict_clean. simpl.
  rewrite Hupd. simpl.
  destruct (Dict_clean_keys_returns f ats d d Hok) as [o Ho].
  rewrite Ho. simpl. exists o. split; [reflexivity|].
  refine (Dict_clean_keys_order f _ d d o _ Ho).
  intros k v. apply dict_in_In.
Qed.

(** A partial update that leaves out the required field. *)
Lemma Dict_clean_update_mode_witness :
  exists o,
    clean (mk_Dict "d" false None [] false true
             [mk_Int "a" true None [];
              mk_Str "b" false (Some (VStr "z")) [] None])
          (VDict []) = Ok (VDict o) /\
    map fst o = [].
Proof.
  apply (Dict_clean_update_mode
           (with_dict_flags false true
              (Attribute_init Dict "d" None false [] false None))
           []
           [("a", mk_Int "a" true None []);
            ("b", mk_Str "b" false (Some (VStr "z")) [] None)]
           [] eq_refl eq_refl).
  intros k v [].
Defined.

(** X7.  When [Dict.clean] returns, the returned mapping starts with the
    keys of the input in their order, followed only by names of declared
    attributes that have a default and were absent (none in [update] mode).
    Under each key of the input it holds what the attribute declared for
    that key made of the value, or the value itself when the key is not
    declared; an undeclared key is there only if [additional_attrs] is
    set. *)
Theorem Dict_clean_result (f : Fields) (its : list Attr)
    (ats : list (string * Attr)) (d : list (string * value)) (out : value) :
  cls_of f = Dict ->
  NoDup (map fst d) ->
  clean (Node f its ats) (VDict d) = Ok out ->
  exists o added,
    out = VDict o /\
    map fst o = (map fst d ++ added)%list /\
    (update f = true -> added = []) /\
    (forall k, In k added ->
       exists c, In c (map snd ats) /\ name (fields c) = k /\
                 has_default (fields c) = true /\ dict_in k d = false) /\
    (forall k v, In (k, v) d ->
       match dict_get k ats with
       | Some c => exists r, clean c v = Ok r /\ dict_get k o = Some r
       | None => additional_attrs f = true /\ dict_get k o = Some v
       end).
Proof.
  intros Hcls Hnd. simpl. rewrite Hcls. unfold Dict_clean. simpl.
  set (ch := map (fun kc : string * Attr =>
                    match kc with (k, c) => (k, (fields c, clean c)) end) ats).
  destruct (Dict_clean_keys f ch d d) as [d1|e] eqn:Hd1; simpl;
    [|discriminate].
  assert (Hkeys1 : map fst d1 = map fst d).
  { apply (Dict_clean_keys_order f ch d d d1); [|exact Hd1].
    intros k v. apply dict_in_In. }
  destruct (Dict_clean_keys_values f ats d d d1 Hnd Hd1) as [_ Hvals].
  assert (Hvals1 : forall k v, In (k, v) d ->
            match dict_get k ats with
            | Some c => exists r, clean c v = Ok r /\ dict_get k d1 = Some r
            | None => additional_attrs f = true /\ dict_get k d1 = Some v
            end).
  { intros k v Hkv. specialize (Hvals k v Hkv).
    destruct (dict_get k ats); [exact Hvals|].
    destruct Hvals as [Hadd Hget]. split; [exact Hadd|].
    rewrite Hget. apply dict_get_In; assumption. }
  destruct (update f) eqn:Hupd; simpl.
  - intros H. injection H as <-. exists d1, [].
    split; [reflexivity|]. split; [rewrite app_nil_r; exact Hkeys1|].
    split; [reflexivity|]. split; [intros k []|]. exact Hvals1.
  - destruct (Dict_clean_attrs ch d1) as [d2|e] eqn:Hd2; simpl;
      [|discriminate].
    intros H. injection H as <-.
    destruct (Dict_clean_attrs_appends ats d1 d2 Hd2)
      as [Hkeep (added & Hkeys2 & Hadded)].
    assert (Hin1 : forall k, dict_in k d1 = dict_in k d).
    { intros k. destruct (dict_in k d) eqn:E.
      - apply dict_in_keys. rewrite Hkeys1. apply dict_in_keys. exact E.
      - destruct (dict_in k d1) eqn:E1; [|reflexivity].
        apply dict_in_keys in E1. rewrite Hkeys1 in E1.
        apply dict_in_keys in E1. congruence. }
    exists d2, added. split; [reflexivity|].
    split; [rewrite Hkeys2, Hkeys1; reflexivity|].
    split; [discriminate|]. split.
    + intros k Hk. destruct (Hadded k Hk) as (c & Hc & Hn & Hdef & Habs).
      exists c. repeat split; auto. rewrite <- Hin1. exact Habs.
    + intros k v Hkv. specialize (Hvals1 k v Hkv).
      assert (Hpres : dict_in k d1 = true).
      { rewrite Hin1. apply (dict_in_In k v). exact Hkv. }
      destruct (dict_get k ats).
      * destruct Hvals1 as (r & Hr & Hget). exists r. split; [exact Hr|].
        rewrite Hkeep by exact Hpres. exact Hget.
      * destruct Hvals1 as [Hadd Hget]. split; [exact Hadd|].
        rewrite Hkeep by exact Hpres. exact Hget.
Qed.

(** A digit string under a declared key, and an absent default. *)
Lemma Dict_clean_result_witness :
  exists o added,
    clean (mk_Dict "d" false None [] false false
             [mk_Int "a" true None [];
              mk_Str "b" false (Some (VStr "z")) [] None])
          (VDict [("a", VStr "3")]) = Ok (VDict o) /\
    map fst o = (["a"] ++ added)%list.
Proof.
  assert (Hnd : NoDup (map fst [("a", VStr "3")])).
  { apply (bool_decide_unpack _). vm_compute. exact I. }
  destruct (Dict_clean_result
              (with_dict_flags false false
                 (Attribute_init Dict "d" None false [] false None))
              []
              [("a", mk_Int "a" true None []);
               ("b", mk_Str "b" false (Some (VStr "z")) [] None)]
              [("a", VStr "3")]
              (VDict [("a", VInt 3); ("b", VStr "z")])
              eq_refl Hnd eq_refl)
    as (o & added & Ho & Hkeys & _).
  exists o, added. injection Ho as <-. split; [reflexivity | exact Hkeys].
Defined.

Lemma Dict_clean_keys_app (f : Fields) (ch : list (string * child))
    (pre rest data data' : list (string * value)) :
  Dict_clean_keys f ch pre data = Ok data' ->
  Dict_clean_keys f ch (pre ++ rest) data = Dict_clean_keys f ch rest data'.
Proof.
  revert data. induction pre as [|[key v] pre IH]; intros data; simpl.
  - intros H. injection H as <-. reflexivity.
  - match goal with
    | |- (if ?b then _ else _) = _ -> _ => destruct b; [discriminate|]
    end.
    destruct (dict_get key ch) as [[fc cc]|]; [|apply IH].
    destruct (cc v) as [r|e]; simpl; [apply IH | discriminate].
Qed.

(** X8.  With [additional_attrs] false, [Dict.clean] fails on the first
    supplied key that is not declared, with "Field was not expected" under
    that key, when every key before it is let through; neither a missing
    required field nor anything after that key is looked at. *)
Theorem Dict_clean_unexpected_key (f : Fields) (its : list Attr)
    (ats : list (string * Attr)) (pre post : list (string * value))
    (k : string) (v : value) :
  cls_of f = Dict ->
  additional_attrs f = false ->
  dict_in k ats = false ->
  supplied_ok f ats pre ->
  clean (Node f its ats) (VDict (pre ++ (k, v) :: post)) =
  Raise (ExError (mkError k (Text "Field was not expected") EINVAL)).
Proof.
  intros Hcls Hadd Hk Hok. simpl. rewrite Hcls. unfold Dict_clean. simpl.
  set (d := (pre ++ (k, v) :: post)%list).
  destruct (Dict_clean_keys_returns f ats pre d Hok) as [d1 Hd1].
  unfold d at 1. rewrite (Dict_clean_keys_app f _ pre _ d d1 Hd1). simpl.
  assert (Hin : @dict_in child k
                  (map (fun kc : string * Attr =>
                          match kc with (k, c) => (k, (fields c, clean c)) end)
                       ats) = dict_in k ats).
  { unfold dict_in.
    rewrite (dict_get_map (B:=child) (fun c => (fields c, clean c))).
    destruct (dict_get k ats); reflexivity. }
  rewrite Hin, Hadd, Hk. reflexivity.
Qed.

(** An undeclared key after a good one. *)
Lemma Dict_clean_unexpected_key_witness :
  clean (mk_Dict "d" false None [] false false [mk_Int "a" true None []])
        (VDict [("a", VInt 1); ("extra", VInt 2); ("more", VInt 3)]) =
  Raise (ExError (mkError "extra" (Text "Field was not expected") EINVAL)).
Proof.
  apply (Dict_clean_unexpected_key
           (with_dict_flags false false
              (Attribute_init Dict "d" None false [] false None))
           [] [("a", mk_Int "a" true None [])]
           [("a", VInt 1)] [("more", VInt 3)] "extra" (VInt 2)
           eq_refl eq_refl eq_refl).
  intros k v [H|[]]. injection H as <- <-. split.
  - reflexivity.
  - intros c Hc. injection Hc as <-. eexists; reflexivity.
Defined.

(** * Further properties of to_json_schema *)

(** X9.  Exported under a parent, no class carries [_required_], and only
    [Any] carries a [title]; exported without a parent, every class carries
    its [verbose] as [title].  An [enum] key is exported exactly by [Str]
    (and its subclasses) and [List] when they have an enum, and holds that
    enum. *)
Theorem to_json_schema_keys (a p : Attr) :
  dict_get "_required_" (to_json_schema a (Some p)) = None /\
  dict_get "title" (to_json_schema a (Some p)) =
    match cls_of (fields a) with
    | Any => Some (VStr (verbose (fields a)))
    | _ => None
    end /\
  dict_get "title" (to_json_schema a None) =
    Some (VStr (verbose (fields a))) /\
  forall parent,
    dict_get "enum" (to_json_schema a parent) =
    match cls_of (fields a) with
    | Str | Dir | File | IPAddr | List =>
        match enum (fields a) with
        | Some en => Some (VList en)
        | None => None
        end
    | _ => None
    end.
Proof.
  destruct a as [f its ats]. simpl.
  destruct (cls_of f) eqn:Hcls; simpl;
    unfold Any_to_json_schema, Str_to_json_schema, Bool_to_json_schema,
      Int_to_json_schema, List_to_json_schema, Dict_to_json_schema,
      top_level_keys, enum_key, nullable;
    (split; [|split; [|split; [|intros [q|]]]]);
    destruct (required f); destruct (enum f); reflexivity.
Qed.

Lemma fold_dict_set_fresh {A B} (g : string * A -> B) (l : list (string * A))
    (acc : list (string * B)) :
  NoDup (map fst l) ->
  (forall k, In k (map fst l) -> dict_in k acc = false) ->
  fold_left (fun p kv => dict_set (fst kv) (g kv) p) l acc =
  (acc ++ map (fun kv => (fst kv, g kv)) l)%list.
Proof.
  revert acc. induction l as [|[k x] l IH]; intros acc Hnd Hfresh; simpl.
  - rewrite app_nil_r. reflexivity.
  - apply NoDup_cons in Hnd as [Hnotin Hnd].
    assert (Hset : dict_set k (g (k, x)) acc = (acc ++ [(k, g (k, x))])%list).
    { assert (Hk : dict_in k acc = false)
        by (apply Hfresh; left; reflexivity).
      clear -Hk. unfold dict_in in Hk.
      induction acc as [|[k0 v0] acc IHacc]; simpl in *; [reflexivity|].
      destruct (String.eqb k k0); [discriminate|].
      rewrite IHacc by exact Hk. reflexivity. }
    rewrite Hset, IH.
    + rewrite <- app_assoc. reflexivity.
    + exact Hnd.
    + intros k' Hk'. unfold dict_in.
      assert (Hacc : dict_in k' acc = false)
        by (apply Hfresh; right; exact Hk').
      unfold dict_in in Hacc. clear -Hacc Hnotin Hk'.
      induction acc as [|[k0 v0] acc IHacc]; simpl in *.
      * rewrite String_eqb_neq; [reflexivity|].
        intros ->. apply Hnotin. apply list_elem_of_In. exact Hk'.
      * destruct (String.eqb k' k0); [discriminate | apply IHacc; exact Hacc].
Qed.

(** X10.  A [Dict] with distinct keys exports, under [properties], one entry
    per declared attribute, in the order of declaration, each the export of
    that attribute with the [Dict] as its parent; [additionalProperties] is
    its [additional_attrs] flag. *)
Theorem Dict_to_json_schema_properties (f : Fields) (its : list Attr)
    (ats : list (string * Attr)) (parent : option Attr) :
  cls_of f = Dict ->
  NoDup (map fst ats) ->
  dict_get "properties" (to_json_schema (Node f its ats) parent) =
    Some (VDict (map (fun kc : string * Attr =>
                        (fst kc,
                         VDict (to_json_schema (snd kc)
                                  (Some (Node f its ats))))) ats)) /\
  dict_get "additionalProperties" (to_json_schema (Node f its ats) parent) =
    Some (VBool (additional_attrs f)).
Proof.
  intros Hcls Hnd. simpl. rewrite Hcls.
  unfold Dict_to_json_schema, top_level_keys.
  rewrite (fold_dict_set_fresh (fun kv => VDict (snd kv))).
  - simpl. split.
    + destruct parent; simpl; f_equal; f_equal; rewrite map_map;
        apply map_ext; intros [k c]; reflexivity.
    + destruct parent; reflexivity.
  - rewrite map_map. simpl.
    erewrite map_ext; [exact Hnd|]. intros [k c]. reflexivity.
  - intros k _. reflexivity.
Qed.

(** A [Dict] with two fields. *)
Lemma Dict_to_json_schema_properties_witness :
  dict_get "properties"
    (to_json_schema
       (mk_Dict "d" true None [] false false
          [mk_Int "a" true None []; mk_Bool "b" false None []]) None) =
  Some (VDict [("a", VDict [("type", VStr "integer")]);
               ("b", VDict [("type", VList [VStr "boolean"; VStr "null"])])]).
Proof.
  assert (Hnd : NoDup (map fst [("a", mk_Int "a" true None []);
                                ("b", mk_Bool "b" false None [])])).
  { apply (bool_decide_unpack _). vm_compute. exact I. }
  exact (proj1 (Dict_to_json_schema_properties
                  (with_dict_flags false false
                     (Attribute_init Dict "d" None true [] false None))
                  []
                  [("a", mk_Int "a" true None []);
                   ("b", mk_Bool "b" false None [])]
                  None eq_refl Hnd)).
Defined.

(** * Further properties of the call binding *)

Lemma insert_middle {A} (l1 l2 : list A) (x y : A) (n : nat) :
  n = length l1 ->
  <[n := y]> (l1 ++ x :: l2)%list = (l1 ++ y :: l2)%list.
Proof.
  intros ->. induction l1 as [|a l1 IH]; simpl; [reflexivity|].
  f_equal. exact IH.
Qed.

(** The loop over the positional arguments replaces each by what its
    attribute cleans it to, and leaves everything else as it was. *)
Lemma positional_loop_cleans (env : Env) (nf : Wrapped) (pre : list value)
    (attrs : list Attr) (pos pos' : list value) :
  Forall3 (takes env) attrs pos pos' ->
  forall (adone rest : list Attr) (done : list value) kw ve,
    nf_accepts nf = (adone ++ attrs ++ rest)%list ->
    length adone = length done ->
    length pre = args_index nf ->
    positional_loop env nf pos
      {| b_i := length done; b_args := (pre ++ done ++ pos)%list;
         b_kwargs := kw; b_verrors := ve |} =
    Ok {| b_i := (length done + length pos)%nat;
          b_args := (pre ++ done ++ pos')%list;
          b_kwargs := kw; b_verrors := ve |}.
Proof.
  induction 1 as [|attr arg v attrs pos pos' [Hc Hv] HF IH];
    intros adone rest done kw ve Hacc Hlen Hpre.
  - simpl. rewrite Nat.add_0_r. reflexivity.
  - simpl. unfold index.
    rewrite Hacc. simpl.
    rewrite (list_lookup_middle adone _ attr) by (symmetry; exact Hlen).
    simpl.
    rewrite (app_assoc pre done (arg :: pos)%list).
    rewrite (list_lookup_middle (pre ++ done)%list pos arg)
      by (rewrite length_app; lia).
    simpl. rewrite Hc. simpl.
    unfold validate_into. rewrite Hv. simpl.
    rewrite (insert_middle (pre ++ done)%list pos arg v)
      by (rewrite length_app; lia).
    replace (S (length done)) with (length (done ++ [v])%list)
      by (rewrite length_app; simpl; lia).
    replace ((pre ++ done) ++ v :: pos)%list
      with (pre ++ (done ++ [v]) ++ pos)%list
      by (rewrite <- !app_assoc; reflexivity).
    rewrite (IH (adone ++ [attr])%list rest (done ++ [v])%list kw ve).
    + f_equal. f_equal.
      * rewrite length_app. simpl. lia.
      * rewrite <- !app_assoc. reflexivity.
    + rewrite Hacc. rewrite <- app_assoc. reflexivity.
    + rewrite !length_app. simpl. lia.
    + exact Hpre.
Qed.

(** With no keyword argument and the attributes used up, the loop over the
    remaining parameters only counts. *)
Lemma keyword_loop_skips (env : Env) (nf : Wrapped) (xs : list nat) :
  Forall (fun x => (x < length (co_varnames (wrapped_f nf)))%nat) xs ->
  forall i args ve,
    (length (nf_accepts nf) < i + args_index nf)%nat ->
    keyword_loop env nf xs
      {| b_i := i; b_args := args; b_kwargs := []; b_verrors := ve |} =
    Ok {| b_i := (i + length xs)%nat; b_args := args; b_kwargs := [];
          b_verrors := ve |}.
Proof.
  induction 1 as [|x xs Hx HF IH]; intros i args ve Hi; simpl.
  - rewrite Nat.add_0_r. reflexivity.
  - unfold index.
    destruct (lookup_lt_is_Some_2 _ _ Hx) as [name ->]. simpl.
    destruct (Nat.leb_spec (i + args_index nf) (length (nf_accepts nf)));
      [lia|].
    simpl. rewrite IH by lia. f_equal. f_equal. lia.
Qed.

Lemma bind_params_positional (params : list string) (args : list value)
    (defaults : list (string * value)) :
  length params = length args ->
  bind_params params args [] defaults = Some args.
Proof.
  revert args. induction params as [|p ps IH]; intros [|a args] Hlen;
    simpl in *; try lia; [reflexivity|].
  rewrite IH by lia. reflexivity.
Qed.

(** X11.  A call that gives every parameter by position, of a function
    wrapped by [accepts] (with or without [_pass_app] and [_job]), each
    argument being taken by the attribute at its position: the body runs
    once, on the leading arguments (self, and the application and the job
    when they are passed) as they were given, followed by the cleaned
    arguments in order. *)
Theorem nf_call_all_positional (env : Env) (schema : list Attr)
    (f : Callable) (nf : Wrapped) (pre pos pos' : list value) (calls : nat) :
  accepts schema f = Ok nf ->
  (co_argcount f <= length (co_varnames f))%nat ->
  length pre = args_index nf ->
  Forall3 (takes env) schema pos pos' ->
  nf_call env nf (pre ++ pos)%list [] calls =
  (body f (pre ++ pos')%list, S calls).
Proof.
  intros Hacc Hnames Hpre HF.
  unfold accepts in Hacc.
  set (ai := if has_job f
             then S (if has_pass_app f then 2%nat else 1%nat)
             else (if has_pass_app f then 2%nat else 1%nat)) in *.
  destruct (Nat.eqb_spec (length schema + ai) (co_argcount f)) as [Hcount|];
    [|discriminate].
  injection Hacc as <-. simpl in *.
  assert (Hai : (1 <= ai)%nat)
    by (unfold ai; destruct (has_job f), (has_pass_app f); lia).
  pose proof (Forall3_length_lm _ _ _ _ HF) as Hl1.
  pose proof (Forall3_length_lr _ _ _ _ HF) as Hl2.
  clearbody ai. subst ai.
  unfold nf_call, clean_and_validate_args, binding_pass. simpl.
  rewrite drop_app_length.
  pose proof (positional_loop_cleans env
                {| wrapped_f := f; args_index := length pre;
                   nf_accepts := schema |}
                pre schema pos pos' HF [] [] [] [] ValidationErrors.empty)
    as Hloop.
  simpl in Hloop. rewrite Hloop;
    [|rewrite app_nil_r; reflexivity | reflexivity | reflexivity].
  simpl.
  rewrite keyword_loop_skips; simpl.
  - unfold call.
    simpl. rewrite bind_params_positional; [reflexivity|].
    rewrite length_take, !length_app. lia.
  - apply Forall_forall. intros x Hx. apply elem_of_seq in Hx. lia.
  - lia.
Qed.

(** A method with [_pass_app]: [def g(self, app, x, y)], called on
    [(self, app, "5", "w")]. *)
Lemma nf_call_all_positional_witness :
  nf_call empty_env
    {| wrapped_f := {| co_varnames := ["self"; "app"; "x"; "y"];
                       co_argcount := 4;
                       has_pass_app := true; has_job := false;
                       co_defaults := []; body := fun l => Ok (VList l) |};
       args_index := 2;
       nf_accepts := [mk_Int "x" true None [];
                      mk_Str "y" false (Some (VStr "z")) [] None] |}
    ([VObj 1; VObj 2] ++ [VStr "5"; VStr "w"])%list [] 0 =
  (Ok (VList [VObj 1; VObj 2; VInt 5; VStr "w"]), 1%nat).
Proof.
  apply (nf_call_all_positional empty_env
           [mk_Int "x" true None [];
            mk_Str "y" false (Some (VStr "z")) [] None]
           {| co_varnames := ["self"; "app"; "x"; "y"]; co_argcount := 4;
              has_pass_app := true; has_job := false;
              co_defaults := []; body := fun l => Ok (VList l) |}
           _ [VObj 1; VObj 2] [VStr "5"; VStr "w"] [VInt 5; VStr "w"] 0%nat).
  - reflexivity.
  - simpl. lia.
  - reflexivity.
  - repeat constructor.
Defined.

Lemma assign_all_get_other (name : string) (nws kw : list (string * value)) :
  ~ In name (map fst nws) ->
  dict_get name (assign_all kw nws) = dict_get name kw.
Proof.
  unfold assign_all. revert kw.
  induction nws as [|[n w] nws IH]; intros kw Hnot; simpl; [reflexivity|].
  rewrite IH by (intros Hin; apply Hnot; right; exact Hin).
  rewrite dict_get_set. simpl.
  rewrite String_eqb_neq; [reflexivity|].
  intros ->. apply Hnot. left. reflexivity.
Qed.

Lemma assign_all_get (names : list string) (ws : list value) :
  NoDup names ->
  length names = length ws ->
  forall kw k name w,
    names !! k = Some name -> ws !! k = Some w ->
    dict_get name (assign_all kw (zip names ws)) = Some w.
Proof.
  intros Hnd. revert ws.
  induction Hnd as [|n names Hnotin Hnd IH]; intros [|w0 ws] Hlen kw k name w;
    simpl in *; try discriminate.
  destruct k as [|k]; simpl; intros Hn Hw.
  - injection Hn as ->. injection Hw as ->.
    change (dict_get name (assign_all (dict_set name w kw) (zip names ws)) =
            Some w).
    rewrite assign_all_get_other.
    + rewrite dict_get_set, String.eqb_refl. reflexivity.
    + intros Hin. apply Hnotin. apply list_elem_of_In.
      apply in_map_iff in Hin as [[n' w'] [Heq Hin]]. simpl in Heq. subst n'.
      apply list_elem_of_In in Hin. apply elem_of_zip_l in Hin.
      apply list_elem_of_In. exact Hin.
  - change (dict_get name (assign_all (dict_set n w0 kw) (zip names ws)) =
            Some w).
    apply (IH ws ltac:(lia) _ k); assumption.
Qed.

(** With [args_index = 1], the loop over the remaining parameters cleans,
    for each, what the call supplied for it, through the attribute at its
    position, and assigns the result in [kwargs]. *)
Lemma keyword_loop_fills (env : Env) (nf : Wrapped)
    (kw0 : list (string * value)) (attrs : list Attr) (names : list string)
    (ws : list value) :
  Forall3 (fun attr name w => takes env attr (supplied kw0 name) w)
    attrs names ws ->
  forall (adone : list Attr) (vdone vrest : list string) kw args ve,
    args_index nf = 1%nat ->
    NoDup names ->
    (forall name, In name names -> dict_get name kw = dict_get name kw0) ->
    nf_accepts nf = (adone ++ attrs)%list ->
    co_varnames (wrapped_f nf) = (vdone ++ names ++ vrest)%list ->
    keyword_loop env nf (seq (length vdone) (length names))
      {| b_i := length adone; b_args := args; b_kwargs := kw;
         b_verrors := ve |} =
    Ok {| b_i := (length adone + length names)%nat; b_args := args;
          b_kwargs := assign_all kw (zip names ws); b_verrors := ve |}.
Proof.
  induction 1 as [|attr name w attrs names ws [Hc Hv] HF IH];
    intros adone vdone vrest kw args ve Hai Hnd Hkw Hacc Hvar.
  - simpl. rewrite Nat.add_0_r. reflexivity.
  - apply NoDup_cons in Hnd as [Hnotin Hnd].
    simpl. unfold index. rewrite Hvar. simpl.
    rewrite (list_lookup_middle vdone _ name) by reflexivity. simpl.
    assert (Hattr : nf_accepts nf !! length adone = Some attr)
      by (rewrite Hacc; apply list_lookup_middle; reflexivity).
    assert (Hbound :
      (match dict_get name kw with
       | Some v => attr0 ← index (nf_accepts nf) (length adone);
                   Ok (Some (attr0, v))
       | None =>
           if Nat.leb (length adone + args_index nf) (length (nf_accepts nf))
           then attr0 ← index (nf_accepts nf) (length adone);
                Ok (Some (attr0, VNone))
           else Ok None
       end) = Ok (Some (attr, supplied kw0 name))).
    { unfold supplied. rewrite <- (Hkw name) by (left; reflexivity).
      unfold index. rewrite Hattr. simpl.
      destruct (dict_get name kw); [reflexivity|].
      destruct (Nat.leb_spec (length adone + args_index nf)
                  (length (nf_accepts nf))) as [|Hlt]; [reflexivity|].
      rewrite Hacc, length_app in Hlt. simpl in Hlt. lia. }
    unfold index in Hbound. rewrite Hbound. simpl.
    rewrite Hc. simpl. unfold validate_into. rewrite Hv. simpl.
    replace (S (length vdone)) with (length (vdone ++ [name])%list)
      by (rewrite length_app; simpl; lia).
    replace (S (length adone)) with (length (adone ++ [attr])%list)
      by (rewrite length_app; simpl; lia).
    rewrite (IH (adone ++ [attr])%list (vdone ++ [name])%list vrest).
    + f_equal. f_equal. rewrite length_app. simpl. lia.
    + exact Hai.
    + exact Hnd.
    + intros name' Hin. rewrite dict_get_set.
      rewrite String_eqb_neq; [apply Hkw; right; exact Hin|].
      intros ->. apply Hnotin. apply list_elem_of_In. exact Hin.
    + rewrite Hacc, <- app_assoc. reflexivity.
    + rewrite Hvar, <- app_assoc. reflexivity.
Qed.

(** X12.  For a method without [_pass_app] and [_job], wrapped by [accepts]:
    when the positional arguments are taken by the first attributes, and for
    each remaining parameter the attribute at its position takes what the
    call supplied by keyword, or [None] when it supplied nothing, the
    wrapper returns the cleaned positional arguments and [kwargs] with every
    remaining parameter assigned its cleaned value: a parameter left out of
    the call reaches the function as what its attribute cleans [None] to. *)
Theorem clean_and_validate_args_fills_missing (env : Env)
    (schema : list Attr) (f : Callable) (nf : Wrapped)
    (self : value) (pos pos' : list value) (sch1 sch2 : list Attr)
    (selfname : string) (given names locals : list string)
    (ws : list value) (kwargs : list (string * value)) :
  accepts schema f = Ok nf ->
  has_pass_app f = false ->
  has_job f = false ->
  schema = (sch1 ++ sch2)%list ->
  co_varnames f = (selfname :: given ++ names ++ locals)%list ->
  length given = length sch1 ->
  NoDup names ->
  Forall3 (takes env) sch1 pos pos' ->
  Forall3 (fun attr name w => takes env attr (supplied kwargs name) w)
    sch2 names ws ->
  clean_and_validate_args env nf (self :: pos) kwargs =
    Ok (self :: pos', assign_all kwargs (zip names ws)) /\
  forall k name w,
    names !! k = Some name -> ws !! k = Some w ->
    dict_get name (assign_all kwargs (zip names ws)) = Some w.
Proof.
  intros Hacc Hpa Hjob Hsch Hvar Hgiven Hnd HF1 HF2.
  pose proof (Forall3_length_lm _ _ _ _ HF1) as Hl1.
  pose proof (Forall3_length_lm _ _ _ _ HF2) as Hl2.
  pose proof (Forall3_length_lr _ _ _ _ HF2) as Hl3.
  split.
  - unfold accepts in Hacc. rewrite Hpa, Hjob in Hacc.
    destruct (Nat.eqb_spec (length schema + 1) (co_argcount f)) as [Hcount|];
      [|discriminate].
    injection Hacc as <-.
    unfold clean_and_validate_args, binding_pass. simpl.
    pose proof (positional_loop_cleans env
                  {| wrapped_f := f; args_index := 1; nf_accepts := schema |}
                  [self] sch1 pos pos' HF1 [] sch2 [] kwargs
                  ValidationErrors.empty Hsch eq_refl eq_refl) as Hloop.
    simpl in Hloop. rewrite drop_0, Hloop. simpl.
    rewrite <- Hcount, Hsch, length_app.
    replace (length sch1 + length sch2 + 1 - (length pos + 1))%nat
      with (length names) by lia.
    replace (length pos + 1)%nat with (length (selfname :: given)) 
      by (simpl; lia).
    replace (length pos) with (length sch1) by lia.
    rewrite (keyword_loop_fills env
               {| wrapped_f := f; args_index := 1;
                  nf_accepts := (sch1 ++ sch2)%list |}
               kwargs sch2 names ws HF2 sch1 (selfname :: given) locals).
    + reflexivity.
    + reflexivity.
    + exact Hnd.
    + reflexivity.
    + reflexivity.
    + simpl. rewrite Hvar. reflexivity.
  - intros k name w Hn Hw.
    apply (assign_all_get names ws Hnd ltac:(lia) kwargs k); assumption.
Qed.

(** [def f(self, x, y)] with [Int x] (required) and [Str y] (default ["z"]),
    called on [(self, "5")]: [y] reaches [f] as ["z"]. *)
Lemma clean_and_validate_args_fills_missing_witness :
  clean_and_validate_args empty_env
    {| wrapped_f := {| co_varnames := ["self"; "x"; "y"; "tmp"];
                       co_argcount := 3;
                       has_pass_app := false; has_job := false;
                       co_defaults := []; body := fun l => Ok (VList l) |};
       args_index := 1;
       nf_accepts := [mk_Int "x" true None [];
                      mk_Str "y" false (Some (VStr "z")) [] None] |}
    [VObj 1; VStr "5"] [] =
  Ok ([VObj 1; VInt 5], [("y", VStr "z")]).
Proof.
  assert (Hnd : NoDup ["y"]).
  { apply (bool_decide_unpack _). vm_compute. exact I. }
  refine (proj1 (clean_and_validate_args_fills_missing empty_env
           [mk_Int "x" true None [];
            mk_Str "y" false (Some (VStr "z")) [] None]
           {| co_varnames := ["self"; "x"; "y"; "tmp"]; co_argcount := 3;
              has_pass_app := false; has_job := false;
              co_defaults := []; body := fun l => Ok (VList l) |}
           _ (VObj 1) [VStr "5"] [VInt 5]
           [mk_Int "x" true None []]
           [mk_Str "y" false (Some (VStr "z")) [] None]
           "self" ["x"] ["y"] ["tmp"] [VStr "z"] []
           eq_refl eq_refl eq_refl eq_refl eq_refl eq_refl Hnd _ _)).
  - repeat constructor.
  - repeat constructor.
Defined.

(** * Further properties of Patch.resolve *)

Lemma dict_set_values {A} (k : string) (a : A) (d : list (string * A)) (z : A) :
  In z (map snd (dict_set k a d)) -> z = a \/ In z (map snd d).
Proof.
  induction d as [|[k' v'] d IH]; simpl.
  - intros [<-|[]]. left. reflexivity.
  - destruct (String.eqb k k'); simpl.
    + intros [<-|Hz]; [left; reflexivity | right; right; exact Hz].
    + intros [<-|Hz]; [right; left; reflexivity|].
      destruct (IH Hz) as [->|Hz']; [left; reflexivity | right; right; exact Hz'].
Qed.

Lemma dict_del_values {A} (k : string) (d d' : list (string * A)) (z : A) :
  dict_del k d = Some d' -> In z (map snd d') -> In z (map snd d).
Proof.
  revert d'. induction d as [|[k' v'] d IH]; intros d'; simpl; [discriminate|].
  destruct (String.eqb k k').
  - intros H. injection H as <-. intros Hz. right. exact Hz.
  - destruct (dict_del k d) as [d''|]; [|discriminate].
    intros H. injection H as <-. simpl.
    intros [<-|Hz]; [left; reflexivity | right; apply (IH d'' eq_refl Hz)].
Qed.

Lemma dict_get_values {A} (k : string) (d : list (string * A)) (z : A) :
  dict_get k d = Some z -> In z (map snd d).
Proof.
  induction d as [|[k' v'] d IH]; simpl; [discriminate|].
  destruct (String.eqb k k').
  - intros H. injection H as ->. left. reflexivity.
  - intros H. right. exact (IH H).
Qed.

(** Assigning to the fields of an object that was not in [st]. *)
Lemma patching_set_fields (st cur : store) (r x : nat) (g : Fields -> Fields) :
  (next st <= x)%nat ->
  patching st cur r -> patching st (set_fields x g cur) r.
Proof.
  intros Hx (Hwf & Hr & Hs & Hmono & c & Hc & Hch).
  unfold patching, set_fields; simpl.
  split; [exact Hwf|]. split; [exact Hr|]. split; [exact Hs|]. split.
  - intros y cy Hy. rewrite lookup_alter_ne; [apply Hmono; exact Hy|].
    intros <-. pose proof (wf_store_lookup st x cy Hwf Hy). lia.
  - destruct (decide (x = r)) as [->|Hne].
    + eexists. split; [rewrite lookup_alter_eq, Hc; reflexivity|].
      simpl. exact Hch.
    + exists c. split; [rewrite lookup_alter_ne by exact Hne; exact Hc|].
      exact Hch.
Qed.

Lemma patching_setattrs (st : store) (r : nat) (sets : list field_set) :
  forall cur, patching st cur r ->
    patching st
      (fold_left (fun st x => set_fields r (setattr x) st) sets cur) r.
Proof.
  induction sets as [|x sets IH]; intros cur Hp; simpl; [exact Hp|].
  apply IH. apply patching_set_fields; [|exact Hp].
  destruct Hp as (_ & Hr & _). lia.
Qed.

(** One operation keeps the state of the loop. *)
Lemma apply_operation_patching (st cur cur' : store) (r : nat)
    (op : operation) :
  patching st cur r ->
  apply_operation r op cur = Ok cur' ->
  patching st cur' r.
Proof.
  intros Hp Hop. pose proof Hp as (Hwf & Hr & Hs & Hmono & c & Hc & Hch).
  unfold apply_operation in Hop. rewrite Hc in Hop.
  destruct op as [spec|n|n method|sets|other].
  - destruct (convert spec) as [new|e]; simpl in Hop; [|discriminate].
    injection Hop as <-.
    unfold patching, set_attrs; simpl.
    split; [exact Hwf|]. split; [lia|]. split; [exact Hs|]. split.
    + intros y cy Hy. pose proof (wf_store_lookup st y cy Hwf Hy).
      rewrite lookup_alter_ne by lia. rewrite lookup_insert_ne by lia.
      apply Hmono. exact Hy.
    + eexists. split.
      * rewrite lookup_alter_eq, lookup_insert_ne by lia. rewrite Hc.
        reflexivity.
      * simpl. intros z Hz. apply dict_set_values in Hz as [->|Hz];
          [lia | apply Hch; exact Hz].
  - destruct (dict_del n (c_attrs c)) as [d|] eqn:Hdel; [|discriminate].
    injection Hop as <-.
    unfold patching, set_attrs; simpl.
    split; [exact Hwf|]. split; [exact Hr|]. split; [exact Hs|]. split.
    + intros y cy Hy. pose proof (wf_store_lookup st y cy Hwf Hy).
      rewrite lookup_alter_ne by lia. apply Hmono. exact Hy.
    + eexists. split; [rewrite lookup_alter_eq, Hc; reflexivity|].
      simpl. intros z Hz. apply Hch. exact (dict_del_values n _ d z Hdel Hz).
  - destruct (dict_get n (c_attrs c)) as [attr|] eqn:Hget; [|discriminate].
    destruct method as [m|]; injection Hop as <-; [|exact Hp].
    apply patching_set_fields; [|exact Hp].
    apply Hch. exact (dict_get_values n _ attr Hget).
  - injection Hop as <-. apply patching_setattrs. exact Hp.
  - injection Hop as <-. exact Hp.
Qed.

Lemma apply_operations_patching (st : store) (r : nat) (ops : list operation) :
  forall cur cur',
    patching st cur r ->
    apply_operations r ops cur = Ok cur' ->
    patching st cur' r.
Proof.
  induction ops as [|op ops IH]; intros cur cur' Hp Hops; simpl in Hops.
  - injection Hops as <-. exact Hp.
  - destruct (apply_operation r op cur) as [cur1|e] eqn:Hop; simpl in Hops;
      [|discriminate].
    apply (IH cur1 cur'); [|exact Hops].
    apply (apply_operation_patching st cur cur1 r op Hp Hop).
Qed.

(** X13.  For a registered [Dict] schema and fuel for its depth, resolving a
    [Patch] with any list of operations comes to an end, with a result or an
    exception.  When it returns, the schema it returns is an object that was
    not in the store; every object that was in the store is as it was, so
    every registered schema still spells out the attribute it did; and
    without [register] the registry is the same. *)
Theorem Patch_resolve_frame (fuel : nat) (p : Patch) (st : store)
    (a : nat) (f : Fields) (its : list Attr) (ats : list (string * Attr)) :
  wf_store st ->
  get_schema st (p_name p) = Some a ->
  repr (heap st) a (Node f its ats) ->
  cls_of f = Dict ->
  (depth (Node f its ats) <= fuel)%nat ->
  exists res, Patch_resolve fuel p st = Some res /\
    forall r st', res = Ok (r, st') ->
      heap st !! r = None /\
      is_Some (heap st' !! r) /\
      (forall y c, heap st !! y = Some c -> heap st' !! y = Some c) /\
      (forall y t, repr (heap st) y t -> repr (heap st') y t) /\
      (p_register p = false -> schemas st' = schemas st).
Proof.
  intros Hwf Hget Hr Hcls Hd. unfold Patch_resolve.
  rewrite Hget.
  pose proof Hr as Hr'. apply repr_Node in Hr' as (c0 & Hc0 & Hf0 & _).
  unfold isinstance_Dict. rewrite Hc0, Hf0, Hcls. simpl.
  destruct (deepcopy_in_fresh fuel a st _ Hwf Hr Hd)
    as (r & st1 & Hcopy & Hfresh1).
  rewrite Hcopy. simpl.
  destruct (depth_Node f its ats) as [Hdi Hda].
  assert (Hfresh2 : fresh_copy st (set_fields r (set_name (p_newname p)) st1) r
                      (Node (set_name (p_newname p) f) its ats)).
  { pose proof Hfresh1 as (_ & _ & _ & _ & _ & _ & _ & Hrepr).
    apply repr_Node in Hrepr as (c & Hc & Hf & Hi & Ha).
    apply (fresh_copy_alter st st1 r (Node f its ats)); try assumption.
    intros c' Hc'. rewrite Hc in Hc'. injection Hc' as <-. simpl.
    split; [rewrite Hf; reflexivity|]. split; [exact Hi|]. split; [exact Ha|].
    intros z Hz. exact Hz. }
  set (st2 := set_fields r (set_name (p_newname p)) st1) in *.
  assert (Hp2 : patching st st2 r).
  { destruct Hfresh2 as (_ & _ & Hs2 & Hmono2 & _ & Hr2 & Hown2 & Hrepr2).
    apply repr_Node in Hrepr2 as (c2 & Hc2 & _).
    split; [exact Hwf|]. split; [exact Hr2|]. split; [exact Hs2|].
    split; [exact Hmono2|].
    exists c2. split; [exact Hc2|]. intros z Hz.
    apply (Hown2 r c2 Hc2 Hr2 z). unfold children. apply in_or_app.
    right. exact Hz. }
  eexists. split; [reflexivity|].
  intros r' st' Hres.
  destruct (apply_operations r (p_patches p) st2) as [st3|e] eqn:Hops;
    simpl in Hres; [|discriminate].
  pose proof (apply_operations_patching st r _ st2 st3 Hp2 Hops)
    as (_ & Hr3 & Hs3 & Hmono3 & c3 & Hc3 & _).
  assert (Hfree : heap st !! r = None).
  { destruct (heap st !! r) as [c|] eqn:E; [|reflexivity].
    pose proof (wf_store_lookup st r c Hwf E). lia. }
  destruct (p_register p) eqn:Hreg.
  - unfold add_schema in Hres. rewrite Hc3 in Hres.
    destruct (schemas st3 !! name (c_fields c3)); simpl in Hres;
      [discriminate|].
    injection Hres as <- <-. simpl.
    split; [exact Hfree|]. split; [exists c3; exact Hc3|].
    split; [exact Hmono3|]. split; [|discriminate].
    intros y t. apply repr_mono. exact Hmono3.
  - simpl in Hres. injection Hres as <- <-.
    split; [exact Hfree|]. split; [exists c3; exact Hc3|].
    split; [exact Hmono3|]. split; [|intros _; exact Hs3].
    intros y t. apply repr_mono. exact Hmono3.
Qed.

(** A patch of the example schema with one operation of each kind. *)
Lemma Patch_resolve_frame_witness :
  exists res,
    Patch_resolve 2
      {| p_name := "S"; p_newname := "S2";
         p_patches :=
           [OpAdd {| sp_type := "bool"; sp_name := "c"; sp_verbose := None;
                     sp_required := false; sp_validators := [];
                     sp_register := false; sp_default := None;
                     sp_enum := None; sp_additional_attrs := false;
                     sp_update := false |};
            OpEdit "a" (Some (set_register true));
            OpAttr [SetRequired true];
            OpRm "b"];
         p_register := false |} example_store = Some res /\
    forall r st', res = Ok (r, st') ->
      heap example_store !! r = None /\
      repr (heap st') 2 example_schema.
Proof.
  destruct (Patch_resolve_frame 2
              {| p_name := "S"; p_newname := "S2";
                 p_patches :=
                   [OpAdd {| sp_type := "bool"; sp_name := "c";
                             sp_verbose := None;
                             sp_required := false; sp_validators := [];
                             sp_register := false; sp_default := None;
                             sp_enum := None; sp_additional_attrs := false;
                             sp_update := false |};
                    OpEdit "a" (Some (set_register true));
                    OpAttr [SetRequired true];
                    OpRm "b"];
                 p_register := false |}
              example_store 2
              (fields example_schema) (items example_schema)
              (attrs example_schema)
              example_store_wf eq_refl example_store_repr eq_refl (le_n 2))
    as (res & Hres & Hall).
  exists res. split; [exact Hres|].
  intros r st' Heq. destruct (Hall r st' Heq) as (H1 & _ & _ & H4 & _).
  split; [exact H1 | exact (H4 2%nat example_schema example_store_repr)].
Defined.

(** The start of [Patch.resolve]: the copy, renamed. *)
Lemma Patch_resolve_copy (fuel : nat) (newname : string) (st : store)
    (a : nat) (f : Fields) (its : list Attr) (ats : list (string * Attr)) :
  wf_store st ->
  repr (heap st) a (Node f its ats) ->
  (depth (Node f its ats) <= fuel)%nat ->
  exists r st1,
    deepcopy_in fuel a st = Some (r, st1) /\
    fresh_copy st (set_fields r (set_name newname) st1) r
      (Node (set_name newname f) its ats) /\
    patching st (set_fields r (set_name newname) st1) r.
Proof.
  intros Hwf Hr Hd.
  destruct (deepcopy_in_fresh fuel a st _ Hwf Hr Hd)
    as (r & st1 & Hcopy & Hfresh1).
  exists r, st1. split; [exact Hcopy|].
  assert (Hfresh2 : fresh_copy st (set_fields r (set_name newname) st1) r
                      (Node (set_name newname f) its ats)).
  { destruct (depth_Node f its ats) as [Hdi Hda].
    pose proof Hfresh1 as (_ & _ & _ & _ & _ & _ & _ & Hrepr).
    apply repr_Node in Hrepr as (c & Hc & Hf & Hi & Ha).
    apply (fresh_copy_alter st st1 r (Node f its ats)); try assumption.
    intros c' Hc'. rewrite Hc in Hc'. injection Hc' as <-. simpl.
    split; [rewrite Hf; reflexivity|]. split; [exact Hi|]. split; [exact Ha|].
    intros z Hz. exact Hz. }
  split; [exact Hfresh2|].
  destruct Hfresh2 as (_ & _ & Hs2 & Hmono2 & _ & Hr2 & Hown2 & Hrepr2).
  apply repr_Node in Hrepr2 as (c2 & Hc2 & _).
  split; [exact Hwf|]. split; [exact Hr2|]. split; [exact Hs2|].
  split; [exact Hmono2|].
  exists c2. split; [exact Hc2|]. intros z Hz.
  apply (Hown2 r c2 Hc2 Hr2 z). unfold children. apply in_or_app.
  right. exact Hz.
Qed.

(** What [Patch.convert] makes is an attribute without children that has the
    name of the payload. *)
Lemma convert_leaf (spec : add_spec) (new : cell) :
  convert spec = Ok new ->
  name (c_fields new) = sp_name spec /\ c_items new = [] /\ c_attrs new = [].
Proof.
  unfold convert.
  destruct (str_in (sp_type spec) ["int"; "integer"]);
    [intros H; injection H as <-; repeat split|].
  destruct (str_in (sp_type spec) ["str"; "string"]);
    [intros H; injection H as <-; repeat split|].
  destruct (str_in (sp_type spec) ["bool"; "boolean"]);
    [intros H; injection H as <-; repeat split|].
  destruct (String.eqb (sp_type spec) "dict");
    [intros H; injection H as <-; repeat split | discriminate].
Qed.

(** [attrs[k] = a] on the keys of a [Dict]. *)
Lemma dict_set_keyed (h : gmap nat cell) (k : string) (a : nat) (t : Attr)
    (l : list (string * nat)) (ats : list (string * Attr)) :
  Forall2 (keyed h) l ats ->
  repr h a t ->
  Forall2 (keyed h) (dict_set k a l) (dict_set k t ats).
Proof.
  intros HF Ha.
  induction HF as [|[k0 x] [k1 t1] l ats [Hk Hxt] Hrest IH]; simpl.
  - constructor; [split; [reflexivity | exact Ha] | constructor].
  - simpl in Hk. subst k1. destruct (String.eqb k k0).
    + constructor; [split; [reflexivity | exact Ha] | exact Hrest].
    + constructor; [split; [reflexivity | exact Hxt] | exact IH].
Qed.

(** What [Patch.convert] builds from a payload of a type it knows. *)
Lemma convert_builds (spec : add_spec) (c : cls) :
  In (sp_type spec, c) type_group ->
  convert spec =
    Ok {| c_fields := built spec c; c_items := []; c_attrs := [] |}.
Proof.
  intros Hin. simpl in Hin.
  repeat (destruct Hin as [Hin|Hin];
          [injection Hin as Ht Hc; subst c; unfold convert; rewrite <- Ht;
           reflexivity|]).
  contradiction.
Qed.

(** The copy after one ['add']: the new attribute under its name. *)
Lemma Patch_resolve_add_cells (fuel : nat) (n newname : string)
    (spec : add_spec) (new : cell) (st : store) (a : nat) (f : Fields)
    (its : list Attr) (ats : list (string * Attr)) :
  wf_store st ->
  get_schema st n = Some a ->
  repr (heap st) a (Node f its ats) ->
  cls_of f = Dict ->
  (depth (Node f its ats) <= fuel)%nat ->
  convert spec = Ok new ->
  exists r st',
    Patch_resolve fuel
      {| p_name := n; p_newname := newname; p_patches := [OpAdd spec];
         p_register := false |} st = Some (Ok (r, st')) /\
    repr (heap st') r
      (Node (set_name newname f) its
         (dict_set (sp_name spec) (Node (c_fields new) [] []) ats)) /\
    heap st !! r = None /\
    schemas st' = schemas st /\
    repr (heap st') a (Node f its ats).
Proof.
  intros Hwf Hget Hr Hcls Hd Hconv. unfold Patch_resolve. simpl.
  rewrite Hget.
  pose proof Hr as Hr'. apply repr_Node in Hr' as (c0 & Hc0 & Hf0 & _).
  unfold isinstance_Dict. rewrite Hc0, Hf0, Hcls. simpl.
  destruct (Patch_resolve_copy fuel newname st a f its ats Hwf Hr Hd)
    as (r & st1 & Hcopy & Hfresh2 & Hp2).
  rewrite Hcopy. simpl.
  set (st2 := set_fields r (set_name newname) st1) in *.
  destruct (apply_operation r (OpAdd spec) st2) as [st3|e] eqn:Hop.
  2:{ exfalso. unfold apply_operation in Hop.
      destruct Hp2 as (_ & _ & _ & _ & c & Hc & _). rewrite Hc, Hconv in Hop.
      simpl in Hop. discriminate. }
  simpl. exists r, st3. split; [reflexivity|].
  pose proof (apply_operation_patching st st2 st3 r _ Hp2 Hop)
    as (_ & Hr3 & Hs3 & Hmono3 & _).
  assert (Hfree : heap st !! r = None).
  { destruct (heap st !! r) as [c|] eqn:E; [|reflexivity].
    pose proof (wf_store_lookup st r c Hwf E). lia. }
  split; [|split; [exact Hfree|split; [exact Hs3|]]];
    [|apply (repr_mono (heap st)); [exact Hmono3 | exact Hr]].
  destruct Hfresh2 as (_ & Hwf2 & _ & _ & _ & Hr2 & _ & Hrepr2).
  pose proof Hrepr2 as Hrepr2'.
  apply repr_Node in Hrepr2' as (c2 & Hc2 & Hf2 & Hi2 & Ha2).
  unfold apply_operation in Hop. rewrite Hc2, Hconv in Hop. simpl in Hop.
  injection Hop as <-. simpl.
  destruct (convert_leaf spec new Hconv) as (Hname & Hitems & Hattrs).
  rewrite Hname.
  set (u := fun c : cell =>
              {| c_fields := c_fields c; c_items := c_items c;
                 c_attrs := dict_set (sp_name spec) (next st2) (c_attrs c2) |}).
  set (h' := <[next st2 := new]> (heap st2)).
  assert (Hnone : heap st2 !! next st2 = None).
  { destruct (heap st2 !! next st2) as [c|] eqn:E; [|reflexivity].
    pose proof (wf_store_lookup st2 _ c Hwf2 E). lia. }
  assert (Hsub : forall y c, heap st2 !! y = Some c -> h' !! y = Some c).
  { intros y c Hy. unfold h'. rewrite lookup_insert_ne; [exact Hy|].
    intros <-. rewrite Hnone in Hy. discriminate. }
  assert (Hr' : repr h' r (Node (set_name newname f) its ats))
    by (apply (repr_mono (heap st2)); assumption).
  destruct (depth_Node (set_name newname f) its ats) as [Hdi Hda].
  assert (Hne : next st2 <> r) by lia.
  assert (Hleaf : repr (alter u r h') (next st2) (Node (c_fields new) [] [])).
  { apply repr_Node. exists new. split.
    - rewrite lookup_alter_ne by (intros E; apply Hne; symmetry; exact E).
      unfold h'. apply lookup_insert_eq.
    - split; [reflexivity|]. rewrite Hitems, Hattrs. split; constructor. }
  apply repr_Node. exists (u c2). split.
  { rewrite lookup_alter_eq. unfold h'.
    rewrite lookup_insert_ne by exact Hne.
    change (u <$> heap st2 !! r = Some (u c2)). rewrite Hc2. reflexivity. }
  split; [exact Hf2|]. split.
  - simpl. apply (Forall2_impl_in_r _ _ _ _ Hi2). intros x t' Hin Hxt.
    apply (repr_alter_other h' u r _ Hr'); [apply Hdi; exact Hin|].
    apply (repr_mono (heap st2)); assumption.
  - simpl. apply dict_set_keyed; [|exact Hleaf].
    apply (Forall2_impl_in_r _ _ _ _ Ha2). intros [k x] [k' t'] Hin [Hk Hxt].
    split; [exact Hk|]. simpl in Hxt |- *.
    apply (repr_alter_other h' u r _ Hr'); [apply (Hda (k', t') Hin)|].
    apply (repr_mono (heap st2)); assumption.
Qed.

(** X14.  For a registered [Dict] schema and fuel for its depth, resolving a
    [Patch] with the one operation [("add", spec)], where the type of [spec]
    is one of the names of [type_group] and stands for the class [c],
    returns a schema with the fields of the registered one but for the name,
    which is the new name, and with the same children but for the key
    [spec["name"]]: under it is an attribute of class [c] without children,
    whose fields are those the payload gives, in the place of a field of
    that name when there is one, after the other fields otherwise.  The
    schema returned is an object that was not in the store, the registry is
    the same, and the source still spells out what it did. *)
Theorem Patch_resolve_add (fuel : nat) (n newname : string) (spec : add_spec)
    (c : cls) (st : store) (a : nat) (f : Fields) (its : list Attr)
    (ats : list (string * Attr)) :
  wf_store st ->
  get_schema st n = Some a ->
  repr (heap st) a (Node f its ats) ->
  cls_of f = Dict ->
  (depth (Node f its ats) <= fuel)%nat ->
  In (sp_type spec, c) type_group ->
  exists f', renamed newname f f' /\
  exists r st',
    Patch_resolve fuel
      {| p_name := n; p_newname := newname; p_patches := [OpAdd spec];
         p_register := false |} st = Some (Ok (r, st')) /\
    repr (heap st') r
      (Node f' its (dict_set (sp_name spec) (Node (built spec c) [] []) ats))
    /\
    heap st !! r = None /\
    schemas st' = schemas st /\
    repr (heap st') a (Node f its ats).
Proof.
  intros Hwf Hget Hr Hcls Hd Hin.
  exists (set_name newname f). split; [reflexivity|].
  exact (Patch_resolve_add_cells fuel n newname spec _ st a f its ats
           Hwf Hget Hr Hcls Hd (convert_builds spec c Hin)).
Qed.

(** [Patch("S", "S2", ("add", {"type": "bool", "name": "b"}))] in the example
    store: the [Str] field [b] gives way to a [Bool], in its place, and the
    schema returned is named [S2]. *)
Lemma Patch_resolve_add_witness :
  exists r st',
    Patch_resolve 2
      {| p_name := "S"; p_newname := "S2";
         p_patches :=
           [OpAdd {| sp_type := "bool"; sp_name := "b"; sp_verbose := None;
                     sp_required := false; sp_validators := [];
                     sp_register := false; sp_default := None;
                     sp_enum := None; sp_additional_attrs := false;
                     sp_update := false |}];
         p_register := false |} example_store = Some (Ok (r, st')) /\
    repr (heap st') r
      (Node {| cls_of := Dict; name := "S2"; verbose := "S";
               required := false; has_default := false; default := VNone;
               validators := []; register := true; enum := None;
               additional_attrs := false; update := false |} []
            [("a", mk_Int "a" true None []);
             ("b", Node {| cls_of := Bool; name := "b"; verbose := "b";
                           required := false; has_default := false;
                           default := VNone; validators := [];
                           register := false; enum := None;
                           additional_attrs := false; update := false |}
                        [] [])]) /\
    repr (heap st') 2 example_schema.
Proof.
  destruct (Patch_resolve_add 2 "S" "S2"
              {| sp_type := "bool"; sp_name := "b"; sp_verbose := None;
                 sp_required := false; sp_validators := [];
                 sp_register := false; sp_default := None;
                 sp_enum := None; sp_additional_attrs := false;
                 sp_update := false |}
              Bool example_store 2
              (fields example_schema) (items example_schema)
              (attrs example_schema)
              example_store_wf eq_refl example_store_repr eq_refl (le_n 2)
              ltac:(simpl; auto 10))
    as (f' & Hf' & r & st' & H1 & H2 & _ & _ & H5).
  unfold renamed in Hf'. subst f'.
  exists r, st'. split; [exact H1|]. split; [exact H2 | exact H5].
Defined.

Lemma str_in_false (s : string) (l : list string) :
  ~ In s l -> str_in s l = false.
Proof.
  unfold str_in. induction l as [|x l IH]; simpl; [reflexivity|].
  intros Hnot. rewrite String_eqb_neq.
  - apply IH. intros Hin. apply Hnot. right. exact Hin.
  - intros ->. apply Hnot. left. reflexivity.
Qed.

(** X15.  An ['add'] whose type is none of those [convert] knows ends the
    resolution of the [Patch] with the [KeyError] of [spec['type']], read
    after [type] was popped from the payload, not with the [ValueError] that
    line builds; nothing is returned, and nothing is registered. *)
Theorem Patch_resolve_add_unknown_type (fuel : nat) (n newname : string)
    (spec : add_spec) (rest : list operation) (reg : bool) (st : store)
    (a : nat) (f : Fields) (its : list Attr) (ats : list (string * Attr)) :
  wf_store st ->
  get_schema st n = Some a ->
  repr (heap st) a (Node f its ats) ->
  cls_of f = Dict ->
  (depth (Node f its ats) <= fuel)%nat ->
  ~ In (sp_type spec)
       ["int"; "integer"; "str"; "string"; "bool"; "boolean"; "dict"] ->
  Patch_resolve fuel
    {| p_name := n; p_newname := newname; p_patches := OpAdd spec :: rest;
       p_register := reg |} st = Some (Raise (ExOther KeyError)).
Proof.
  intros Hwf Hget Hr Hcls Hd Hty. unfold Patch_resolve. simpl.
  rewrite Hget.
  pose proof Hr as Hr'. apply repr_Node in Hr' as (c0 & Hc0 & Hf0 & _).
  unfold isinstance_Dict. rewrite Hc0, Hf0, Hcls. simpl.
  destruct (Patch_resolve_copy fuel newname st a f its ats Hwf Hr Hd)
    as (r & st1 & Hcopy & _ & Hp2).
  rewrite Hcopy. simpl.
  destruct Hp2 as (_ & _ & _ & _ & c & Hc & _).
  unfold apply_operation. rewrite Hc.
  assert (Hconv : convert spec = Raise (ExOther KeyError)).
  { unfold convert.
    rewrite !str_in_false, String_eqb_neq; [reflexivity | | | |];
      intros Hin; apply Hty; simpl in *;
      first [tauto | rewrite Hin; auto 10]. }
  rewrite Hconv. reflexivity.
Qed.

(** [Patch("S", "S2", ("add", {"type": "float", "name": "c"}))] in the
    example store. *)
Lemma Patch_resolve_add_unknown_type_witness :
  Patch_resolve 2
    {| p_name := "S"; p_newname := "S2";
       p_patches :=
         [OpAdd {| sp_type := "float"; sp_name := "c"; sp_verbose := None;
                   sp_required := false; sp_validators := [];
                   sp_register := false; sp_default := None;
                   sp_enum := None; sp_additional_attrs := false;
                   sp_update := false |}];
       p_register := true |} example_store =
  Some (Raise (ExOther KeyError)).
Proof.
  apply (Patch_resolve_add_unknown_type 2 "S" "S2" _ [] true example_store 2
           (fields example_schema) (items example_schema)
           (attrs example_schema)
           example_store_wf eq_refl example_store_repr eq_refl (le_n 2)).
  simpl. intros H.
  repeat (destruct H as [H|H]; [discriminate H|]). exact H.
Defined.

(** * Cleaning twice *)

(** [Str.clean] on what it has returned. *)
Lemma Str_clean_settled (f : Fields) (x y : value) :
  required f = true \/ default f = VNone \/
  (isinstance_str (default f) = true /\ enum_allows (enum f) (default f)) ->
  Str_clean f x = Ok y -> Str_clean f y = Ok y.
Proof.
  intros Hdef.
  unfold Str_clean.
  destruct (EnumMixin_clean f x) as [x'|e] eqn:Hen; simpl; [|discriminate].
  apply EnumMixin_clean_spec in Hen as [-> Hallow].
  destruct (is_None x && negb (required f))%bool eqn:Hnone.
  - intros H. injection H as <-.
    apply andb_prop in Hnone as [Hx Hreq].
    destruct x; try discriminate.
    destruct Hdef as [Hr|[Hd|[Hs Hd]]].
    + rewrite Hr in Hreq. discriminate.
    + rewrite Hd.
      rewrite (proj2 (EnumMixin_clean_spec f VNone VNone)
               (conj eq_refl Hallow)).
      simpl. rewrite Hreq. reflexivity.
    + rewrite (proj2 (EnumMixin_clean_spec f _ _) (conj eq_refl Hd)).
      simpl. destruct (default f); try discriminate. reflexivity.
  - destruct (isinstance_str x) eqn:Hs; simpl; [|discriminate].
    intros H. injection H as <-.
    rewrite (proj2 (EnumMixin_clean_spec f x x) (conj eq_refl Hallow)).
    simpl. rewrite Hnone, Hs. reflexivity.
Qed.

(** X16.  An [Any], [Bool], [Int] or [Str] (also [Dir], [File], [IPAddr])
    that is required, or has no default, or has a default of its own type
    that its enum holds, accepts every value it has returned and returns it
    unchanged: cleaning a second time changes nothing. *)
Theorem leaf_clean_settled (f : Fields) (its : list Attr)
    (ats : list (string * Attr)) :
  cls_of f <> List ->
  cls_of f <> Dict ->
  required f = true \/ default f = VNone \/ default_fits f ->
  settled (Node f its ats).
Proof.
  intros HnL HnD Hdef x y. unfold default_fits in Hdef. simpl.
  destruct (cls_of f) eqn:Hcls; try congruence.
  - (* Any *)
    unfold Attribute_clean. intros H. injection H as <-. reflexivity.
  - exact (Str_clean_settled f x y Hdef).
  - exact (Str_clean_settled f x y Hdef).
  - exact (Str_clean_settled f x y Hdef).
  - exact (Str_clean_settled f x y Hdef).
  - (* Bool *)
    unfold Bool_clean.
    destruct (is_None x && negb (required f))%bool eqn:Hnone.
    + intros H. injection H as <-.
      apply andb_prop in Hnone as [Hx Hreq].
      destruct Hdef as [Hr|[Hd|Hd]].
      * rewrite Hr in Hreq. discriminate.
      * rewrite Hd. simpl. rewrite Hreq. reflexivity.
      * destruct (default f); try discriminate. reflexivity.
    + destruct (isinstance_bool x) eqn:Hb; simpl; [|discriminate].
      intros H. injection H as <-. rewrite Hnone, Hb. reflexivity.
  - (* Int *)
    unfold Int_clean.
    destruct (is_None x && negb (required f))%bool eqn:Hnone.
    + intros H. injection H as <-.
      apply andb_prop in Hnone as [Hx Hreq].
      destruct Hdef as [Hr|[Hd|Hd]].
      * rewrite Hr in Hreq. discriminate.
      * rewrite Hd. simpl. rewrite Hreq. reflexivity.
      * destruct (default f); try discriminate; reflexivity.
    + destruct (isinstance_int x) eqn:Hi; simpl.
      * intros H. injection H as <-. rewrite Hnone, Hi. reflexivity.
      * destruct x; try discriminate.
        destruct (isdigit s); [|discriminate].
        destruct (int_of_str s); [|discriminate].
        intros H. injection H as <-. reflexivity.
Qed.

(** A [Str] with an enum and a default from it: the default, returned for
    [None], is returned again. *)
Lemma leaf_clean_settled_witness :
  clean (mk_Str "s" false (Some (VStr "a")) [] (Some [VStr "a"; VNone]))
    VNone = Ok (VStr "a") /\
  clean (mk_Str "s" false (Some (VStr "a")) [] (Some [VStr "a"; VNone]))
    (VStr "a") = Ok (VStr "a").
Proof.
  split; [reflexivity|].
  apply (leaf_clean_settled
           (fields (mk_Str "s" false (Some (VStr "a")) []
                      (Some [VStr "a"; VNone]))) [] [] 
           ltac:(discriminate) ltac:(discriminate)) with (x := VNone).
  - right. right. split; [reflexivity|].
    intros l Hl x Hx. injection Hl as <-.
    destruct Hx as [<-|[]]. exists (VStr "a"). split; [left|]; reflexivity.
  - reflexivity.
Defined.

Lemma dict_set_same {A} (k : string) (v : A) (d : list (string * A)) :
  dict_get k d = Some v -> dict_set k v d = d.
Proof.
  induction d as [|[k0 v0] d IH]; simpl; [discriminate|].
  destruct (String.eqb k k0) eqn:E.
  - apply String.eqb_eq in E. subst k0. intros H. injection H as ->.
    reflexivity.
  - intros H. rewrite IH by exact H. reflexivity.
Qed.

Lemma dict_get_Some_In {A} (k : string) (v : A) (d : list (string * A)) :
  dict_get k d = Some v -> In (k, v) d.
Proof.
  induction d as [|[k0 v0] d IH]; simpl; [discriminate|].
  destruct (String.eqb k k0) eqn:E.
  - apply String.eqb_eq in E. subst k0. intros H. injection H as ->.
    left. reflexivity.
  - intros H. right. exact (IH H).
Qed.

Lemma dict_set_NoDup {A} (k : string) (v : A) (d : list (string * A)) :
  NoDup (map fst d) -> NoDup (map fst (dict_set k v d)).
Proof.
  intros Hnd. destruct (dict_in k d) eqn:E.
  - rewrite dict_set_keys_present by exact E. exact Hnd.
  - rewrite dict_set_keys_absent by exact E.
    apply NoDup_app. split; [exact Hnd|]. split.
    + intros x Hx Hx'. apply list_elem_of_In in Hx, Hx'.
      destruct Hx' as [<-|[]].
      apply dict_in_keys in Hx. congruence.
    + apply NoDup_singleton.
Qed.

(** What the loop over the declared attributes has done when it ends: every
    entry was there or is the default of a declared attribute, nothing was
    taken away, and every attribute that is required or has a default has
    its name among the keys. *)
Lemma Dict_clean_attrs_trace (ats : list (string * Attr))
    (data out : list (string * value)) :
  Dict_clean_attrs
    (map (fun kc : string * Attr =>
            match kc with (k, c) => (k, (fields c, clean c)) end) ats) data =
  Ok out ->
  (forall k v, dict_get k out = Some v ->
     dict_get k data = Some v \/
     exists c, In c (map snd ats) /\ name (fields c) = k /\
               has_default (fields c) = true /\ v = default (fields c)) /\
  (forall k, dict_in k data = true -> dict_in k out = true) /\
  (forall c, In c (map snd ats) ->
     required (fields c) = true \/ has_default (fields c) = true ->
     dict_in (name (fields c)) out = true) /\
  (NoDup (map fst data) -> NoDup (map fst out)).
Proof.
  revert data. induction ats as [|[k0 c] ats IH]; intros data; simpl.
  - intros H. injection H as <-.
    split; [intros k v Hk; left; exact Hk|].
    split; [intros k Hk; exact Hk|].
    split; [intros c []|]. intros Hnd. exact Hnd.
  - destruct (dict_in (name (fields c)) data) eqn:Hin.
    + rewrite !andb_false_r. simpl.
      intros H. destruct (IH _ H) as (T1 & T2 & T3 & T4).
      split; [|split; [exact T2|split; [|exact T4]]].
      * intros k v Hk. destruct (T1 k v Hk) as [Hold|(c' & Hc' & Hrest)];
          [left; exact Hold|].
        right. exists c'. split; [right; exact Hc' | exact Hrest].
      * intros c' [<-|Hc'] Hrd; [apply T2; exact Hin | apply T3; assumption].
    + destruct (required (fields c)) eqn:Hreq; simpl; [discriminate|].
      destruct (has_default (fields c)) eqn:Hdef; simpl.
      * intros H. destruct (IH _ H) as (T1 & T2 & T3 & T4).
        split; [|split; [|split]].
        -- intros k v Hk. destruct (T1 k v Hk) as [Hold|(c' & Hc' & Hrest)].
           ++ rewrite dict_get_set in Hold.
              destruct (String.eqb k (name (fields c))) eqn:E;
                [|left; exact Hold].
              apply String.eqb_eq in E. subst k. injection Hold as <-.
              right. exists c. split; [left; reflexivity|].
              split; [reflexivity|]. split; [exact Hdef | reflexivity].
           ++ right. exists c'. split; [right; exact Hc' | exact Hrest].
        -- intros k Hk. apply T2. rewrite dict_in_set, Hk.
           apply orb_true_r.
        -- intros c' [<-|Hc'] Hrd; [|apply T3; assumption].
           apply T2. rewrite dict_in_set, String.eqb_refl. reflexivity.
        -- intros Hnd. apply T4. apply dict_set_NoDup. exact Hnd.
      * intros H. destruct (IH _ H) as (T1 & T2 & T3 & T4).
        split; [|split; [exact T2|split; [|exact T4]]].
        -- intros k v Hk. destruct (T1 k v Hk) as [Hold|(c' & Hc' & Hrest)];
             [left; exact Hold|].
           right. exists c'. split; [right; exact Hc' | exact Hrest].
        -- intros c' [<-|Hc'] Hrd; [|apply T3; assumption].
           destruct Hrd; congruence.
Qed.

(** The loop over the declared attributes changes nothing when every
    attribute that is required or has a default is among the keys. *)
Lemma Dict_clean_attrs_fixed (ats : list (string * Attr))
    (data : list (string * value)) :
  (forall c, In c (map snd ats) ->
     required (fields c) = true \/ has_default (fields c) = true ->
     dict_in (name (fields c)) data = true) ->
  Dict_clean_attrs
    (map (fun kc : string * Attr =>
            match kc with (k, c) => (k, (fields c, clean c)) end) ats) data =
  Ok data.
Proof.
  induction ats as [|[k0 c] ats IH]; intros Hall; simpl; [reflexivity|].
  destruct (dict_in (name (fields c)) data) eqn:Hin.
  - rewrite !andb_false_r. simpl. apply IH.
    intros c' Hc'. apply Hall. right. exact Hc'.
  - destruct (required (fields c)) eqn:Hreq.
    + rewrite Hall in Hin; [discriminate | left; reflexivity | left; exact Hreq].
    + destruct (has_default (fields c)) eqn:Hdef.
      * rewrite Hall in Hin;
          [discriminate | left; reflexivity | right; exact Hdef].
      * simpl. apply IH. intros c' Hc'. apply Hall. right. exact Hc'.
Qed.

(** The loop over the supplied keys changes nothing when every value is what
    its attribute cleans it to. *)
Lemma Dict_clean_keys_fixed (f : Fields) (ats : list (string * Attr))
    (snap data : list (string * value)) :
  (forall k v, In (k, v) snap ->
     dict_get k data = Some v /\
     (additional_attrs f = true \/ dict_in k ats = true) /\
     forall c, dict_get k ats = Some c -> clean c v = Ok v) ->
  Dict_clean_keys f
    (map (fun kc : string * Attr =>
            match kc with (k, c) => (k, (fields c, clean c)) end) ats)
    snap data = Ok data.
Proof.
  induction snap as [|[key v] snap IH]; intros Hall; simpl; [reflexivity|].
  destruct (Hall key v (or_introl eq_refl)) as (Hget & Hgate & Hclean).
  assert (Hin : @dict_in child key
                  (map (fun kc : string * Attr =>
                          match kc with (k, c) => (k, (fields c, clean c)) end)
                       ats) = dict_in key ats).
  { unfold dict_in.
    rewrite (dict_get_map (B:=child) (fun c => (fields c, clean c))).
    destruct (dict_get key ats); reflexivity. }
  rewrite Hin.
  rewrite (dict_get_map (B:=child) (fun c => (fields c, clean c))).
  assert (Hg : negb (additional_attrs f) && negb (dict_in key ats) = false).
  { destruct Hgate as [-> | ->]; [reflexivity | apply andb_false_r]. }
  rewrite Hg.
  assert (Hrest : forall k v', In (k, v') snap ->
            dict_get k data = Some v' /\
            (additional_attrs f = true \/ dict_in k ats = true) /\
            forall c, dict_get k ats = Some c -> clean c v' = Ok v')
    by (intros k v' Hk; apply Hall; right; exact Hk).
  destruct (dict_get key ats) as [c|] eqn:Hc; simpl.
  - rewrite (Hclean c eq_refl). simpl.
    rewrite (dict_set_same key v data Hget). apply IH. exact Hrest.
  - apply IH. exact Hrest.
Qed.

(** X17.  For a [Dict] with distinct keys, each field filed under the name
    of its attribute, whose attributes are settled and clean their defaults
    to themselves: cleaning what [Dict.clean] returned returns it again,
    unchanged. *)
Theorem Dict_clean_idempotent (f : Fields) (its : list Attr)
    (ats : list (string * Attr)) (d : list (string * value)) (out : value) :
  cls_of f = Dict ->
  NoDup (map fst d) ->
  NoDup (map fst ats) ->
  Forall field_settled ats ->
  clean (Node f its ats) (VDict d) = Ok out ->
  clean (Node f its ats) out = Ok out.
Proof.
  intros Hcls Hnd Hnda Hset. simpl. rewrite Hcls. unfold Dict_clean. simpl.
  set (ch := map (fun kc : string * Attr =>
                    match kc with (k, c) => (k, (fields c, clean c)) end) ats).
  destruct (Dict_clean_keys f ch d d) as [d1|e] eqn:Hd1; simpl;
    [|discriminate].
  assert (Hkeys1 : map fst d1 = map fst d).
  { apply (Dict_clean_keys_order f ch d d d1); [|exact Hd1].
    intros k v. apply dict_in_In. }
  assert (Hnd1 : NoDup (map fst d1)) by (rewrite Hkeys1; exact Hnd).
  destruct (Dict_clean_keys_values f ats d d d1 Hnd Hd1) as [_ Hvals].
  rewrite Forall_forall in Hset.
  assert (HP1 : forall k v, dict_get k d1 = Some v ->
            (additional_attrs f = true \/ dict_in k ats = true) /\
            forall c, dict_get k ats = Some c -> clean c v = Ok v).
  { intros k v Hk.
    assert (Hkd : In k (map fst d)).
    { rewrite <- Hkeys1. apply dict_get_Some_In in Hk.
      apply (in_map fst d1 (k, v)). exact Hk. }
    apply in_map_iff in Hkd as ([k' v0] & Heq & Hkv). simpl in Heq. subst k'.
    specialize (Hvals k v0 Hkv). unfold dict_in.
    destruct (dict_get k ats) as [c|] eqn:Hc.
    - destruct Hvals as (r & Hr & Hget). rewrite Hget in Hk.
      injection Hk as <-. split; [right; reflexivity|].
      intros c' Hc'. injection Hc' as <-.
      apply dict_get_Some_In in Hc. apply list_elem_of_In in Hc.
      destruct (Hset (k, c) Hc) as (_ & Hsettled & _).
      exact (Hsettled v0 r Hr).
    - destruct Hvals as [Hadd _]. split; [left; exact Hadd | discriminate]. }
  destruct (update f) eqn:Hupd; simpl.
  - intros H. injection H as <-. simpl.
    unfold ch. rewrite (Dict_clean_keys_fixed f ats d1 d1).
    + reflexivity.
    + intros k v Hkv. pose proof (dict_get_In k v d1 Hnd1 Hkv) as Hget.
      split; [exact Hget | exact (HP1 k v Hget)].
  - destruct (Dict_clean_attrs ch d1) as [d2|e] eqn:Hd2; simpl;
      [|discriminate].
    intros H. injection H as <-. simpl.
    destruct (Dict_clean_attrs_trace ats d1 d2 Hd2) as (T1 & T2 & T3 & T4).
    unfold ch. rewrite (Dict_clean_keys_fixed f ats d2 d2).
    + simpl.
      rewrite (Dict_clean_attrs_fixed ats d2 T3). reflexivity.
    + intros k v Hkv. pose proof (dict_get_In k v d2 (T4 Hnd1) Hkv) as Hget.
      split; [exact Hget|].
      destruct (T1 k v Hget) as [Hold|(c & Hc & Hname & Hdef & ->)];
        [exact (HP1 k v Hold)|].
      apply in_map_iff in Hc as ([k0 c0] & Heq & Hc). simpl in Heq. subst c0.
      pose proof Hc as Hc'. apply list_elem_of_In in Hc'.
      destruct (Hset (k0, c) Hc') as (Hn & _ & Hcd). simpl in Hn, Hcd.
      assert (Hk0 : k0 = k) by congruence. rewrite Hk0 in Hc.
      pose proof (dict_get_In k c ats Hnda Hc) as Hgetc.
      unfold dict_in. rewrite Hgetc. split; [right; reflexivity|].
      intros c' Heq. injection Heq as <-. exact (Hcd Hdef).
Qed.

(** A [Dict] with a required [Int] and a [Str] with a default: the digit
    string becomes an integer and the default is filled in; cleaning the
    result changes nothing. *)
Lemma Dict_clean_idempotent_witness :
  clean (mk_Dict "d" false None [] false false
           [mk_Int "a" true None [];
            mk_Str "b" false (Some (VStr "z")) [] None])
        (VDict [("a", VStr "3")]) =
    Ok (VDict [("a", VInt 3); ("b", VStr "z")]) /\
  clean (mk_Dict "d" false None [] false false
           [mk_Int "a" true None [];
            mk_Str "b" false (Some (VStr "z")) [] None])
        (VDict [("a", VInt 3); ("b", VStr "z")]) =
    Ok (VDict [("a", VInt 3); ("b", VStr "z")]).
Proof.
  split; [reflexivity|].
  assert (Hnd : NoDup (map fst [("a", VStr "3")])).
  { apply (bool_decide_unpack _). vm_compute. exact I. }
  assert (Hnda : NoDup (map fst [("a", mk_Int "a" true None []);
                                 ("b", mk_Str "b" false (Some (VStr "z")) []
                                         None)])).
  { apply (bool_decide_unpack _). vm_compute. exact I. }
  apply (Dict_clean_idempotent
           (with_dict_flags false false
              (Attribute_init Dict "d" None false [] false None))
           []
           [("a", mk_Int "a" true None []);
            ("b", mk_Str "b" false (Some (VStr "z")) [] None)]
           [("a", VStr "3")] _ eq_refl Hnd Hnda); [|reflexivity].
  repeat constructor; simpl.
  - intros x y. simpl. unfold Int_clean. simpl.
    destruct x; simpl; try discriminate;
      try (intros H; injection H as <-; reflexivity).
    destruct (isdigit s); [|discriminate].
    destruct (int_of_str s); [|discriminate].
    intros H. injection H as <-. reflexivity.
  - discriminate.
  - intros x y. simpl. unfold Str_clean, EnumMixin_clean. simpl.
    destruct x; simpl; try discriminate;
      intros H; injection H as <-; reflexivity.
Defined.





